(** * Peerster: a shallow embedding of the gossiper's core and its properties

    The development follows the Go sources:
    - [models/CommunicationModels.go]: packets, [TxPublish.Hash], [Block.Hash],
      [Block.IsGood];
    - [models/blockchain/BlockchainManager.go]: [addBlock], [addTransaction];
    - [models/filesharing/SharedFile.go]: [shareFile], [getSearchResults];
    - [models/filesharing] (downloading file): [ProcessDataReply], [gotMetafile];
    - [gossiper]: [getRandomPeer], [processRumorMessage], [spreadTheRumor],
      [processSearchRequest], [startFileSearchingGoroutine].

    Conventions.  A byte is a [Z] in [0, 256); a byte slice is a [list Z].
    A Go [string] is a sequence of bytes, here a [string] of 8-bit [ascii]
    characters.  Go maps used as sets are [gset]s, maps are [gmap]s.  A Go
    run-time panic (integer division by zero, [rand.Int31n] on a non-positive
    bound, a method call on a nil pointer) is the value [None] of an
    [option] result; where [None] stands for something else (a [nil]
    result, an input outside the modelled fragment of a library) the
    comment of the function says so. *)

From Stdlib Require Import ZArith List Lia Ascii String.
From stdpp Require Import gmap strings list fin_maps.
Import ListNotations.
Local Open Scope Z_scope.

(** ** Machine integers and byte strings *)

Abbreviation bytes := (list Z).

(** Conversion to [uint32], as in [uint32(len(x))]. *)
Definition uint32 (x : Z) : Z := x mod 2 ^ 32.

(** Conversion to [uint64] and to the 64-bit signed [int]. *)
Definition uint64 (x : Z) : Z := x mod 2 ^ 64.
Definition int64 (x : Z) : Z := (x + 2 ^ 63) mod 2 ^ 64 - 2 ^ 63.

(** [len] of a slice or of a string, as a Go [int]. *)
Definition len {A} (l : list A) : Z := Z.of_nat (length l).

(** Little-endian encoding on [n] bytes ([binary.Write] with
    [binary.LittleEndian]). *)
Fixpoint le_bytes (n : nat) (x : Z) : bytes :=
  match n with
  | O => []
  | S n' => x mod 256 :: le_bytes n' (x / 256)
  end.

(** The bytes of a Go string. *)
Definition byte_of_ascii (c : ascii) : Z := Z.of_N (N_of_ascii c).
Definition bytes_of_string (s : string) : bytes :=
  map byte_of_ascii (list_ascii_of_string s).

(** A [[32]byte] array filled by [copy(out[:], src)]: the first 32 bytes of
    [src], the rest of the array keeping its zero value. *)
Definition copy32 (src : bytes) : bytes := take 32 (src ++ replicate 32 0).

(** ** SHA-256 ([crypto/sha256]), after FIPS 180-4 *)

Module SHA256.

Definition w32 (x : Z) : Z := x mod 2 ^ 32.
Definition rotr (n x : Z) : Z :=
  Z.lor (Z.shiftr x n) (w32 (Z.shiftl x (32 - n))).
Definition Ch (x y z : Z) : Z :=
  Z.lxor (Z.land x y) (Z.land (Z.lxor x (2 ^ 32 - 1)) z).
Definition Maj (x y z : Z) : Z :=
  Z.lxor (Z.lxor (Z.land x y) (Z.land x z)) (Z.land y z).
Definition bsig0 (x : Z) : Z :=
  Z.lxor (Z.lxor (rotr 2 x) (rotr 13 x)) (rotr 22 x).
Definition bsig1 (x : Z) : Z :=
  Z.lxor (Z.lxor (rotr 6 x) (rotr 11 x)) (rotr 25 x).
Definition ssig0 (x : Z) : Z :=
  Z.lxor (Z.lxor (rotr 7 x) (rotr 18 x)) (Z.shiftr x 3).
Definition ssig1 (x : Z) : Z :=
  Z.lxor (Z.lxor (rotr 17 x) (rotr 19 x)) (Z.shiftr x 10).

(** The constants are fractional parts of roots of the first primes.
    [iroot d bits n] is the integer [d]-th root of [n], found bit by bit
    from bit [bits - 1] down. *)
Fixpoint iroot (d : Z) (bits : nat) (n : Z) (acc : Z) : Z :=
  match bits with
  | O => acc
  | S bits' =>
      let cand := acc + 2 ^ Z.of_nat bits' in
      iroot d bits' n (if decide (cand ^ d <= n) then cand else acc)
  end.

Definition is_prime (p : nat) : bool :=
  forallb (fun q => negb (p mod q =? 0)%nat) (seq 2 (p - 2)).

Definition primes (bound : nat) : list Z :=
  map Z.of_nat (filter (fun p => is_prime p = true) (seq 2 bound)).

(** The first 32 bits of the fractional part of the [d]-th root of [p]. *)
Definition frac_root (d : Z) (p : Z) : Z :=
  w32 (iroot d 40 (p * 2 ^ (32 * d)) 0).

(** The round constants: cube roots of the first 64 primes (2 to 311). *)
Definition K256 : list Z := Eval vm_compute in map (frac_root 3) (primes 310).

(** The initial hash value: square roots of the first 8 primes. *)
Definition H0 : list Z := Eval vm_compute in map (frac_root 2) (primes 18).

(** Big-endian encoding of [x] on [n] bytes, and its inverse. *)
Fixpoint be_bytes (n : nat) (x : Z) : bytes :=
  match n with
  | O => []
  | S n' => be_bytes n' (x / 256) ++ [x mod 256]
  end.

Definition be_word (bs : bytes) : Z :=
  fold_left (fun acc b => acc * 256 + b) bs 0.

(** Padding: the bit 1, zeros up to 56 modulo 64, the bit length on 8 bytes. *)
Definition pad (msg : bytes) : bytes :=
  let k := (55 - len msg) mod 64 in
  msg ++ [128] ++ replicate (Z.to_nat k) 0 ++ be_bytes 8 (8 * len msg).

Fixpoint words (n : nat) (bs : bytes) : list Z :=
  match n with
  | O => []
  | S n' => be_word (take 4 bs) :: words n' (drop 4 bs)
  end.

(** The message schedule, kept with the most recent word first. *)
Fixpoint schedule (n : nat) (wrev : list Z) : list Z :=
  match n with
  | O => wrev
  | S n' =>
      let w := w32 (ssig1 (nth 1 wrev 0) + nth 6 wrev 0
                    + ssig0 (nth 14 wrev 0) + nth 15 wrev 0) in
      schedule n' (w :: wrev)
  end.

Definition round (st : list Z) (kw : Z * Z) : list Z :=
  match st with
  | [a; b; c; d; e; f; g; h] =>
      let t1 := h + bsig1 e + Ch e f g + fst kw + snd kw in
      let t2 := bsig0 a + Maj a b c in
      [w32 (t1 + t2); a; b; c; w32 (d + t1); e; f; g]
  | _ => st
  end.

Definition compress (h : list Z) (blk : bytes) : list Z :=
  let w := rev (schedule 48 (rev (words 16 blk))) in
  let st := fold_left round (combine K256 w) h in
  map (fun p => w32 (fst p + snd p)) (combine h st).

Fixpoint blocks (n : nat) (h : list Z) (bs : bytes) : list Z :=
  match n with
  | O => h
  | S n' => blocks n' (compress h (take 64 bs)) (drop 64 bs)
  end.

(** [sha256.Sum256]. *)
Definition Sum256 (msg : bytes) : bytes :=
  let p := pad msg in
  flat_map (be_bytes 4) (blocks (length p / 64)%nat H0 p).

(** The streaming interface [hash.Hash]: [New], [Write], [Sum(nil)].  The
    state is the data written so far. *)
Definition New : bytes := [].
Definition Write (h : bytes) (p : bytes) : bytes := h ++ p.
Definition Sum (h : bytes) : bytes := Sum256 h.

End SHA256.

(** ** models/CommunicationModels.go *)

Record File := mkFile {
  Name : string;
  Size : Z;
  MetafileHash : bytes
}.

Record TxPublish := mkTxPublish {
  TxFile : File;
  TxHopLimit : Z
}.

Record Block := mkBlock {
  PrevHash : bytes;
  Nonce : bytes;
  Transactions : list TxPublish
}.

Record RumorMessage := mkRumorMessage {
  OriginalName : string;
  ID : Z;
  Text : string
}.

Record SearchRequest := mkSearchRequest {
  SrqOrigin : string;
  Budget : Z;
  Keywords : list string
}.

Record SearchResult := mkSearchResult {
  FileName : string;
  SrMetafileHash : bytes;
  ChunkMap : list Z;
  ChunkCount : Z
}.

Record SearchReply := mkSearchReply {
  SrpOrigin : string;
  SrpDestination : string;
  SrpHopLimit : Z;
  Results : list SearchResult
}.

Record DataReply := mkDataReply {
  DrpOrigin : string;
  DrpDestination : string;
  DrpHopLimit : Z;
  HashValue : bytes;
  Data : bytes
}.

(** [func (t *TxPublish) Hash() (out [32]byte)] *)
Definition TxPublish_Hash (t : TxPublish) : bytes :=
  let h := SHA256.New in
  let h := SHA256.Write h (le_bytes 4 (uint32 (len (bytes_of_string (Name (TxFile t)))))) in
  let h := SHA256.Write h (bytes_of_string (Name (TxFile t))) in
  let h := SHA256.Write h (MetafileHash (TxFile t)) in
  copy32 (SHA256.Sum h).

(** [func (b *Block) Hash() (out [32]byte)]; the [range] loop over the
    transactions is the fold. *)
Definition Block_Hash (b : Block) : bytes :=
  let h := SHA256.New in
  let h := SHA256.Write h (PrevHash b) in
  let h := SHA256.Write h (Nonce b) in
  let h := SHA256.Write h (le_bytes 4 (uint32 (len (Transactions b)))) in
  let h := fold_left (fun h t => SHA256.Write h (TxPublish_Hash t))
                     (Transactions b) h in
  copy32 (SHA256.Sum h).

(** The loop of [IsGood]: [n] iterations left, index [i].  Indexing the
    [[32]byte] array out of range panics. *)
Fixpoint IsGood_loop (hash : bytes) (n : nat) (i : nat) : option bool :=
  match n with
  | O => Some true
  | S n' =>
      match hash !! i with
      | None => None
      | Some x => if decide (x ≠ 0) then Some false
                  else IsGood_loop hash n' (S i)
      end
  end.

(** [func (b *Block) IsGood() bool], for the configuration constant
    [BlockhainBytesForGoodBlock] (package [config] is not part of the
    sources at hand, so the constant is an argument). *)
Definition IsGood (BlockhainBytesForGoodBlock : Z) (b : Block) : option bool :=
  IsGood_loop (Block_Hash b) (Z.to_nat BlockhainBytesForGoodBlock) 0.

#[global] Instance File_eq_dec : EqDecision File.
Proof. solve_decision. Defined.

#[global] Instance File_countable : Countable File.
Proof.
  refine (inj_countable' (fun f => (Name f, Size f, MetafileHash f))
                         (fun p => mkFile p.1.1 p.1.2 p.2) _).
  by intros [].
Defined.

#[global] Instance TxPublish_eq_dec : EqDecision TxPublish.
Proof. solve_decision. Defined.

#[global] Instance Block_eq_dec : EqDecision Block.
Proof. solve_decision. Defined.

(** ** models/blockchain *)

Module TransactionsSet.

(** Modelled from the spec: the type [TransactionsSet] and its methods
    ([contains], [containsFilename], [add], [subtract], [union]) are not
    part of the sources at hand.  The spec calls it a transaction set, a
    transaction being (filename, size, metafile-hash); a set reserves a
    filename when one of its transactions carries it. *)
Abbreviation t := (gset File).

(** Modelled from the spec: [InitEmpty], the empty transaction set. *)
Definition InitEmpty : t := ∅.

(** Modelled from the spec: [contains], the transaction is in the set. *)
Definition contains (s : t) (tx : TxPublish) : bool :=
  bool_decide (TxFile tx ∈ s).

(** Modelled from the spec: [containsFilename], the set reserves the
    filename. *)
Definition containsFilename (s : t) (name : string) : bool :=
  bool_decide (set_Exists (fun f => Name f = name) s).

(** Modelled from the spec: [add], "add to pending". *)
Definition add (s : t) (tx : TxPublish) : t := {[ TxFile tx ]} ∪ s.

(** Modelled from the spec: [subtract], "subtract from pending". *)
Definition subtract (s other : t) : t := s ∖ other.

(** Modelled from the spec: [union], "add them to pending". *)
Definition union (s other : t) : t := s ∪ other.

(** Modelled from the spec: the transaction set of the transactions of a
    block. *)
Definition ofSlice (txs : list TxPublish) : t :=
  list_to_set (map TxFile txs).

End TransactionsSet.

(** Modelled from the spec: the type [blockNode] with [InitFakeBlockNode],
    [InitBlockNode], [isFake] and [getLSA] is not part of the sources at
    hand.  The spec: a blockchain node is (block, parent-pointer, depth,
    transaction-set), each node storing the transaction set of its block;
    the tree is rooted at a synthetic genesis whose hash is all zeros.
    Nodes are never mutated once built, so a pointer to a node is the node
    itself and pointer comparison is equality of nodes. *)
Inductive blockNode :=
  | FakeBlockNode
  | BlockNode (block : Block) (parent : blockNode) (depth : Z)
              (txSet : gset File).

#[global] Instance blockNode_eq_dec : EqDecision blockNode.
Proof. solve_decision. Defined.

(** Modelled from the spec: [InitFakeBlockNode], the synthetic genesis. *)
Definition InitFakeBlockNode : blockNode := FakeBlockNode.

(** Modelled from the spec: [isFake], the node is the genesis. *)
Definition isFake (n : blockNode) : bool :=
  match n with FakeBlockNode => true | BlockNode _ _ _ _ => false end.

(** Modelled from the spec: the field [depth], 0 for the genesis. *)
Definition depth (n : blockNode) : Z :=
  match n with FakeBlockNode => 0 | BlockNode _ _ d _ => d end.

(** Modelled from the spec: the field [txSet], empty for the genesis. *)
Definition txSet (n : blockNode) : gset File :=
  match n with FakeBlockNode => ∅ | BlockNode _ _ _ s => s end.

(** Modelled from the spec: [bn.block.Hash()], the hash of the block of a
    node; all zeros for the genesis. *)
Definition node_block_Hash (n : blockNode) : bytes :=
  match n with
  | FakeBlockNode => replicate 32 0
  | BlockNode b _ _ _ => Block_Hash b
  end.

(** Modelled from the spec: [InitBlockNode], the node of a block under its
    parent, one deeper than the parent, with the transaction set of the
    block. *)
Definition InitBlockNode (parent : blockNode) (block : Block) : blockNode :=
  BlockNode block parent (depth parent + 1)
            (TransactionsSet.ofSlice (Transactions block)).

(** Modelled from the spec: the path from a node up to the genesis, the
    node first. *)
Fixpoint ancestors (n : blockNode) : list blockNode :=
  n :: match n with
       | FakeBlockNode => []
       | BlockNode _ p _ _ => ancestors p
       end.

(** Modelled from the spec: [getLSA], the lowest common ancestor, that is
    the first node on the path from [a] to the genesis that also lies on
    the path from [b] to the genesis. *)
Definition getLSA (a b : blockNode) : blockNode :=
  default FakeBlockNode
    (head (filter (fun x => x ∈ ancestors b) (ancestors a))).

Record BlockchainManager := mkBlockchainManager {
  tail : blockNode;
  blocks : gmap bytes blockNode;
  pendingTx : gset File
}.

#[global] Instance BlockchainManager_eq_dec : EqDecision BlockchainManager.
Proof. solve_decision. Defined.

(** [InitBlockchainManager] *)
Definition InitBlockchainManager : BlockchainManager :=
  let tail := InitFakeBlockNode in
  mkBlockchainManager tail {[ replicate 32 0 := tail ]}
                      TransactionsSet.InitEmpty.

(** [for curBlock := from; curBlock != lsa; curBlock = curBlock.parent
      { pending.union(curBlock.txSet) }].
    Stepping above the genesis dereferences a nil pointer. *)
Fixpoint rollback_loop (cur lsa : blockNode) (pending : gset File)
  : option (gset File) :=
  if decide (cur = lsa) then Some pending
  else match cur with
       | FakeBlockNode => None
       | BlockNode _ p _ s =>
           rollback_loop p lsa (TransactionsSet.union pending s)
       end.

(** [for curBlock := from; curBlock != lsa; curBlock = curBlock.parent
      { pending.subtract(curBlock.txSet) }]. *)
Fixpoint apply_loop (cur lsa : blockNode) (pending : gset File)
  : option (gset File) :=
  if decide (cur = lsa) then Some pending
  else match cur with
       | FakeBlockNode => None
       | BlockNode _ p _ s =>
           apply_loop p lsa (TransactionsSet.subtract pending s)
       end.

(** [func (bm *BlockchainManager) addBlock(block *Block) bool]: the new
    state and the returned flag. *)
Definition addBlock (K : Z) (bm : BlockchainManager) (block : Block)
  : option (BlockchainManager * bool) :=
  if decide (is_Some (blocks bm !! Block_Hash block)) then Some (bm, false)
  else match blocks bm !! PrevHash block with
  | None => Some (bm, false)
  | Some parentNode =>
    good ← IsGood K block;
    if negb good then Some (bm, false)
    else if decide (PrevHash block = node_block_Hash (tail bm)) then
      let tail' := InitBlockNode (tail bm) block in
      Some (mkBlockchainManager tail'
              (<[Block_Hash block := tail']> (blocks bm))
              (TransactionsSet.subtract (pendingTx bm) (txSet tail')),
            true)
    else if decide (depth parentNode < depth (tail bm)) then
      Some (mkBlockchainManager (tail bm)
              (<[Block_Hash block := InitBlockNode parentNode block]> (blocks bm))
              (pendingTx bm),
            true)
    else
      let lsa := getLSA (tail bm) parentNode in
      pending1 ← rollback_loop (tail bm) lsa (pendingTx bm);
      let newBlock := InitBlockNode parentNode block in
      pending2 ← apply_loop newBlock lsa pending1;
      Some (mkBlockchainManager (tail bm)
              (<[Block_Hash block := newBlock]> (blocks bm))
              pending2,
            true)
  end.

(** The loop of [addTransaction] along the official history:
    [for curBlock := bm.tail; !curBlock.isFake(); curBlock = curBlock.parent];
    [true] when some block makes the function return false. *)
Fixpoint history_rejects (cur : blockNode) (tx : TxPublish) : bool :=
  match cur with
  | FakeBlockNode => false
  | BlockNode _ p _ s =>
      if TransactionsSet.contains s tx then true
      else if TransactionsSet.containsFilename s (Name (TxFile tx)) then true
      else history_rejects p tx
  end.

(** [func (bm *BlockchainManager) addTransaction(tx *TxPublish) bool] *)
Definition addTransaction (bm : BlockchainManager) (tx : TxPublish)
  : BlockchainManager * bool :=
  if TransactionsSet.contains (pendingTx bm) tx then (bm, false)
  else if TransactionsSet.containsFilename (pendingTx bm) (Name (TxFile tx))
  then (bm, false)
  else if history_rejects (tail bm) tx then (bm, false)
  else (mkBlockchainManager (tail bm) (blocks bm)
          (TransactionsSet.add (pendingTx bm) tx),
        true).

(** ** The library [regexp], on a fragment of its syntax

    [regexp.MatchString(pattern, s)] compiles [pattern] (RE2 syntax with the
    Perl flags) and reports whether [s] contains a match of it.  The model
    covers patterns and subjects made of ASCII characters, with literal
    characters, [.] (any character but a newline) and the repetitions [*],
    [+], [?], each optionally followed by the non-greedy mark [?].  As in
    the library, a repetition with nothing to repeat or stacked on another
    repetition is a compile error.  The other metacharacters
    (backslash, parentheses, brackets, braces, bar, caret, dollar) and
    non-ASCII characters are outside the fragment: the model answers [None]
    for them. *)

Module Regexp.

Inductive re :=
  | Void
  | Eps
  | Cls (p : ascii -> bool)
  | Cat (r1 r2 : re)
  | Alt (r1 r2 : re)
  | Star (r : re).

(** The language of a regular expression. *)
Inductive lang : re -> list ascii -> Prop :=
  | lang_eps : lang Eps []
  | lang_cls p c : p c = true -> lang (Cls p) [c]
  | lang_cat r1 r2 s1 s2 : lang r1 s1 -> lang r2 s2 -> lang (Cat r1 r2) (s1 ++ s2)
  | lang_alt_l r1 r2 s : lang r1 s -> lang (Alt r1 r2) s
  | lang_alt_r r1 r2 s : lang r2 s -> lang (Alt r1 r2) s
  | lang_star_nil r : lang (Star r) []
  | lang_star_app r s1 s2 : lang r s1 -> lang (Star r) s2 -> lang (Star r) (s1 ++ s2).

Fixpoint nullable (r : re) : bool :=
  match r with
  | Void => false
  | Eps => true
  | Cls _ => false
  | Cat r1 r2 => nullable r1 && nullable r2
  | Alt r1 r2 => nullable r1 || nullable r2
  | Star _ => true
  end.

(** Brzozowski derivative. *)
Fixpoint deriv (c : ascii) (r : re) : re :=
  match r with
  | Void => Void
  | Eps => Void
  | Cls p => if p c then Eps else Void
  | Cat r1 r2 =>
      if nullable r1 then Alt (Cat (deriv c r1) r2) (deriv c r2)
      else Cat (deriv c r1) r2
  | Alt r1 r2 => Alt (deriv c r1) (deriv c r2)
  | Star r1 => Cat (deriv c r1) (Star r1)
  end.

Definition accepts (r : re) (s : list ascii) : bool :=
  nullable (fold_left (fun r c => deriv c r) s r).

Definition any_char : re := Cls (fun _ => true).
Definition dot : re := Cls (fun c => negb (Ascii.eqb c "010"%char)).
Definition lit (c : ascii) : re := Cls (Ascii.eqb c).

(** An unanchored search: some substring of [s] is in the language. *)
Definition search (r : re) (s : list ascii) : bool :=
  accepts (Cat (Star any_char) (Cat r (Star any_char))) s.

Definition is_ascii (c : ascii) : bool := (N_of_ascii c <? 128)%N.

(** The metacharacters that the fragment leaves out. *)
Definition is_other_meta (c : ascii) : bool :=
  bool_decide (c ∈ ["\"; "("; ")"; "|"; "["; "]"; "{"; "}"; "^"; "$"]%char).

Definition is_rep (c : ascii) : bool :=
  bool_decide (c ∈ ["*"; "+"; "?"]%char).

Definition in_fragment (pattern : list ascii) : bool :=
  forallb (fun c => is_ascii c && negb (is_other_meta c)) pattern.

(** What the last token was: an atom (or nothing), a repetition that may
    still take its non-greedy mark, or a repetition that has taken it. *)
Inductive last_token := LastAtom | LastRep | LastRepLazy.

Definition apply_rep (c : ascii) (r : re) : re :=
  if Ascii.eqb c "*" then Star r
  else if Ascii.eqb c "+" then Cat r (Star r)
  else Alt r Eps.

(** The parser: [stack] holds the pieces parsed so far, the latest first;
    [None] is a compile error. *)
Fixpoint parse_loop (cs : list ascii) (stack : list re) (last : last_token)
  : option (list re) :=
  match cs with
  | [] => Some stack
  | c :: cs' =>
      if is_rep c then
        match last, stack with
        | LastRep, _ =>
            if Ascii.eqb c "?" then parse_loop cs' stack LastRepLazy
            else None
        | LastRepLazy, _ => None
        | LastAtom, [] => None
        | LastAtom, r :: stack' =>
            parse_loop cs' (apply_rep c r :: stack') LastRep
        end
      else if Ascii.eqb c "." then parse_loop cs' (dot :: stack) LastAtom
      else parse_loop cs' (lit c :: stack) LastAtom
  end.

Definition concat_stack (stack : list re) : re :=
  fold_left (fun acc r => Cat r acc) stack Eps.

Definition parse (pattern : list ascii) : option re :=
  concat_stack <$> parse_loop pattern [] LastAtom.

(** [regexp.MatchString]: [Some (matched, err == nil)] on the fragment. *)
Definition MatchString (pattern s : string) : option (bool * bool) :=
  let p := list_ascii_of_string pattern in
  let cs := list_ascii_of_string s in
  if in_fragment p && forallb is_ascii cs then
    match parse p with
    | None => Some (false, false)
    | Some r => Some (search r cs, true)
    end
  else None.

End Regexp.

(** ** models/filesharing/SharedFile.go *)

Record sharedFile := mkSharedFile {
  SfName : string;
  SfSize : Z;
  MetaHash : bytes;
  MetaSlice : bytes;
  MetaSet : gset bytes
}.

(** The loop of [shareFile] that splits the file in chunks: [rest] are the
    bytes from index [i] on, [total] is [len(fileBytes)]. *)
Fixpoint split_loop (FileChunkSize total : Z) (rest : bytes) (i : Z)
  (chunks : list bytes) (curChunk : bytes) : list bytes :=
  match rest with
  | [] => chunks
  | b :: rest' =>
      let curChunk := curChunk ++ [b] in
      if decide (Z.rem (i + 1) FileChunkSize = 0 ∨ i + 1 = total)
      then split_loop FileChunkSize total rest' (i + 1) (chunks ++ [curChunk]) []
      else split_loop FileChunkSize total rest' (i + 1) chunks curChunk
  end.

Definition split_chunks (FileChunkSize : Z) (fileBytes : bytes) : list bytes :=
  split_loop FileChunkSize (len fileBytes) fileBytes 0 [] [].

(** The loop of [shareFile] over the chunks, building the metafile and the
    set of chunk hashes. *)
Definition hash_chunks (chunks : list bytes) (sf : sharedFile) : sharedFile :=
  fold_left
    (fun sf chunk =>
       let chunkHash := SHA256.Sum256 chunk in
       mkSharedFile (SfName sf) (SfSize sf) (MetaHash sf)
                    (MetaSlice sf ++ chunkHash)
                    ({[ chunkHash ]} ∪ MetaSet sf))
    chunks sf.

(** [func shareFile(path string) *sharedFile], once the file at [path] has
    been found and read: [name] is [filepath.Base(path)], [fileBytes] its
    contents.  The constants [FileChunkSize] (positive) and [MaxFileSize]
    come from package [config], which is not part of the sources at hand.
    [None] is the [nil] returned for a file that is too large.  Writing the
    chunks to disk is left out. *)
Definition shareFile (FileChunkSize MaxFileSize : Z) (name : string)
  (fileBytes : bytes) : option sharedFile :=
  let sf := mkSharedFile name (len fileBytes) [] [] ∅ in
  if decide (SfSize sf > MaxFileSize) then None
  else
    let chunks := split_chunks FileChunkSize fileBytes in
    let sf := hash_chunks chunks sf in
    Some (mkSharedFile (SfName sf) (SfSize sf) (SHA256.Sum256 (MetaSlice sf))
                       (MetaSlice sf) (MetaSet sf)).

(** The result built in [getSearchResults] for a matching keyword. *)
Definition searchResultOf (sf : sharedFile) : SearchResult :=
  let n := size (MetaSet sf) in
  mkSearchResult (SfName sf) (MetaHash sf)
                 (map (fun i => uint64 (Z.of_nat i)) (seq 1 n))
                 (uint64 (Z.of_nat n)).

(** [func (sf *sharedFile) getSearchResults(keywords []string) []*SearchResult];
    [None] when a keyword or the name is outside the modelled fragment of
    [regexp]. *)
Fixpoint getSearchResults (sf : sharedFile) (keywords : list string)
  : option (list SearchResult) :=
  match keywords with
  | [] => Some []
  | kw :: keywords' =>
      m ← Regexp.MatchString (".*" ++ kw ++ ".*") (SfName sf);
      rest ← getSearchResults sf keywords';
      let '(res, err_nil) := m in
      if err_nil && res then Some (searchResultOf sf :: rest) else Some rest
  end.

(** The test of the search goroutine for a full match:
    [uint64(len(res.ChunkMap)) == res.ChunkCount]. *)
Definition isFullMatch (res : SearchResult) : bool :=
  bool_decide (uint64 (len (ChunkMap res)) = ChunkCount res).

(** ** models/filesharing: the downloading file *)

Record DownloadingFile := mkDownloadingFile {
  DfName : string;
  DfMetaHash : bytes;
  Metafile : option bytes;
  ChunksHashesSlice : list bytes;
  ChunksHashesSet : gset bytes;
  ChunksToDownload : gset bytes
}.

Definition InitDownloadingFile (name : string) (metahash : bytes)
  : DownloadingFile :=
  mkDownloadingFile name metahash None [] ∅ ∅.

(** Modelled from the spec: [utils.GetTypeStrictHash] is not part of the
    sources at hand.  All hashes of the protocol are 32 bytes: the slice is
    turned into a [[32]byte], with an error for another length. *)
Definition GetTypeStrictHash (h : bytes) : option bytes :=
  if decide (length h = 32%nat) then Some h else None.

(** The parsing loop of [gotMetafile]: [i] is the index of the next byte,
    [currentChunk] the 32-byte array being filled. *)
Fixpoint parse_metafile (rest : bytes) (i : nat) (currentChunk : bytes)
  (df : DownloadingFile) : DownloadingFile :=
  match rest with
  | [] => df
  | b :: rest' =>
      let currentChunk := <[(i mod 32)%nat := b]> currentChunk in
      if decide (((i + 1) mod 32)%nat = 0%nat) then
        parse_metafile rest' (S i) currentChunk
          (mkDownloadingFile (DfName df) (DfMetaHash df) (Metafile df)
             (ChunksHashesSlice df ++ [currentChunk])
             ({[ currentChunk ]} ∪ ChunksHashesSet df)
             ({[ currentChunk ]} ∪ ChunksToDownload df))
      else parse_metafile rest' (S i) currentChunk df
  end.

(** [func (df *DownloadingFile) gotMetafile(hashValue [32]byte, metafile []byte)];
    the directories and the copy on disk are left out. *)
Definition gotMetafile (df : DownloadingFile) (hashValue : bytes)
  (metafile : bytes) : DownloadingFile :=
  if decide (Z.rem (len metafile) 32 ≠ 0 ∨ hashValue ≠ DfMetaHash df) then df
  else
    parse_metafile metafile 0 (replicate 32 0)
      (mkDownloadingFile (DfName df) (DfMetaHash df) (Some metafile) [] ∅ ∅).

(** [func (df *DownloadingFile) ProcessDataReply(drpmsg *DataReply) *bool]:
    the record afterwards and the result, [None] for [nil] (error),
    [Some b] for a pointer to [b].  Writing the chunk and the assembled
    file to disk is left out. *)
Definition ProcessDataReply (df : DownloadingFile) (drpmsg : DataReply)
  : DownloadingFile * option bool :=
  match GetTypeStrictHash (HashValue drpmsg) with
  | None => (df, None)
  | Some typedHashValue =>
      let data := Data drpmsg in
      if decide (SHA256.Sum256 data ≠ typedHashValue) then (df, None)
      else match Metafile df with
      | None => (gotMetafile df typedHashValue data, Some false)
      | Some _ =>
          if decide (typedHashValue ∉ ChunksToDownload df) then (df, None)
          else
            let df := mkDownloadingFile (DfName df) (DfMetaHash df)
                        (Metafile df) (ChunksHashesSlice df)
                        (ChunksHashesSet df)
                        (ChunksToDownload df ∖ {[ typedHashValue ]}) in
            if decide (size (ChunksToDownload df) = 0%nat) then (df, Some true)
            else (df, Some false)
      end
  end.

(** ** models/filesearching/CurrentSearchRequest.go *)

Record FullSearchMatch := mkFullSearchMatch {
  FsmOrigin : string;
  FsmFilename : string;
  FsmMetafileHash : bytes
}.

Record CurrentSearchRequest := mkCurrentSearchRequest {
  fullMatches : list FullSearchMatch;
  isAlive : bool
}.

Definition InitCurrentSearchRequest : CurrentSearchRequest :=
  mkCurrentSearchRequest [] true.

(** [AddFullMatch]: a match with the same origin and metafile hash as a
    known one is not counted. *)
Definition AddFullMatch (csr : CurrentSearchRequest) (m : FullSearchMatch)
  : CurrentSearchRequest :=
  if existsb (fun other =>
                bool_decide (FsmOrigin other = FsmOrigin m
                             ∧ FsmMetafileHash other = FsmMetafileHash m))
             (fullMatches csr)
  then csr
  else mkCurrentSearchRequest (fullMatches csr ++ [m]) (isAlive csr).

Definition GetFullMatchesNumber (csr : CurrentSearchRequest) : Z :=
  len (fullMatches csr).

Definition Shutdown (csr : CurrentSearchRequest) : CurrentSearchRequest :=
  mkCurrentSearchRequest (fullMatches csr) false.

(** ** gossiper *)

Record PeerStatus := mkPeerStatus {
  Identifier : string;
  NextID : Z
}.

Record StatusPacket := mkStatusPacket {
  Want : list PeerStatus
}.

(** The variants of [GossipPacket] that the functions below send. *)
Inductive GossipPacket :=
  | GpRumor (rmsg : RumorMessage)
  | GpStatus (sp : StatusPacket)
  | GpSearchRequest (srq : SearchRequest)
  | GpSearchReply (srp : SearchReply).

(** Conversion to [int32], as in [int32(len(g.peers))]. *)
Definition int32 (x : Z) : Z := (x + 2 ^ 31) mod 2 ^ 32 - 2 ^ 31.

(** [rand.Int31n(n)]: panics for [n <= 0], otherwise a number of [[0, n)];
    [rnd] is the draw of the random source. *)
Definition Int31n (rnd : Z) (n : Z) : option Z :=
  if decide (n <= 0) then None else Some (rnd mod n).

Section Gossiper.

(** The message storage (package [models], file not part of the sources at
    hand) is kept abstract: its type and the three methods the rumor path
    calls. *)
Context {MessageStorage : Type}.
Variable GetCurrentStatusPacket : MessageStorage -> StatusPacket.
Variable IsNewMessage : MessageStorage -> RumorMessage -> bool.
Variable AddRumorMessage : MessageStorage -> RumorMessage -> MessageStorage * bool.

(** The searches of the shared-files and downloading-files managers (files
    not part of the sources at hand), in their current state. *)
Variable SharedFilesManager_GetSearchResults : list string -> list SearchResult.
Variable DownloadingFilesManager_GetSearchResults : list string -> list SearchResult.

(** Constants of package [config], not part of the sources at hand. *)
Variable DefaultHopLimit : Z.
Variable FileSearchStartBudget : Z.
Variable FileSearchMaxBudget : Z.
Variable FileSearchFullMatchesThreshold : Z.

(** The gossiper.  A peer ([*UDPAddr]) is its string form ["ip:port"], the
    form the code compares peers by.  [peerMessagesToSend] is the channel to
    the peer writer, as the list of the packets put on it, oldest first;
    [mongeringThreads] lists the goroutines started by [spreadTheRumor]. *)
Record Gossiper := mkGossiper {
  name : string;
  peers : list string;
  nextHop : gmap string string;
  messageStorage : MessageStorage;
  currentSearchRequest : option CurrentSearchRequest;
  statusesChannels : gset string;
  peerMessagesToSend : list (string * GossipPacket);
  mongeringThreads : list (RumorMessage * string)
}.

Definition send (g : Gossiper) (address : string) (gp : GossipPacket) : Gossiper :=
  mkGossiper (name g) (peers g) (nextHop g) (messageStorage g)
    (currentSearchRequest g) (statusesChannels g)
    (peerMessagesToSend g ++ [(address, gp)]) (mongeringThreads g).

(** [func (g *Gossiper) getRandomPeer() *UDPAddr] *)
Definition getRandomPeer (g : Gossiper) (rnd : Z) : option string :=
  randomInt ← Int31n rnd (int32 (len (peers g)));
  peers g !! Z.to_nat randomInt.

Definition arePeersEmpty (g : Gossiper) : bool :=
  bool_decide (len (peers g) = 0).

(** [func (g *Gossiper) UpdatePeersIfNeeded(peer *UDPAddr)] *)
Definition UpdatePeersIfNeeded (g : Gossiper) (peer : string) : Gossiper :=
  if existsb (fun p => bool_decide (p = peer)) (peers g) then g
  else mkGossiper (name g) (peers g ++ [peer]) (nextHop g) (messageStorage g)
         (currentSearchRequest g) (statusesChannels g)
         (peerMessagesToSend g) (mongeringThreads g).

(** [func (g *Gossiper) updateNextHop(origin string, relay *UDPAddr)] *)
Definition updateNextHop (g : Gossiper) (origin relay : string) : Gossiper :=
  match nextHop g !! origin with
  | Some addr =>
      if decide (addr ≠ relay) then
        mkGossiper (name g) (peers g) (<[origin := relay]> (nextHop g))
          (messageStorage g) (currentSearchRequest g) (statusesChannels g)
          (peerMessagesToSend g) (mongeringThreads g)
      else g
  | None =>
      mkGossiper (name g) (peers g) (<[origin := relay]> (nextHop g))
        (messageStorage g) (currentSearchRequest g) (statusesChannels g)
        (peerMessagesToSend g) (mongeringThreads g)
  end.

(** [func (g *Gossiper) sendPacketWithNextHop(origin string, gp *GossipPacket)] *)
Definition sendPacketWithNextHop (g : Gossiper) (origin : string)
  (gp : GossipPacket) : Gossiper :=
  match nextHop g !! origin with
  | Some hop => send g hop gp
  | None => g
  end.

(** [func (g *Gossiper) spreadTheRumor(rmsg *RumorMessage, peer *UDPAddr)];
    [peer] is [None] for [nil]. *)
Definition spreadTheRumor (g : Gossiper) (rmsg : RumorMessage)
  (peer : option string) (rnd : Z) : option Gossiper :=
  peer ← match peer with
         | None => getRandomPeer g rnd
         | Some p => Some p
         end;
  if decide (peer ∈ statusesChannels g) then Some g
  else
    let g := mkGossiper (name g) (peers g) (nextHop g) (messageStorage g)
               (currentSearchRequest g) ({[ peer ]} ∪ statusesChannels g)
               (peerMessagesToSend g) (mongeringThreads g) in
    let g := send g peer (GpRumor rmsg) in
    Some (mkGossiper (name g) (peers g) (nextHop g) (messageStorage g)
            (currentSearchRequest g) (statusesChannels g)
            (peerMessagesToSend g) (mongeringThreads g ++ [(rmsg, peer)])).

(** [func (g *Gossiper) processRumorMessage(rmsg *RumorMessage)] *)
Definition processRumorMessage (g : Gossiper) (rmsg : RumorMessage) (rnd : Z)
  : option Gossiper :=
  let '(ms, isNewMessage) := AddRumorMessage (messageStorage g) rmsg in
  let g := mkGossiper (name g) (peers g) (nextHop g) ms
             (currentSearchRequest g) (statusesChannels g)
             (peerMessagesToSend g) (mongeringThreads g) in
  if isNewMessage then
    if arePeersEmpty g then Some g
    else spreadTheRumor g rmsg None rnd
  else Some g.

(** [func (g *Gossiper) processAddressedRumorMessage(rmsg *RumorMessage, address *UDPAddr)] *)
Definition processAddressedRumorMessage (g : Gossiper) (rmsg : RumorMessage)
  (address : string) (rnd : Z) : option Gossiper :=
  let feedbackStatus := GpStatus (GetCurrentStatusPacket (messageStorage g)) in
  let g := send g address feedbackStatus in
  let g := if IsNewMessage (messageStorage g) rmsg
           then updateNextHop g (OriginalName rmsg) address
           else g in
  processRumorMessage g rmsg rnd.

(** The rumor branch of [processAddressedGossipPacket]: the source joins
    the peers, then the rumor is processed. *)
Definition processAddressedGossipPacket_Rumor (g : Gossiper)
  (rmsg : RumorMessage) (address : string) (rnd : Z) : option Gossiper :=
  let g := UpdatePeersIfNeeded g address in
  processAddressedRumorMessage g rmsg address rnd.

(** The loop of [processSearchRequest] over the peers. *)
Fixpoint forward_loop (g : Gossiper) (srqmsg : SearchRequest) (budget : Z)
  (npeers : Z) (rest : list string) (residual : Z) : Gossiper :=
  match rest with
  | [] => g
  | peer :: rest' =>
      let newbudget := Z.quot budget npeers in
      let '(newbudget, residual) :=
        if decide (residual > 0) then (int64 (newbudget + 1), int64 (residual - 1))
        else (newbudget, residual) in
      let srq := mkSearchRequest (SrqOrigin srqmsg) (uint64 newbudget)
                                 (Keywords srqmsg) in
      forward_loop (send g peer (GpSearchRequest srq)) srqmsg budget npeers
                   rest' residual
  end.

(** The tail of [processSearchRequest], "send search request further";
    [budget % len(g.peers)] panics when there is no peer. *)
Definition forwardSearchRequest (g : Gossiper) (srqmsg : SearchRequest)
  (budget : Z) : option Gossiper :=
  if decide (len (peers g) = 0) then None
  else
    let residual := Z.rem budget (len (peers g)) in
    Some (forward_loop g srqmsg budget (len (peers g)) (peers g) residual).

(** [func (g *Gossiper) processSearchRequest(srqmsg *SearchRequest)] *)
Definition processSearchRequest (g : Gossiper) (srqmsg : SearchRequest)
  : option Gossiper :=
  let gossiperName := name g in
  let budget := int64 (Budget srqmsg) in
  if decide (SrqOrigin srqmsg ≠ gossiperName) then
    let sharedMatchedFiles :=
      SharedFilesManager_GetSearchResults (Keywords srqmsg) in
    let downloadedMatchedFiles :=
      DownloadingFilesManager_GetSearchResults (Keywords srqmsg) in
    let matchedFiles := sharedMatchedFiles ++ downloadedMatchedFiles in
    let g :=
      if decide (len matchedFiles > 0) then
        sendPacketWithNextHop g (SrqOrigin srqmsg)
          (GpSearchReply (mkSearchReply gossiperName (SrqOrigin srqmsg)
                                        DefaultHopLimit matchedFiles))
      else g in
    let budget := int64 (budget - 1) in
    if decide (budget <= 0) then Some g
    else forwardSearchRequest g srqmsg budget
  else forwardSearchRequest g srqmsg budget.

(** *** The search goroutine

    The local state of [startFileSearchingGoroutine] between two rounds of
    its [select]. *)
Record SearchTask := mkSearchTask {
  stKeywords : list string;
  stBudget : Z;
  stMaxAllowedBudget : Z
}.

(** The prologue of [startFileSearchingGoroutine(keywords, budget, ch)]. *)
Definition startFileSearchingGoroutine (keywords : list string) (budget : Z)
  : SearchTask :=
  let maxAllowedBudget := FileSearchMaxBudget in
  if decide (budget = 0)
  then mkSearchTask keywords FileSearchStartBudget maxAllowedBudget
  else mkSearchTask keywords budget budget.

(** What the branch [case <-ticker.C] decides to do. *)
Inductive TickAction :=
  | TickShutdown
  | TickLinger
  | TickSend (searchRequest : SearchRequest).

(** The branch [case <-ticker.C], without its effects on the gossiper: the
    action and the local state afterwards. *)
Definition tickControl (gossiperName : string) (t : SearchTask)
  : TickAction * SearchTask :=
  if decide (stBudget t > stMaxAllowedBudget t) then
    if decide (stBudget t > int64 (stMaxAllowedBudget t + 1)) then
      (TickShutdown, t)
    else
      (TickLinger,
       mkSearchTask (stKeywords t) (int64 (stBudget t + 1)) (stMaxAllowedBudget t))
  else
    (TickSend (mkSearchRequest gossiperName (uint64 (stBudget t)) (stKeywords t)),
     mkSearchTask (stKeywords t) (int64 (stBudget t + 1)) (stMaxAllowedBudget t)).

(** A method call on [g.currentSearchRequest]; on [nil] it panics. *)
Definition withCurrentSearchRequest (g : Gossiper)
  (f : CurrentSearchRequest -> CurrentSearchRequest) : option Gossiper :=
  csr ← currentSearchRequest g;
  Some (mkGossiper (name g) (peers g) (nextHop g) (messageStorage g)
          (Some (f csr)) (statusesChannels g) (peerMessagesToSend g)
          (mongeringThreads g)).

(** The branch [case <-ticker.C]: the gossiper afterwards and the local
    state, [None] once the goroutine has returned. *)
Definition onTick (g : Gossiper) (t : SearchTask)
  : option (Gossiper * option SearchTask) :=
  match tickControl (name g) t with
  | (TickShutdown, _) =>
      g ← withCurrentSearchRequest g Shutdown; Some (g, None)
  | (TickLinger, t') => Some (g, Some t')
  | (TickSend searchRequest, t') =>
      g ← processSearchRequest g searchRequest; Some (g, Some t')
  end.

(** The loop over the results of a reply. *)
Fixpoint addFullMatches (csr : CurrentSearchRequest) (origin : string)
  (results : list SearchResult) : CurrentSearchRequest :=
  match results with
  | [] => csr
  | res :: results' =>
      if isFullMatch res then
        match GetTypeStrictHash (SrMetafileHash res) with
        | None => addFullMatches csr origin results'
        | Some metahash =>
            addFullMatches
              (AddFullMatch csr (mkFullSearchMatch origin (FileName res) metahash))
              origin results'
        end
      else addFullMatches csr origin results'
  end.

(** The branch [case dataReplyPacket := <-ch]. *)
Definition onReply (g : Gossiper) (t : SearchTask) (dataReplyPacket : SearchReply)
  : option (Gossiper * option SearchTask) :=
  g ← withCurrentSearchRequest g
        (fun csr => addFullMatches csr (SrpOrigin dataReplyPacket)
                                   (Results dataReplyPacket));
  csr ← currentSearchRequest g;
  if decide (GetFullMatchesNumber csr >= FileSearchFullMatchesThreshold) then
    g ← withCurrentSearchRequest g Shutdown; Some (g, None)
  else Some (g, Some t).

(** [func (g *Gossiper) processClientSearchRequest(csrqmsg *ClientToSearchMessage)]
    for a request with the given keywords and budget: the gossiper
    afterwards and the goroutine it starts, if any. *)
Definition processClientSearchRequest (g : Gossiper) (keywords : list string)
  (budget : Z) : Gossiper * option SearchTask :=
  match currentSearchRequest g with
  | Some csr =>
      if isAlive csr then (g, None)
      else
        (mkGossiper (name g) (peers g) (nextHop g) (messageStorage g)
           (Some InitCurrentSearchRequest) (statusesChannels g)
           (peerMessagesToSend g) (mongeringThreads g),
         Some (startFileSearchingGoroutine keywords (int64 budget)))
  | None =>
      (mkGossiper (name g) (peers g) (nextHop g) (messageStorage g)
         (Some InitCurrentSearchRequest) (statusesChannels g)
         (peerMessagesToSend g) (mongeringThreads g),
       Some (startFileSearchingGoroutine keywords (int64 budget)))
  end.

(** The action of the [k]-th tick (counted from 0) of a goroutine that is
    in state [t], as long as it runs. *)
Fixpoint nthTick (gossiperName : string) (k : nat) (t : SearchTask) : TickAction :=
  match k with
  | O => fst (tickControl gossiperName t)
  | S k' =>
      match tickControl gossiperName t with
      | (TickShutdown, _) => TickShutdown
      | (_, t') => nthTick gossiperName k' t'
      end
  end.

End Gossiper.

Arguments Gossiper : clear implicits.

(** Modelled from the spec: the message storage is not part of the sources
    at hand.  Per origin the store keeps the rumors with ids 1, 2, ... in
    order; a rumor is new when its id is the next one of its origin, and
    only then is it admitted; the status gives, per origin, the next id. *)
Module MessageStorage.

Abbreviation t := (gmap string (list RumorMessage)).

(** Modelled from the spec: [GetNextMessageId], the next id of an origin. *)
Definition GetNextMessageId (ms : t) (origin : string) : Z :=
  len (ms !!! origin) + 1.

(** Modelled from the spec: [IsNewMessage], the rumor carries the next id
    of its origin. *)
Definition IsNewMessage (ms : t) (rmsg : RumorMessage) : bool :=
  bool_decide (ID rmsg = GetNextMessageId ms (OriginalName rmsg)).

(** Modelled from the spec: [AddRumorMessage], a new rumor is admitted,
    another one is discarded. *)
Definition AddRumorMessage (ms : t) (rmsg : RumorMessage) : t * bool :=
  if IsNewMessage ms rmsg
  then (<[OriginalName rmsg := ms !!! OriginalName rmsg ++ [rmsg]]> ms, true)
  else (ms, false).

(** Modelled from the spec: [GetCurrentStatusPacket], the vector clock. *)
Definition GetCurrentStatusPacket (ms : t) : StatusPacket :=
  mkStatusPacket
    (map (fun p => mkPeerStatus p.1 (len p.2 + 1)) (map_to_list ms)).

End MessageStorage.

(** ** More of the sources

    The functions below complete the files of the functions above. *)

(** [func (sf *sharedFile) chunkBelongsToFile(chunkHash [32]byte) bool] *)
Definition chunkBelongsToFile (sf : sharedFile) (chunkHash : bytes) : bool :=
  bool_decide (chunkHash ∈ MetaSet sf).

(** [func (df *DownloadingFile) fileHasDownloadedChunk(hashValue [32]byte) bool] *)
Definition fileHasDownloadedChunk (df : DownloadingFile) (hashValue : bytes) : bool :=
  match Metafile df with
  | None => false
  | Some _ =>
      let isCorrectChunk := bool_decide (hashValue ∈ ChunksHashesSet df) in
      let isNotDownloaded := bool_decide (hashValue ∈ ChunksToDownload df) in
      bool_decide (DfMetaHash df = hashValue)
      || (isCorrectChunk && negb isNotDownloaded)
  end.

(** [func (df *DownloadingFile) getChunkOrMetafile(hashValue [32]byte) []byte];
    [None] is the [nil] slice.  [readChunk] stands for the disk: the
    contents of the chunk file of a hash in the directory of the download,
    [None] when the file is missing or cannot be read. *)
Definition getChunkOrMetafile (readChunk : bytes -> option bytes)
  (df : DownloadingFile) (hashValue : bytes) : option bytes :=
  if decide (hashValue = DfMetaHash df) then Metafile df
  else if fileHasDownloadedChunk df hashValue then readChunk hashValue
  else None.

(** [func (df *DownloadingFile) getDataRequest() []byte]: the first key that
    the [range] over the map [ChunksToDownload] yields, [None] ([nil]) for
    an empty map.  The order of a [range] over a map is not specified; [pick]
    is the choice it makes. *)
Definition getDataRequest (pick : nat) (df : DownloadingFile) : option bytes :=
  let keys := elements (ChunksToDownload df) in
  keys !! (pick mod length keys)%nat.

Record BlockPublish := mkBlockPublish {
  BpBlock : Block;
  BpHopLimit : Z
}.

Section Publishing.

Context {MessageStorage : Type}.

(** [func (g *Gossiper) sendAllPeers(gp *GossipPacket)], as the packets put
    on the channel to the peer writer, one per peer in the order of the
    peers.  It serves below for the variants [TxPublish] and [BlockPublish]
    of the packet, which are returned instead of being appended to
    [peerMessagesToSend]. *)
Definition sendAllPeers {A : Type} (g : Gossiper MessageStorage) (gp : A)
  : list (string * A) :=
  map (fun p => (p, gp)) (peers g).

(** [func (g *Gossiper) processTxPublish(tx *TxPublish)]: the blockchain
    manager afterwards and the packets sent.

    Modelled from the spec: the exported [AddTransaction] that the gossiper
    calls is not in the sources at hand; it submits the transaction to the
    blockchain, which is [addTransaction] under the lock of the manager. *)
Definition processTxPublish (g : Gossiper MessageStorage)
  (bm : BlockchainManager) (tx : TxPublish)
  : BlockchainManager * list (string * TxPublish) :=
  let '(bm, isNew) := addTransaction bm tx in
  if isNew then
    if decide (TxHopLimit tx <= 0) then (bm, [])
    else (bm, sendAllPeers g (mkTxPublish (TxFile tx) (uint32 (TxHopLimit tx - 1))))
  else (bm, []).

(** [func (g *Gossiper) processBlockPublish(bp *BlockPublish)], for the
    proof-of-work constant [K].

    Modelled from the spec: the exported [AddBlock] that the gossiper calls
    is not in the sources at hand; it submits the block to the blockchain,
    which is [addBlock] under the lock of the manager. *)
Definition processBlockPublish (K : Z) (g : Gossiper MessageStorage)
  (bm : BlockchainManager) (bp : BlockPublish)
  : option (BlockchainManager * list (string * BlockPublish)) :=
  match addBlock K bm (BpBlock bp) with
  | None => None
  | Some (bm, isNew) =>
      if isNew then
        if decide (BpHopLimit bp <= 0) then Some (bm, [])
        else Some (bm, sendAllPeers g
                         (mkBlockPublish (BpBlock bp)
                                         (uint32 (BpHopLimit bp - 1))))
      else Some (bm, [])
  end.

(** The searches of the files managers and the hop limit, as for
    [processSearchRequest]; the key of a search request in the set of the
    recently answered ones ([utils.GetRecentSearchRequestSetKey], a file
    that is not part of the sources at hand). *)
Variable SharedFilesManager_GetSearchResults : list string -> list SearchResult.
Variable DownloadingFilesManager_GetSearchResults : list string -> list SearchResult.
Variable DefaultHopLimit : Z.
Variable GetRecentSearchRequestSetKey : string -> list string -> string.

(** [func (g *Gossiper) processAddressedSearchRequest(srqmsg *SearchRequest, address *UDPAddr)]:
    the set [g.recentSearchRequests] and the gossiper afterwards. *)
Definition processAddressedSearchRequest (recentSearchRequests : gset string)
  (g : Gossiper MessageStorage) (srqmsg : SearchRequest)
  : option (gset string * Gossiper MessageStorage) :=
  let setkey := GetRecentSearchRequestSetKey (SrqOrigin srqmsg) (Keywords srqmsg) in
  if decide (setkey ∈ recentSearchRequests) then Some (recentSearchRequests, g)
  else
    let recentSearchRequests := {[ setkey ]} ∪ recentSearchRequests in
    g ← processSearchRequest SharedFilesManager_GetSearchResults
          DownloadingFilesManager_GetSearchResults DefaultHopLimit g srqmsg;
    Some (recentSearchRequests, g).

(** The goroutine that [processAddressedSearchRequest] starts for a key:
    after [RecentSearchRequestTimeout] it deletes the key from the set. *)
Definition searchRequestTimeout (recentSearchRequests : gset string)
  (setkey : string) : gset string :=
  recentSearchRequests ∖ {[ setkey ]}.

End Publishing.

(** ** More of models/filesearching/CurrentSearchRequest.go *)

(** [func (csr *CurrentSearchRequest) IsAlive() bool] *)
Definition IsAlive (csr : CurrentSearchRequest) : bool := isAlive csr.

(** [func (csr *CurrentSearchRequest) ForwardSearchReply(srp *SearchReply)]:
    the reply put on the channel of the search goroutine, [None] when it is
    dropped. *)
Definition ForwardSearchReply (csr : CurrentSearchRequest) (srp : SearchReply)
  : option SearchReply :=
  if negb (isAlive csr) then None else Some srp.

(** [func (csr *CurrentSearchRequest) GetFullMatches() []string] *)
Definition GetFullMatches (csr : CurrentSearchRequest) : list string :=
  map FsmFilename (fullMatches csr).

(** ** More of the gossiper: search replies and mongering sessions *)

Section Sessions.

Context {MessageStorage : Type}.

(** [func (g *Gossiper) processAddressedSearchReply(srpmsg *SearchReply, address *UDPAddr)]:
    the gossiper afterwards and the reply handed to the search goroutine,
    if any. *)
Definition processAddressedSearchReply (g : Gossiper MessageStorage)
  (srpmsg : SearchReply) : Gossiper MessageStorage * option SearchReply :=
  let gossiperName := name g in
  if decide (SrpDestination srpmsg ≠ gossiperName) then
    if decide (SrpHopLimit srpmsg <= 0) then (g, None)
    else
      let srpmsg := mkSearchReply (SrpOrigin srpmsg) (SrpDestination srpmsg)
                      (uint32 (SrpHopLimit srpmsg - 1)) (Results srpmsg) in
      (sendPacketWithNextHop g (SrpDestination srpmsg) (GpSearchReply srpmsg),
       None)
  else
    match currentSearchRequest g with
    | None => (g, None)
    | Some csr =>
        if negb (IsAlive csr) then (g, None)
        else (g, ForwardSearchReply csr srpmsg)
    end.

(** The message storage stays abstract, as above: [Diff] compares it with
    a status packet (a rumor the other side lacks, if any, and whether the
    other side has something new). *)
Variable Diff : MessageStorage -> StatusPacket -> option RumorMessage * bool.
Variable GetCurrentStatusPacket : MessageStorage -> StatusPacket.

(** [delete(statusesChannels, peer.String())] *)
Definition deleteStatusesChannel (g : Gossiper MessageStorage) (peer : string)
  : Gossiper MessageStorage :=
  mkGossiper (name g) (peers g) (nextHop g) (messageStorage g)
    (currentSearchRequest g) (statusesChannels g ∖ {[ peer ]})
    (peerMessagesToSend g) (mongeringThreads g).

(** [func (g *Gossiper) processAddressedStatusPacket(sp *StatusPacket, address *UDPAddr)]:
    the gossiper afterwards and the status packet handed to the mongering
    goroutine of [address], if any. *)
Definition processAddressedStatusPacket (g : Gossiper MessageStorage)
  (sp : StatusPacket) (address : string) (rnd : Z)
  : option (Gossiper MessageStorage * option StatusPacket) :=
  if decide (address ∈ statusesChannels g) then
    Some (deleteStatusesChannel g address, Some sp)
  else
    match Diff (messageStorage g) sp with
    | (Some rmsg, _) =>
        g ← spreadTheRumor g rmsg (Some address) rnd; Some (g, None)
    | (None, true) =>
        Some (send g address
                (GpStatus (GetCurrentStatusPacket (messageStorage g))), None)
    | (None, false) => Some (g, None)
    end.

(** [func (g *Gossiper) flipRumorMongeringCoin(messageBeingRumored *RumorMessage)];
    [coin] is the draw of [rand.Int()], [rnd] the one of [getRandomPeer]. *)
Definition flipRumorMongeringCoin (g : Gossiper MessageStorage)
  (messageBeingRumored : RumorMessage) (coin rnd : Z)
  : option (Gossiper MessageStorage) :=
  if decide (Z.rem coin 2 = 0) then
    peer ← getRandomPeer g rnd;
    spreadTheRumor g messageBeingRumored (Some peer) rnd
  else Some g.

(** [func (g *Gossiper) startRumorMongeringThread(messageBeingRumored, ch, peer)],
    the branch [case <-ticker.C]. *)
Definition mongeringTimeout (g : Gossiper MessageStorage)
  (messageBeingRumored : RumorMessage) (peer : string) (coin rnd : Z)
  : option (Gossiper MessageStorage) :=
  flipRumorMongeringCoin (deleteStatusesChannel g peer) messageBeingRumored
    coin rnd.

(** The branch [case statusPacket := <-ch]. *)
Definition mongeringStatus (g : Gossiper MessageStorage)
  (messageBeingRumored : RumorMessage) (peer : string)
  (statusPacket : StatusPacket) (coin rnd : Z)
  : option (Gossiper MessageStorage) :=
  match Diff (messageStorage g) statusPacket with
  | (Some rmsg, _) => spreadTheRumor g rmsg (Some peer) rnd
  | (None, true) =>
      Some (send g peer (GpStatus (GetCurrentStatusPacket (messageStorage g))))
  | (None, false) => flipRumorMongeringCoin g messageBeingRumored coin rnd
  end.

End Sessions.

(** * Specification-side definitions

    The formulas of the specification, to be compared with the functions
    above. *)

(** [LE-u32(n)] *)
Definition LE_u32 (n : Z) : bytes := le_bytes 4 n.

(** Transaction hash = [SHA256(LE-u32(len(name)) || name || metafile_hash)]. *)
Definition spec_tx_hash (t : TxPublish) : bytes :=
  SHA256.Sum256 (LE_u32 (len (bytes_of_string (Name (TxFile t))))
                 ++ bytes_of_string (Name (TxFile t))
                 ++ MetafileHash (TxFile t)).

(** Block hash =
    [SHA256(prev_hash || nonce || LE-u32(len(tx)) || concat(hash(tx_i)))]. *)
Definition spec_block_hash (b : Block) : bytes :=
  SHA256.Sum256 (PrevHash b ++ Nonce b ++ LE_u32 (len (Transactions b))
                 ++ concat (map spec_tx_hash (Transactions b))).

(** Block validity = the first [K] bytes of the block hash are zero. *)
Definition spec_block_valid (K : Z) (b : Block) : Prop :=
  forall i : nat, (Z.of_nat i < K) -> spec_block_hash b !! i = Some 0.

(** The blocks of the main chain, from a node down to the genesis (which
    holds no block). *)
Fixpoint main_chain (n : blockNode) : list blockNode :=
  match n with
  | FakeBlockNode => []
  | BlockNode _ p _ _ => n :: main_chain p
  end.

(** A transaction set reserves a filename. *)
Definition reserves (s : gset File) (name : string) : Prop :=
  exists f, f ∈ s /\ Name f = name.

(** [kw] is a substring of [s]. *)
Definition substring (kw s : string) : Prop :=
  exists pre post : string, s = (pre ++ kw ++ post)%string.

(** Some part of [s] is in the language of [r]. *)
Definition has_match (r : Regexp.re) (s : string) : Prop :=
  exists pre mid post : list ascii,
    list_ascii_of_string s = pre ++ mid ++ post /\ Regexp.lang r mid.

(** A character that stands for itself in a pattern, and a keyword made of
    such characters. *)
Definition plain_char (c : ascii) : bool :=
  Regexp.is_ascii c && negb (Regexp.is_other_meta c)
  && negb (Regexp.is_rep c) && negb (Ascii.eqb c ".").

Definition plain (kw : string) : Prop :=
  forallb plain_char (list_ascii_of_string kw) = true.

(** The keywords and names that the model of [regexp] covers: a keyword of
    ASCII characters without any of [\ ( ) | [ ] { } ^ $], so that it is
    made of literal characters, [.], [*], [+] and [?]; a name of ASCII
    characters. *)
Definition in_scope (kw : string) : Prop :=
  Regexp.in_fragment (list_ascii_of_string kw) = true.

Definition ascii_name (s : string) : Prop :=
  forallb Regexp.is_ascii (list_ascii_of_string s) = true.

(** The pattern that [getSearchResults] compiles for a keyword. *)
Definition pattern_of (kw : string) : list ascii :=
  list_ascii_of_string (".*" ++ kw ++ ".*").

(** The matching rule as the specification words it: the file is reported
    exactly when some keyword is a substring of its name. *)
Definition reported_iff_substring (sf : sharedFile) (keywords : list string) : Prop :=
  forall results,
    getSearchResults sf keywords = Some results ->
    (results ≠ [] <-> exists kw, kw ∈ keywords /\ substring kw (SfName sf)).

(** The expanding ring as the specification words it: with no budget
    given, the [k]-th tick sends the start budget doubled [k] times, as long
    as that does not exceed the maximum. *)
Definition budget_doubles (FileSearchStartBudget FileSearchMaxBudget : Z) : Prop :=
  forall (gossiperName : string) (keywords : list string) (k : nat),
    FileSearchStartBudget * 2 ^ Z.of_nat k <= FileSearchMaxBudget ->
    nthTick gossiperName k
      (startFileSearchingGoroutine FileSearchStartBudget FileSearchMaxBudget
                                   keywords 0)
    = TickSend (mkSearchRequest gossiperName
                  (FileSearchStartBudget * 2 ^ Z.of_nat k) keywords).

(** The share of the [i]-th peer when a budget [B] is split among [P]
    peers: the quotient, and one more for the first [B mod P] peers. *)
Definition share (B P : Z) (i : nat) : Z :=
  B / P + (if decide (Z.of_nat i < B mod P) then 1 else 0).

(** The requests that forward [srqmsg] with budget [B] to the peers. *)
Definition forwarded_requests (srqmsg : SearchRequest) (B : Z)
  (peers : list string) : list (string * GossipPacket) :=
  imap (fun i peer =>
          (peer, GpSearchRequest
                   (mkSearchRequest (SrqOrigin srqmsg) (share B (len peers) i)
                                    (Keywords srqmsg))))
       peers.

(** No search request with budget 0 is among the packets. *)
Definition no_zero_budget (packets : list (string * GossipPacket)) : Prop :=
  forall peer srq, (peer, GpSearchRequest srq) ∈ packets -> Budget srq ≠ 0.

(** The forwarding rule as the specification words it: a peer whose share
    is 0 is not sent to. *)
Definition forwarding_skips_zero_shares {MessageStorage : Type}
  (shared downloaded : list string -> list SearchResult) (DefaultHopLimit : Z)
  (g : Gossiper MessageStorage) (srqmsg : SearchRequest) : Prop :=
  forall g',
    processSearchRequest shared downloaded DefaultHopLimit g srqmsg = Some g' ->
    no_zero_budget (peerMessagesToSend g').

(** The mongering rule as the specification words it: a rumor from a peer
    that is admitted as new starts a session toward a peer other than its
    source, whenever another peer is known. *)
Definition mongering_avoids_source {MessageStorage : Type}
  (GetCurrentStatusPacket : MessageStorage -> StatusPacket)
  (IsNewMessage : MessageStorage -> RumorMessage -> bool)
  (AddRumorMessage : MessageStorage -> RumorMessage -> MessageStorage * bool)
  (g : Gossiper MessageStorage) (rmsg : RumorMessage) (address : string)
  (rnd : Z) : Prop :=
  (AddRumorMessage (messageStorage g) rmsg).2 = true ->
  (exists p, p ∈ peers (UpdatePeersIfNeeded g address) /\ p ≠ address) ->
  exists g' p,
    processAddressedGossipPacket_Rumor GetCurrentStatusPacket IsNewMessage
      AddRumorMessage g rmsg address rnd = Some g'
    /\ p ≠ address
    /\ mongeringThreads g' = mongeringThreads g ++ [(rmsg, p)].

(** The nodes on the path from [cur] up to [lsa], [lsa] left out. *)
Fixpoint branch (cur lsa : blockNode) : list blockNode :=
  if decide (cur = lsa) then []
  else match cur with
       | FakeBlockNode => []
       | BlockNode _ p _ _ => cur :: branch p lsa
       end.

(** The transactions of the blocks of a list of nodes. *)
Definition txs_of (nodes : list blockNode) : gset File :=
  ⋃ (txSet <$> nodes).

(** What the tree keeps for an entry of the map [blocks]: the genesis, or
    the node of a block with a valid proof of work, stored under the hash
    of the block, whose parent is what the map holds for [PrevHash], one
    level above, and whose transaction set is that of the block. *)
Definition stored_ok (K : Z) (blocks : gmap bytes blockNode) (h : bytes)
  (n : blockNode) : Prop :=
  match n with
  | FakeBlockNode => True
  | BlockNode b p d s =>
      h = Block_Hash b /\ IsGood K b = Some true
      /\ blocks !! PrevHash b = Some p /\ d = depth p + 1
      /\ s = TransactionsSet.ofSlice (Transactions b)
  end.

(** The tree is well formed: the tail is stored under the hash of its
    block, and every entry is as [stored_ok] says. *)
Definition tree_ok (K : Z) (bm : BlockchainManager) : Prop :=
  blocks bm !! node_block_Hash (tail bm) = Some (tail bm)
  /\ forall h n, blocks bm !! h = Some n -> stored_ok K (blocks bm) h n.

(** No two transactions of the set carry the same filename. *)
Definition unique_names (s : gset File) : Prop :=
  forall f1 f2, f1 ∈ s -> f2 ∈ s -> Name f1 = Name f2 -> f1 = f2.

(** Pending is consistent with the main chain: its filenames are unique
    and none of them is reserved by a block of the main chain. *)
Definition pending_ok (bm : BlockchainManager) : Prop :=
  unique_names (pendingTx bm)
  /\ forall f n, f ∈ pendingTx bm -> n ∈ main_chain (tail bm) ->
                 ~ reserves (txSet n) (Name f).

(** The three conditions under which [addBlock] accepts. *)
Definition acceptable (K : Z) (bm : BlockchainManager) (b : Block) : Prop :=
  blocks bm !! Block_Hash b = None
  /\ is_Some (blocks bm !! PrevHash b)
  /\ IsGood K b = Some true.

(** Two transactions with the same filename and the same metafile hash. *)
Definition same_name_and_metafile (t1 t2 : TxPublish) : Prop :=
  Name (TxFile t1) = Name (TxFile t2)
  /\ MetafileHash (TxFile t1) = MetafileHash (TxFile t2).

(** The chunks cut a file in pieces of [c] bytes, the last one possibly
    shorter, none empty. *)
Definition cuts_in_chunks (c : Z) (fileBytes : bytes) (chunks : list bytes)
  : Prop :=
  concat chunks = fileBytes
  /\ Forall (fun ch => 0 < len ch <= c) chunks
  /\ (forall k ch, chunks !! k = Some ch -> (S k < length chunks)%nat ->
                   len ch = c)
  /\ len chunks = (len fileBytes + c - 1) / c.

(** The record of a download is consistent: before the metafile has come
    nothing is known of the chunks; afterwards the slice of the hashes is
    the metafile cut in pieces of 32 bytes, the set holds the same hashes
    and the hashes still to download are among them. *)
Definition download_ok (df : DownloadingFile) : Prop :=
  match Metafile df with
  | None =>
      ChunksHashesSlice df = [] /\ ChunksHashesSet df = ∅
      /\ ChunksToDownload df = ∅
  | Some metafile =>
      concat (ChunksHashesSlice df) = metafile
      /\ Forall (fun h => length h = 32%nat) (ChunksHashesSlice df)
      /\ ChunksHashesSet df = list_to_set (ChunksHashesSlice df)
      /\ ChunksToDownload df ⊆ ChunksHashesSet df
  end.

(** The key by which [AddFullMatch] tells matches apart. *)
Definition match_key (m : FullSearchMatch) : string * bytes :=
  (FsmOrigin m, FsmMetafileHash m).

(** No two full matches of a search have the same origin and metafile
    hash. *)
Definition distinct_matches (csr : CurrentSearchRequest) : Prop :=
  NoDup (map match_key (fullMatches csr)).

(** The full match that a search result of a reply stands for: a result
    that has all its chunks and a hash of 32 bytes. *)
Definition counted_as (origin : string) (res : SearchResult)
  (m : FullSearchMatch) : Prop :=
  isFullMatch res = true
  /\ length (SrMetafileHash res) = 32%nat
  /\ m = mkFullSearchMatch origin (FileName res) (SrMetafileHash res).

(** The sum of the budgets of the search requests among some packets. *)
Definition total_budget (packets : list (string * GossipPacket)) : Z :=
  foldr (fun m acc =>
           match m.2 with
           | GpSearchRequest srq => Budget srq + acc
           | _ => acc
           end) 0 packets.

(** A filename is taken: a pending transaction or a block of the main
    chain reserves it. *)
Definition name_taken (bm : BlockchainManager) (name : string) : Prop :=
  reserves (pendingTx bm) name
  \/ exists n, n ∈ main_chain (tail bm) /\ reserves (txSet n) name.

(** The block falls in the last case of [addBlock]: its parent is known, is
    not the tail, and is not below the depth of the tail. *)
Definition wins_fork (bm : BlockchainManager) (b : Block) : Prop :=
  exists parentNode,
    blocks bm !! PrevHash b = Some parentNode
    /\ PrevHash b ≠ node_block_Hash (tail bm)
    /\ ~ depth parentNode < depth (tail bm).

(** One call of [addTransaction] or of [addBlock] on the manager, for the
    proof-of-work constant [K]. *)
Inductive manager_step (K : Z) : BlockchainManager -> BlockchainManager -> Prop :=
  | step_transaction bm tx :
      manager_step K bm (addTransaction bm tx).1
  | step_block bm b bm' ok :
      addBlock K bm b = Some (bm', ok) -> manager_step K bm bm'.

(** The same, leaving out the blocks that win a fork. *)
Inductive quiet_step (K : Z) : BlockchainManager -> BlockchainManager -> Prop :=
  | quiet_transaction bm tx :
      quiet_step K bm (addTransaction bm tx).1
  | quiet_block bm b bm' ok :
      addBlock K bm b = Some (bm', ok) -> ~ wins_fork bm b ->
      quiet_step K bm bm'.

(** * Example data

    Three transactions and three blocks whose nonces give a hash with two
    leading zero bytes: [blockA] and [blockB] on the genesis, [blockC] on
    [blockB]. *)

Definition tx_a : TxPublish := mkTxPublish (mkFile "a.txt" 1 (replicate 32 1)) 10.
Definition tx_b : TxPublish := mkTxPublish (mkFile "b.txt" 2 (replicate 32 2)) 10.
Definition tx_c : TxPublish := mkTxPublish (mkFile "c.txt" 3 (replicate 32 3)) 10.

Definition blockA : Block :=
  mkBlock (replicate 32 0) (replicate 28 0 ++ [0; 0; 60; 243]) [tx_a].
Definition blockB : Block :=
  mkBlock (replicate 32 0) (replicate 28 0 ++ [0; 1; 124; 13]) [tx_b].
Definition blockC : Block :=
  mkBlock (Block_Hash blockB) (replicate 28 0 ++ [0; 4; 76; 227]) [tx_c].

Definition nodeA : blockNode := InitBlockNode FakeBlockNode blockA.
Definition nodeB : blockNode := InitBlockNode FakeBlockNode blockB.
Definition nodeC : blockNode := InitBlockNode nodeB blockC.

(** The blockchain with [blockA] attached to the genesis as the tail and
    nothing pending (as after mining [blockA]), the same with [blockB]
    attached as well, and what [addBlock] makes of the latter on
    [blockC]. *)
Definition chain_A : BlockchainManager :=
  mkBlockchainManager nodeA
    (<[Block_Hash blockA := nodeA]> {[ replicate 32 0 := FakeBlockNode ]}) ∅.

Definition chain_AB : BlockchainManager :=
  mkBlockchainManager nodeA
    (<[Block_Hash blockB := nodeB]> (blocks chain_A)) ∅.

Definition chain_ABC : BlockchainManager :=
  mkBlockchainManager nodeA
    (<[Block_Hash blockC := nodeC]> (blocks chain_AB)) {[ TxFile tx_a ]}.

(** A file of two identical chunks, for a chunk size of 4 bytes, and a
    record of a download that waits for its metafile. *)
Definition twin_file : bytes := [1; 2; 3; 4; 1; 2; 3; 4].

Definition twin_shared : sharedFile :=
  let sf := hash_chunks (split_chunks 4 twin_file)
                        (mkSharedFile "abc.txt" (len twin_file) [] [] ∅) in
  mkSharedFile (SfName sf) (SfSize sf) (SHA256.Sum256 (MetaSlice sf))
               (MetaSlice sf) (MetaSet sf).

Definition waiting_download : DownloadingFile :=
  InitDownloadingFile "f" (replicate 32 7).

Definition forged_reply : DataReply :=
  mkDataReply "D" "E" 10 (replicate 32 7) [1; 2; 3].

(** A gossiper named [me] with two peers, one with none, a first rumor of
    origin [X], and a search request of origin [X] with budget 2. *)
Definition two_peers : Gossiper MessageStorage.t :=
  mkGossiper "me" ["10.0.0.1:5000"; "10.0.0.2:5000"]%string ∅ ∅ None ∅ [] [].

Definition lonely : Gossiper MessageStorage.t :=
  mkGossiper "me" [] ∅ ∅ None ∅ [] [].

Definition rumor_X1 : RumorMessage := mkRumorMessage "X" 1 "hi".

Definition request_X : SearchRequest := mkSearchRequest "X" 2 ["a"%string].

Definition no_files (keywords : list string) : list SearchResult := [].

(** [blockA] with another size and another hop limit in its transaction. *)
Definition blockA_resized : Block :=
  mkBlock (PrevHash blockA) (Nonce blockA)
          [mkTxPublish (mkFile "a.txt" 1000 (replicate 32 1)) 0].

(** Modelled from the spec: the key of a search request in the set of the
    recently answered ones, the origin, a comma, and the keywords joined by
    commas. *)
Definition comma_key (origin : string) (keywords : list string) : string :=
  (origin ++ "," ++ String.concat "," keywords)%string.


(** [two_peers] after it has forwarded [request_X], with budget 1, to its
    peers. *)
Definition two_peers_asked : Gossiper MessageStorage.t :=
  mkGossiper "me" (peers two_peers) ∅ ∅ None ∅
    (forwarded_requests request_X 1 (peers two_peers)) [].

(** The download of the file shared as [twin_shared], once its metafile has
    come: one chunk hash, twice in the slice, is to download. *)
Definition twin_download : DownloadingFile :=
  (ProcessDataReply (InitDownloadingFile "copy.txt" (MetaHash twin_shared))
     (mkDataReply "X" "me" 10 (MetaHash twin_shared) (MetaSlice twin_shared))).1.

(** The reply that carries the chunk of [twin_file]. *)
Definition twin_chunk_reply : DataReply :=
  mkDataReply "X" "me" 10 (SHA256.Sum256 [1; 2; 3; 4]) [1; 2; 3; 4].

(** A reply whose data hashes to its hash value but is not the metafile
    that [waiting_download] waits for. *)
Definition stray_reply : DataReply :=
  mkDataReply "D" "E" 10 (SHA256.Sum256 [1; 2; 3]) [1; 2; 3].

(** A disk without any chunk file. *)
Definition no_chunk_files (hashValue : bytes) : option bytes := None.

(** A search in progress without a match so far, at the gossiper
    [two_peers]; a reply for it with one full match (two chunks of two) and
    one partial match (one chunk of two). *)
Definition two_peers_searching : Gossiper MessageStorage.t :=
  mkGossiper "me" (peers two_peers) ∅ ∅ (Some InitCurrentSearchRequest) ∅ [] [].

Definition reply_from_X : SearchReply :=
  mkSearchReply "X" "me" 10
    [mkSearchResult "full.txt" (replicate 32 1) [1; 2] 2;
     mkSearchResult "part.txt" (replicate 32 2) [1] 2].

(** The first peer of [two_peers]. *)
Definition first_peer : string := "10.0.0.1:5000".

(** A fourth transaction and a block with it on [blockA], with two leading
    zero bytes in its hash; the chain [chain_A] with this transaction and
    [tx_b] pending, and what [addBlock] makes of it on [blockD]. *)
Definition tx_d : TxPublish := mkTxPublish (mkFile "d.txt" 4 (replicate 32 4)) 10.

Definition blockD : Block :=
  mkBlock (Block_Hash blockA) (replicate 28 0 ++ [0; 0; 194; 149]) [tx_d].

Definition nodeD : blockNode := InitBlockNode nodeA blockD.

Definition chain_A_pending : BlockchainManager :=
  mkBlockchainManager nodeA (blocks chain_A) {[ TxFile tx_d; TxFile tx_b ]}.

Definition chain_AD : BlockchainManager :=
  mkBlockchainManager nodeD
    (<[Block_Hash blockD := nodeD]> (blocks chain_A)) {[ TxFile tx_b ]}.
(** * Properties *)

(** ** SHA-256 returns 32 bytes *)

Lemma be_bytes_length n x : length (SHA256.be_bytes n x) = n.
Proof.
  revert x; induction n as [|n IH]; intros x; simpl; [done|].
  rewrite length_app, IH. simpl. lia.
Qed.

Lemma round_length st kw : length st = 8%nat -> length (SHA256.round st kw) = 8%nat.
Proof.
  intros H. do 9 (destruct st as [|? st]; try discriminate H). reflexivity.
Qed.

Lemma rounds_length kws st :
  length st = 8%nat -> length (fold_left SHA256.round kws st) = 8%nat.
Proof.
  revert st; induction kws as [|kw kws IH]; intros st H; simpl; [done|].
  apply IH, round_length, H.
Qed.

Lemma compress_length h blk :
  length h = 8%nat -> length (SHA256.compress h blk) = 8%nat.
Proof.
  intros H. unfold SHA256.compress.
  rewrite length_map, length_combine, rounds_length by done. lia.
Qed.

Lemma blocks_length n h bs :
  length h = 8%nat -> length (SHA256.blocks n h bs) = 8%nat.
Proof.
  revert h bs; induction n as [|n IH]; intros h bs H; simpl; [done|].
  apply IH, compress_length, H.
Qed.

Lemma flat_map_be_bytes_length ws :
  length (flat_map (SHA256.be_bytes 4) ws) = (4 * length ws)%nat.
Proof.
  induction ws as [|w ws IH]; [done|].
  cbn [flat_map]. rewrite length_app, be_bytes_length, IH. simpl. lia.
Qed.

Lemma Sum256_length msg : length (SHA256.Sum256 msg) = 32%nat.
Proof.
  unfold SHA256.Sum256.
  rewrite flat_map_be_bytes_length, blocks_length; reflexivity.
Qed.

Lemma copy32_Sum256 msg : copy32 (SHA256.Sum256 msg) = SHA256.Sum256 msg.
Proof.
  unfold copy32. rewrite take_app_le by (rewrite Sum256_length; lia).
  apply take_ge. rewrite Sum256_length. lia.
Qed.

(** ** Little-endian encoding only sees the low bytes *)

Lemma le_bytes_mod n x : le_bytes n (x mod 256 ^ Z.of_nat n) = le_bytes n x.
Proof.
  revert x; induction n as [|n IH]; intros x; [done|].
  cbn [le_bytes].
  replace (256 ^ Z.of_nat (S n)) with (256 * 256 ^ Z.of_nat n)
    by (rewrite Nat2Z.inj_succ, Z.pow_succ_r by lia; reflexivity).
  assert (Hp : 0 < 256 ^ Z.of_nat n) by (apply Z.pow_pos_nonneg; lia).
  rewrite Z.rem_mul_r by lia.
  set (q := (x / 256) mod 256 ^ Z.of_nat n).
  replace (x mod 256 + 256 * q) with (x mod 256 + q * 256) by lia.
  f_equal.
  - rewrite Z_mod_plus_full. apply Z.mod_mod. lia.
  - rewrite Z.div_add by lia.
    rewrite Z.div_small by (apply Z.mod_pos_bound; lia).
    apply IH.
Qed.

Lemma LE_u32_uint32 x : le_bytes 4 (uint32 x) = LE_u32 x.
Proof. apply (le_bytes_mod 4 x). Qed.

(** ** The hashes follow the formulas of the specification *)

Lemma TxPublish_Hash_spec t : TxPublish_Hash t = spec_tx_hash t.
Proof.
  unfold TxPublish_Hash, spec_tx_hash, SHA256.Sum, SHA256.Write, SHA256.New.
  rewrite copy32_Sum256, LE_u32_uint32, app_nil_l. by rewrite <- app_assoc.
Qed.

Lemma write_all_tx_hashes txs h :
  fold_left (fun h t => SHA256.Write h (TxPublish_Hash t)) txs h
  = h ++ concat (map spec_tx_hash txs).
Proof.
  revert h; induction txs as [|t txs IH]; intros h; simpl.
  - by rewrite app_nil_r.
  - rewrite IH. unfold SHA256.Write. by rewrite TxPublish_Hash_spec, <- app_assoc.
Qed.

Lemma Block_Hash_spec b : Block_Hash b = spec_block_hash b.
Proof.
  unfold Block_Hash, spec_block_hash, SHA256.Sum.
  rewrite write_all_tx_hashes, copy32_Sum256, LE_u32_uint32.
  unfold SHA256.Write, SHA256.New. by rewrite app_nil_l, <- !app_assoc.
Qed.

Lemma IsGood_loop_spec hash n i :
  (i + n <= length hash)%nat ->
  exists v, IsGood_loop hash n i = Some v
            /\ (v = true <-> forall j : nat, (i <= j < i + n)%nat -> hash !! j = Some 0).
Proof.
  revert i; induction n as [|n IH]; intros i Hlen; simpl.
  - exists true. split; [done|]. split; [|done]. intros _ j Hj. lia.
  - destruct (hash !! i) as [x|] eqn:Hx.
    2:{ apply lookup_ge_None in Hx. lia. }
    destruct (decide (x ≠ 0)) as [Hne|Heq].
    + exists false. split; [done|]. split; [done|].
      intros H. specialize (H i ltac:(lia)). congruence.
    + assert (x = 0) as -> by (destruct (decide (x = 0)); [done|contradiction]).
      destruct (IH (S i) ltac:(lia)) as (v & Hv & Hiff).
      exists v. split; [done|]. rewrite Hiff. split.
      * intros H j Hj. destruct (decide (j = i)) as [->|]; [done|]. apply H. lia.
      * intros H j Hj. apply H. lia.
Qed.

(** C9: the block hash is SHA256(prev_hash || nonce || LE-u32(len(tx)) ||
    concat of the transaction hashes), the transaction hash is
    SHA256(LE-u32(len(name)) || name || metafile_hash), and for a constant
    [K] of at most 32 [IsGood] answers, and answers true exactly when the
    first [K] bytes of the block hash are zero. *)
Theorem hashes_follow_the_formulas (K : Z) (b : Block) (t : TxPublish) :
  K <= 32 ->
  Block_Hash b = spec_block_hash b
  /\ TxPublish_Hash t = spec_tx_hash t
  /\ exists v, IsGood K b = Some v /\ (v = true <-> spec_block_valid K b).
Proof.
  intros HK. split; [apply Block_Hash_spec|]. split; [apply TxPublish_Hash_spec|].
  unfold IsGood, spec_block_valid. rewrite Block_Hash_spec.
  destruct (IsGood_loop_spec (spec_block_hash b) (Z.to_nat K) 0) as (v & Hv & Hiff).
  { unfold spec_block_hash. rewrite Sum256_length. lia. }
  exists v. split; [done|]. rewrite Hiff. split.
  - intros H i Hi. apply H. lia.
  - intros H j Hj. apply H. lia.
Qed.

Lemma hashes_follow_the_formulas_witness :
  2 <= 32
  /\ (Block_Hash blockA = spec_block_hash blockA
      /\ TxPublish_Hash tx_a = spec_tx_hash tx_a
      /\ exists v, IsGood 2 blockA = Some v
                   /\ (v = true <-> spec_block_valid 2 blockA)).
Proof.
  split; [lia|]. apply (hashes_follow_the_formulas 2 blockA tx_a). lia.
Defined.

(** The library function on the test vector "abc" of FIPS 180-4, and the
    hash of the first example block. *)
Example Sum256_abc :
  SHA256.Sum256 (bytes_of_string "abc")
  = [186; 120; 22; 191; 143; 1; 207; 234; 65; 65; 64; 222; 93; 174; 34; 35;
     176; 3; 97; 163; 150; 23; 122; 156; 180; 16; 255; 97; 242; 0; 21; 173].
Proof. vm_compute. reflexivity. Qed.

Example blockA_is_good : IsGood 2 blockA = Some true.
Proof. vm_compute. reflexivity. Qed.

Example SHA256_constants :
  length SHA256.K256 = 64%nat /\ length SHA256.H0 = 8%nat
  /\ head SHA256.K256 = Some 0x428a2f98 /\ last SHA256.K256 = Some 0xc67178f2
  /\ head SHA256.H0 = Some 0x6a09e667 /\ last SHA256.H0 = Some 0x5be0cd19.
Proof. vm_compute. done. Qed.

(** ** The blockchain manager *)

Lemma contains_spec (s : gset File) tx :
  TransactionsSet.contains s tx = true <-> TxFile tx ∈ s.
Proof. unfold TransactionsSet.contains. apply bool_decide_eq_true. Qed.

Lemma containsFilename_spec (s : gset File) name :
  TransactionsSet.containsFilename s name = true <-> reserves s name.
Proof.
  unfold TransactionsSet.containsFilename, reserves, set_Exists.
  apply bool_decide_eq_true.
Qed.

Lemma history_rejects_spec n tx :
  history_rejects n tx = true
  <-> exists m, m ∈ main_chain n
               /\ (TxFile tx ∈ txSet m \/ reserves (txSet m) (Name (TxFile tx))).
Proof.
  induction n as [|b p IH d s]; simpl.
  - split; [done|]. intros (m & Hm & _). by apply elem_of_nil in Hm.
  - destruct (TransactionsSet.contains s tx) eqn:Hc.
    { split; [|done]. intros _. exists (BlockNode b p d s).
      split; [apply list_elem_of_here|]. left. by apply contains_spec. }
    destruct (TransactionsSet.containsFilename s (Name (TxFile tx))) eqn:Hf.
    { split; [|done]. intros _. exists (BlockNode b p d s).
      split; [apply list_elem_of_here|]. right. by apply containsFilename_spec. }
    rewrite IH. split.
    + intros (m & Hm & H). exists m. split; [by apply list_elem_of_further|done].
    + intros (m & Hm & H). apply elem_of_cons in Hm as [->|Hm].
      * simpl in H. destruct H as [H|H].
        -- apply contains_spec in H. congruence.
        -- apply containsFilename_spec in H. congruence.
      * by exists m.
Qed.

(** C7: [addTransaction] returns true exactly when the transaction is not
    in pending, pending does not reserve its filename, and no block of the
    main chain from the tail to the genesis contains it or reserves its
    filename; it then adds the transaction to pending, and otherwise leaves
    the manager, pending included, as it was. *)
Theorem addTransaction_accepts_iff_new (bm : BlockchainManager) (tx : TxPublish) :
  let name := Name (TxFile tx) in
  let fresh :=
    (TxFile tx ∉ pendingTx bm)
    /\ ~ reserves (pendingTx bm) name
    /\ forall n, n ∈ main_chain (tail bm) ->
                 (TxFile tx ∉ txSet n) /\ ~ reserves (txSet n) name in
  ((addTransaction bm tx).2 = true <-> fresh)
  /\ (fresh ->
      (addTransaction bm tx).1
      = mkBlockchainManager (tail bm) (blocks bm) ({[ TxFile tx ]} ∪ pendingTx bm))
  /\ (~ fresh -> addTransaction bm tx = (bm, false)).
Proof.
  intros name fresh. subst name. unfold addTransaction.
  destruct (TransactionsSet.contains (pendingTx bm) tx) eqn:Hc.
  { apply contains_spec in Hc.
    assert (~ fresh) by (intros (H & _); contradiction).
    split; [split; [done|contradiction]|]. split; [contradiction|done]. }
  destruct (TransactionsSet.containsFilename (pendingTx bm) (Name (TxFile tx))) eqn:Hf.
  { apply containsFilename_spec in Hf.
    assert (~ fresh) by (intros (_ & H & _); contradiction).
    split; [split; [done|contradiction]|]. split; [contradiction|done]. }
  destruct (history_rejects (tail bm) tx) eqn:Hh.
  { apply history_rejects_spec in Hh as (m & Hm & H).
    assert (~ fresh).
    { intros (_ & _ & Hall). destruct (Hall m Hm) as [H1 H2]. tauto. }
    split; [split; [done|contradiction]|]. split; [contradiction|done]. }
  assert (fresh) as Hfresh.
  { split; [|split].
    - intros H. apply contains_spec in H. congruence.
    - intros H. apply containsFilename_spec in H. congruence.
    - intros n Hn. split.
      + intros H. assert (history_rejects (tail bm) tx = true); [|congruence].
        apply history_rejects_spec. eauto.
      + intros H. assert (history_rejects (tail bm) tx = true); [|congruence].
        apply history_rejects_spec. eauto. }
  split; [done|]. split; [done|]. intros H. contradiction.
Qed.

Example addTransaction_twice :
  (addTransaction InitBlockchainManager tx_a).2 = true
  /\ (addTransaction (addTransaction InitBlockchainManager tx_a).1 tx_a).2 = false
  /\ (addTransaction chain_A tx_a).2 = false.
Proof. vm_compute. done. Qed.

(** In the two branches of [addBlock] for a block that does not prolong
    the tail, the short chain and the winning fork alike, the tail stays
    what it was. *)
Lemma addBlock_off_tail_keeps_tail K bm block bm' ok :
  addBlock K bm block = Some (bm', ok) ->
  PrevHash block ≠ node_block_Hash (tail bm) ->
  tail bm' = tail bm.
Proof.
  unfold addBlock. intros H Hne.
  destruct (decide (is_Some (blocks bm !! Block_Hash block))); [by simplify_eq|].
  destruct (blocks bm !! PrevHash block) as [parentNode|]; [|by simplify_eq].
  destruct (IsGood K block) as [good|]; [|done]. cbn [mbind option_bind] in H.
  destruct good; cbn [negb] in H; [|by simplify_eq].
  destruct (decide (PrevHash block = node_block_Hash (tail bm))); [done|].
  destruct (decide (depth parentNode < depth (tail bm))); [by simplify_eq|].
  destruct (rollback_loop _ _ _); [|done]. cbn [mbind option_bind] in H.
  destruct (apply_loop _ _ _); [|done]. cbn [mbind option_bind] in H.
  by simplify_eq.
Qed.

(** The chain whose tail is [blockA] is what the manager holds once
    [blockA], mined on the genesis, has been attached; under the reading of
    the genesis hash taken from the specification, [addBlock] builds it
    from the initial manager. *)
Example chain_A_from_the_initial_manager :
  addBlock 2 InitBlockchainManager blockA = Some (chain_A, true).
Proof. vm_cast_no_check (eq_refl (Some (chain_A, true))). Qed.

(** C1: on the chain whose tail is [blockA] (depth 1), [addBlock] accepts
    [blockB], a sibling of [blockA] on the genesis, as a short chain, and
    then [blockC], whose parent [blockB] is known and is not the tail and
    whose depth 2 exceeds the depth of the tail.  For [blockC] it rolls
    [blockA] back into pending and applies [blockC] and [blockB], but the
    tail is still the node of [blockA], not the new node. *)
Theorem addBlock_winning_fork_keeps_old_tail :
  addBlock 2 chain_A blockB = Some (chain_AB, true)
  /\ blocks chain_AB !! PrevHash blockC = Some nodeB
  /\ nodeB ≠ tail chain_AB
  /\ depth (InitBlockNode nodeB blockC) > depth (tail chain_AB)
  /\ addBlock 2 chain_AB blockC = Some (chain_ABC, true)
  /\ blocks chain_ABC !! Block_Hash blockC = Some nodeC
  /\ pendingTx chain_ABC = {[ TxFile tx_a ]}
  /\ tail chain_ABC = nodeA
  /\ tail chain_ABC ≠ nodeC.
Proof.
  split; [vm_cast_no_check (eq_refl (Some (chain_AB, true)))|].
  split; [vm_cast_no_check (eq_refl (Some nodeB))|].
  split; [vm_compute; discriminate|].
  split; [vm_compute; reflexivity|].
  split; [vm_cast_no_check (eq_refl (Some (chain_ABC, true)))|].
  split; [vm_cast_no_check (eq_refl (Some nodeC))|].
  split; [reflexivity|].
  split; [reflexivity|].
  vm_compute; discriminate.
Qed.

(** ** Downloading: a reply that fails the hash check *)

(** C8: a DataReply whose data does not hash to its hash value makes
    [ProcessDataReply] return the error result ([nil]) and leaves the
    record of the download as it was. *)
Theorem ProcessDataReply_rejects_bad_hash (df : DownloadingFile) (drpmsg : DataReply) :
  SHA256.Sum256 (Data drpmsg) ≠ HashValue drpmsg ->
  ProcessDataReply df drpmsg = (df, None).
Proof.
  intros Hbad. unfold ProcessDataReply, GetTypeStrictHash.
  destruct (decide (length (HashValue drpmsg) = 32%nat)); [|done].
  by destruct (decide (SHA256.Sum256 (Data drpmsg) ≠ HashValue drpmsg)).
Qed.

Lemma ProcessDataReply_rejects_bad_hash_witness :
  SHA256.Sum256 (Data forged_reply) ≠ HashValue forged_reply
  /\ ProcessDataReply waiting_download forged_reply = (waiting_download, None).
Proof.
  assert (H : SHA256.Sum256 (Data forged_reply) ≠ HashValue forged_reply)
    by (vm_compute; discriminate).
  split; [exact H|].
  exact (ProcessDataReply_rejects_bad_hash waiting_download forged_reply H).
Defined.

(** ** Sharing: the chunk count of a search result *)

Lemma hash_chunks_MetaSet chunks sf :
  MetaSet (hash_chunks chunks sf)
  = list_to_set (map SHA256.Sum256 chunks) ∪ MetaSet sf.
Proof.
  unfold hash_chunks. revert sf.
  induction chunks as [|c chunks IH]; intros sf; simpl.
  - by rewrite (left_id_L ∅ (∪)).
  - rewrite IH. cbn [MetaSet]. apply set_eq. intros x.
    rewrite !elem_of_union. tauto.
Qed.

Lemma hash_chunks_names chunks sf :
  SfName (hash_chunks chunks sf) = SfName sf.
Proof.
  unfold hash_chunks. revert sf.
  induction chunks as [|c chunks IH]; intros sf; simpl; [done|].
  by rewrite IH.
Qed.

Lemma split_loop_length c total rest i chunks cur :
  (length (split_loop c total rest i chunks cur) <= length chunks + length rest)%nat.
Proof.
  revert i chunks cur. induction rest as [|b rest IH]; intros i chunks cur; simpl.
  - lia.
  - case_decide.
    + etrans; [apply IH|]. rewrite length_app. simpl. lia.
    + etrans; [apply IH|]. lia.
Qed.

Lemma split_chunks_length c fileBytes :
  (length (split_chunks c fileBytes) <= length fileBytes)%nat.
Proof. unfold split_chunks. etrans; [apply split_loop_length|]. simpl. lia. Qed.

Section distinct.
Context `{Countable A}.

Lemma length_remove_dups_le (l : list A) :
  (length (remove_dups l) <= length l)%nat.
Proof.
  induction l as [|x l IH]; simpl; [lia|].
  case_decide; simpl; lia.
Qed.

Lemma length_remove_dups_lt (l : list A) :
  ~ NoDup l -> (length (remove_dups l) < length l)%nat.
Proof.
  induction l as [|x l IH]; intros Hdup; simpl.
  - destruct Hdup. constructor.
  - case_decide as Hx; simpl.
    + pose proof (length_remove_dups_le l). lia.
    + assert (~ NoDup l) by (intros Hl; apply Hdup; by constructor).
      specialize (IH ltac:(done)). lia.
Qed.

Lemma size_list_to_set_remove_dups (l : list A) :
  size (list_to_set l : gset A) = length (remove_dups l).
Proof.
  rewrite <- (size_list_to_set (C := gset A) (remove_dups l))
    by apply NoDup_remove_dups.
  f_equal. apply set_eq. intros x.
  by rewrite !elem_of_list_to_set, elem_of_remove_dups.
Qed.

End distinct.

Lemma NoDup_of_NoDup_map {A B} (f : A -> B) (l : list A) :
  NoDup (map f l) -> NoDup l.
Proof. apply (NoDup_fmap_1 f). Qed.

Lemma getSearchResults_elements sf keywords results res :
  getSearchResults sf keywords = Some results ->
  res ∈ results -> res = searchResultOf sf.
Proof.
  revert results. induction keywords as [|kw keywords IH]; intros results; simpl.
  - intros [= <-] Hin. by apply elem_of_nil in Hin.
  - destruct (Regexp.MatchString _ _) as [[matched err_nil]|]; [|done]. simpl.
    destruct (getSearchResults sf keywords) as [rest|]; [|done]. simpl.
    destruct (err_nil && matched); intros [= <-] Hin.
    + apply elem_of_cons in Hin as [->|Hin]; [done|]. by apply (IH rest).
    + by apply (IH rest).
Qed.



Example twin_shared_count :
  ChunkCount (searchResultOf twin_shared) = 1
  /\ ChunkMap (searchResultOf twin_shared) = [1]
  /\ len (split_chunks 4 twin_file) = 2.
Proof. vm_compute. done. Qed.

(** ** The matcher of the [regexp] fragment decides the language *)

Import Regexp.

Lemma lang_void_inv s : lang Void s <-> False.
Proof. split; [inversion 1|done]. Qed.

Lemma lang_eps_inv s : lang Eps s <-> s = [].
Proof. split; [by inversion 1|intros ->; constructor]. Qed.

Lemma lang_cls_inv p s : lang (Cls p) s <-> exists c, s = [c] /\ p c = true.
Proof.
  split; [inversion 1; subst; eauto|].
  intros (c & -> & Hp). by constructor.
Qed.

Lemma lang_cat_inv r1 r2 s :
  lang (Cat r1 r2) s <-> exists s1 s2, s = s1 ++ s2 /\ lang r1 s1 /\ lang r2 s2.
Proof.
  split; [inversion 1; subst; eauto|].
  intros (s1 & s2 & -> & H1 & H2). by constructor.
Qed.

Lemma lang_alt_inv r1 r2 s : lang (Alt r1 r2) s <-> lang r1 s \/ lang r2 s.
Proof.
  split; [inversion 1; subst; eauto|].
  intros [H|H]; [by apply lang_alt_l|by apply lang_alt_r].
Qed.

Lemma nullable_spec r : nullable r = true <-> lang r [].
Proof.
  induction r as [| |p|r1 IH1 r2 IH2|r1 IH1 r2 IH2|r IH]; simpl.
  - by rewrite lang_void_inv.
  - by rewrite lang_eps_inv.
  - rewrite lang_cls_inv. split; [done|]. by intros (c & ? & _).
  - rewrite andb_true_iff, IH1, IH2, lang_cat_inv. split.
    + intros [H1 H2]. by exists [], [].
    + intros (s1 & s2 & Heq & H1 & H2).
      symmetry in Heq. apply app_eq_nil in Heq as [-> ->]. done.
  - by rewrite orb_true_iff, IH1, IH2, lang_alt_inv.
  - split; [constructor|done].
Qed.

Lemma lang_star_cons_inv r c s :
  lang (Star r) (c :: s) ->
  exists s1 s2, s = s1 ++ s2 /\ lang r (c :: s1) /\ lang (Star r) s2.
Proof.
  remember (Star r) as r' eqn:Hr. remember (c :: s) as w eqn:Hw.
  intros H. revert r c s Hr Hw.
  induction H as [| | | | | |r0 s1 s2 H1 _ H2 IH2]; intros r' c' s' Hr Hw;
    try discriminate.
  injection Hr as ->.
  destruct s1 as [|c1 s1].
  - simpl in Hw. exact (IH2 r' c' s' eq_refl Hw).
  - simpl in Hw. injection Hw as -> <-. by exists s1, s2.
Qed.

Lemma deriv_spec c r s : lang (deriv c r) s <-> lang r (c :: s).
Proof.
  revert s. induction r as [| |p|r1 IH1 r2 IH2|r1 IH1 r2 IH2|r IH]; intros s; simpl.
  - by rewrite !lang_void_inv.
  - rewrite lang_void_inv, lang_eps_inv. done.
  - rewrite lang_cls_inv. destruct (p c) eqn:Hp.
    + rewrite lang_eps_inv. split; [intros ->; eauto|].
      by intros (c' & [= -> ->] & _).
    + rewrite lang_void_inv. split; [done|].
      intros (c' & [= -> ->] & H). congruence.
  - assert (Hcat : lang (Cat (deriv c r1) r2) s
                   <-> exists s1 s2, s = s1 ++ s2 /\ lang r1 (c :: s1) /\ lang r2 s2).
    { rewrite lang_cat_inv. by setoid_rewrite IH1. }
    assert (Hinv : lang (Cat r1 r2) (c :: s)
                   <-> (exists s1 s2, s = s1 ++ s2 /\ lang r1 (c :: s1) /\ lang r2 s2)
                       \/ (lang r1 [] /\ lang r2 (c :: s))).
    { rewrite lang_cat_inv. split.
      - intros (s1 & s2 & Heq & H1 & H2). destruct s1 as [|c1 s1].
        + right. simpl in Heq. by subst.
        + left. simpl in Heq. injection Heq as <- ->. by exists s1, s2.
      - intros [(s1 & s2 & -> & H1 & H2)|[H1 H2]].
        + by exists (c :: s1), s2.
        + by exists [], (c :: s). }
    rewrite Hinv, <- Hcat, <- nullable_spec, <- IH2.
    destruct (nullable r1).
    + rewrite lang_alt_inv. tauto.
    + split; [tauto|]. intros [H|[H _]]; [done|discriminate].
  - by rewrite !lang_alt_inv, IH1, IH2.
  - rewrite lang_cat_inv. split.
    + intros (s1 & s2 & -> & H1 & H2).
      apply IH in H1. by apply (lang_star_app r (c :: s1) s2).
    + intros H. apply lang_star_cons_inv in H as (s1 & s2 & -> & H1 & H2).
      exists s1, s2. by rewrite IH.
Qed.

Lemma accepts_spec r s : accepts r s = true <-> lang r s.
Proof.
  unfold accepts. revert r. induction s as [|c s IH]; intros r; simpl.
  - apply nullable_spec.
  - rewrite IH. apply deriv_spec.
Qed.

Lemma lang_star_any s : lang (Star any_char) s.
Proof.
  induction s as [|c s IH]; [constructor|].
  apply (lang_star_app any_char [c] s); [by constructor|done].
Qed.

Lemma search_spec r s :
  search r s = true
  <-> exists pre mid post, s = pre ++ mid ++ post /\ lang r mid.
Proof.
  unfold search. rewrite accepts_spec, lang_cat_inv. split.
  - intros (pre & rest & -> & _ & Hrest).
    apply lang_cat_inv in Hrest as (mid & post & -> & Hmid & _).
    by exists pre, mid, post.
  - intros (pre & mid & post & -> & Hmid).
    exists pre, (mid ++ post). split; [done|]. split; [apply lang_star_any|].
    apply lang_cat_inv. exists mid, post. split; [done|].
    split; [done|apply lang_star_any].
Qed.

(** ** Keywords are matched as regular expressions *)

Lemma MatchString_spec pattern s res err_nil :
  MatchString pattern s = Some (res, err_nil) ->
  (err_nil && res = true
   <-> exists r, parse (list_ascii_of_string pattern) = Some r /\ has_match r s).
Proof.
  unfold MatchString, has_match.
  destruct (in_fragment _ && forallb is_ascii _); [|done].
  destruct (parse _) as [r|]; intros [= <- <-]; simpl.
  - rewrite search_spec. split; [by exists r|]. by intros (r' & [= <-] & H).
  - split; [done|]. by intros (r' & ? & _).
Qed.

Lemma getSearchResults_reports sf keywords results :
  getSearchResults sf keywords = Some results ->
  (results ≠ []
   <-> exists kw r, kw ∈ keywords /\ parse (pattern_of kw) = Some r
                    /\ has_match r (SfName sf)).
Proof.
  revert results. induction keywords as [|kw keywords IH]; intros results; simpl.
  - intros [= <-]. split; [done|]. intros (kw & r & Hin & _).
    by apply elem_of_nil in Hin.
  - destruct (MatchString _ _) as [[matched err_nil]|] eqn:Hm; [|done]. simpl.
    destruct (getSearchResults sf keywords) as [rest|]; [|done]. simpl.
    apply MatchString_spec in Hm. specialize (IH rest eq_refl).
    destruct (err_nil && matched); intros [= <-].
    + split; [|done]. intros _. destruct Hm as [(r & Hr & Hmatch) _]; [done|].
      exists kw, r. split; [apply list_elem_of_here|done].
    + rewrite IH. split.
      * intros (kw' & r & Hin & H). exists kw', r.
        split; [by apply list_elem_of_further|done].
      * intros (kw' & r & Hin & Hr & Hmatch).
        apply elem_of_cons in Hin as [->|Hin]; [|by exists kw', r].
        destruct Hm as [_ Hm]. discriminate Hm. by exists r.
Qed.

(** *** Keywords without metacharacters *)

Lemma list_ascii_of_string_app (a b : string) :
  list_ascii_of_string (a ++ b) = list_ascii_of_string a ++ list_ascii_of_string b.
Proof. induction a as [|c a IH]; simpl; [done|]. by rewrite IH. Qed.

Lemma pattern_of_chars kw :
  pattern_of kw
  = "."%char :: "*"%char :: list_ascii_of_string kw ++ ["."%char; "*"%char].
Proof. unfold pattern_of. by rewrite !list_ascii_of_string_app. Qed.

Lemma plain_char_spec c :
  plain_char c = true ->
  is_ascii c = true /\ is_other_meta c = false /\ is_rep c = false
  /\ Ascii.eqb c "." = false.
Proof.
  unfold plain_char. rewrite !andb_true_iff, !negb_true_iff. tauto.
Qed.

Lemma parse_loop_plain cs rest stack last :
  forallb plain_char cs = true ->
  parse_loop (cs ++ "."%char :: rest) stack last
  = parse_loop rest (dot :: rev (map lit cs) ++ stack) LastAtom.
Proof.
  revert stack last. induction cs as [|c cs IH]; intros stack last Hplain.
  - reflexivity.
  - simpl in Hplain. apply andb_true_iff in Hplain as [Hc Hcs].
    apply plain_char_spec in Hc as (_ & _ & Hrep & Hdot).
    cbn [app parse_loop]. rewrite Hrep, Hdot, IH by done.
    cbn [map rev]. by rewrite <- app_assoc.
Qed.

(** The regular expression of a keyword without metacharacters. *)
Lemma parse_pattern_plain kw :
  plain kw ->
  parse (pattern_of kw)
  = Some (Cat (Star dot)
            (foldr Cat (Cat (Star dot) Eps) (map lit (list_ascii_of_string kw)))).
Proof.
  intros Hplain. unfold parse. rewrite pattern_of_chars.
  change (parse_loop ("."%char :: "*"%char :: ?l) [] LastAtom)
    with (parse_loop l [Star dot] LastRep).
  rewrite parse_loop_plain by done.
  change (parse_loop ["*"%char] (dot :: ?st) LastAtom) with (Some (Star dot :: st)).
  cbn [fmap option_fmap option_map]. f_equal.
  unfold concat_stack. rewrite <- fold_left_rev_right.
  cbn [rev]. rewrite rev_app_distr, rev_involutive.
  cbn [rev app fold_right]. by rewrite fold_right_app.
Qed.

Lemma in_fragment_pattern_plain kw :
  plain kw -> in_fragment (pattern_of kw) = true.
Proof.
  intros Hplain. rewrite pattern_of_chars. unfold in_fragment.
  cbn [forallb]. rewrite forallb_app.
  replace (forallb _ (list_ascii_of_string kw)) with true; [reflexivity|].
  symmetry. apply forallb_forall. intros c Hc.
  unfold plain in Hplain. rewrite forallb_forall in Hplain.
  apply Hplain, plain_char_spec in Hc as (-> & -> & _). reflexivity.
Qed.

Lemma lang_lit c s : lang (lit c) s <-> s = [c].
Proof.
  unfold lit. rewrite lang_cls_inv. split.
  - intros (c' & -> & Heq). apply Ascii.eqb_eq in Heq. by subst.
  - intros ->. exists c. split; [done|]. apply Ascii.eqb_refl.
Qed.

Lemma lang_literals cs tail s :
  lang (foldr Cat tail (map lit cs)) s <-> exists s', s = cs ++ s' /\ lang tail s'.
Proof.
  revert s. induction cs as [|c cs IH]; intros s; simpl.
  - split; [by exists s|]. by intros (s' & -> & H).
  - rewrite lang_cat_inv. split.
    + intros (s1 & s2 & -> & H1 & H2). apply lang_lit in H1 as ->.
      apply IH in H2 as (s' & -> & H). by exists s'.
    + intros (s' & -> & H). exists [c], (cs ++ s'). split; [done|].
      split; [by apply lang_lit|]. apply IH. by exists s'.
Qed.

Lemma substring_chars kw s :
  substring kw s
  <-> exists pre post : list ascii,
        list_ascii_of_string s = pre ++ list_ascii_of_string kw ++ post.
Proof.
  unfold substring. split.
  - intros (pre & post & ->). exists (list_ascii_of_string pre), (list_ascii_of_string post).
    by rewrite !list_ascii_of_string_app.
  - intros (pre & post & Heq).
    exists (string_of_list_ascii pre), (string_of_list_ascii post).
    rewrite <- (string_of_list_ascii_of_string s), Heq.
    rewrite <- (string_of_list_ascii_of_string
                  (string_of_list_ascii pre ++ kw ++ string_of_list_ascii post)).
    by rewrite !list_ascii_of_string_app, !list_ascii_of_string_of_list_ascii.
Qed.

Lemma has_match_plain kw s :
  has_match (Cat (Star dot)
               (foldr Cat (Cat (Star dot) Eps) (map lit (list_ascii_of_string kw)))) s
  <-> substring kw s.
Proof.
  rewrite substring_chars. unfold has_match. split.
  - intros (pre & mid & post & Heq & Hmid).
    apply lang_cat_inv in Hmid as (x & rest & -> & _ & Hrest).
    apply lang_literals in Hrest as (y & -> & _).
    exists (pre ++ x), (y ++ post). rewrite Heq. by rewrite <- !app_assoc.
  - intros (pre & post & Heq).
    exists pre, (list_ascii_of_string kw), post. split; [done|].
    apply lang_cat_inv. exists [], (list_ascii_of_string kw).
    split; [done|]. split; [constructor|].
    apply lang_literals. exists []. split; [by rewrite app_nil_r|].
    apply lang_cat_inv. exists [], []. split; [done|]. split; constructor.
Qed.

Lemma getSearchResults_plain_defined sf keywords :
  Forall plain keywords ->
  forallb is_ascii (list_ascii_of_string (SfName sf)) = true ->
  is_Some (getSearchResults sf keywords).
Proof.
  intros Hplain Hname. induction Hplain as [|kw keywords Hkw _ IH]; simpl; [done|].
  unfold MatchString. fold (pattern_of kw).
  rewrite in_fragment_pattern_plain, Hname by done. cbn [andb].
  rewrite parse_pattern_plain by done. simpl.
  destruct IH as [rest ->]. simpl. by destruct (search _ _).
Qed.

Lemma plain_in_scope kw : plain kw -> in_scope kw.
Proof.
  unfold plain, in_scope, in_fragment. rewrite !forallb_forall.
  intros Hplain c Hc. apply Hplain, plain_char_spec in Hc as (-> & -> & _).
  reflexivity.
Qed.

Lemma in_fragment_pattern kw :
  in_scope kw -> in_fragment (pattern_of kw) = true.
Proof.
  intros Hkw. rewrite pattern_of_chars. unfold in_fragment.
  cbn [forallb]. rewrite forallb_app. unfold in_scope, in_fragment in Hkw.
  rewrite Hkw. reflexivity.
Qed.

Lemma getSearchResults_defined sf keywords :
  Forall in_scope keywords -> ascii_name (SfName sf) ->
  is_Some (getSearchResults sf keywords).
Proof.
  intros Hscope Hname.
  induction Hscope as [|kw keywords Hkw _ IH]; simpl; [done|].
  unfold MatchString. fold (pattern_of kw).
  rewrite in_fragment_pattern by done. unfold ascii_name in Hname.
  rewrite Hname. cbn [andb]. destruct IH as [rest ->].
  destruct (parse (pattern_of kw)); simpl; [|done].
  by destruct (search _ _).
Qed.



Lemma a_dot_c_not_in_abc_txt : ~ substring "a.c" "abc.txt".
Proof.
  rewrite substring_chars. intros (pre & post & Heq).
  do 7 (destruct pre as [|? pre]; simpl in Heq;
        [discriminate Heq|injection Heq as _ Heq]).
  destruct pre; discriminate Heq.
Qed.


(** In the other direction, a keyword that is a substring of the name but
    does not compile as a pattern reports nothing. *)
Example keyword_star_is_a_compile_error :
  MatchString ".**.*" "a*b" = Some (false, false)
  /\ substring "*" "a*b".
Proof. split; [reflexivity|]. by exists "a"%string, "b"%string. Qed.

(** ** The search goroutine: budgets of the successive ticks *)

Lemma int64_small x : - 2 ^ 63 <= x < 2 ^ 63 -> int64 x = x.
Proof. intros H. unfold int64. rewrite Z.mod_small; lia. Qed.

Lemma uint64_small x : 0 <= x < 2 ^ 64 -> uint64 x = x.
Proof. intros H. unfold uint64. apply Z.mod_small. lia. Qed.

Lemma tickControl_send name kws b max :
  0 <= b <= max -> max < 2 ^ 62 ->
  tickControl name (mkSearchTask kws b max)
  = (TickSend (mkSearchRequest name b kws), mkSearchTask kws (b + 1) max).
Proof.
  intros Hb Hmax. unfold tickControl. cbn [stBudget stMaxAllowedBudget stKeywords].
  case_decide; [lia|]. by rewrite uint64_small, int64_small by lia.
Qed.

(** After [k] ticks that send, the goroutine is where it would have
    started with a budget larger by [k]. *)
Lemma nthTick_after_sends name kws max (k j : nat) b :
  0 <= b -> b + Z.of_nat k <= max + 1 -> max < 2 ^ 62 ->
  nthTick name (k + j) (mkSearchTask kws b max)
  = nthTick name j (mkSearchTask kws (b + Z.of_nat k) max).
Proof.
  revert b. induction k as [|k IH]; intros b Hb Hk Hmax.
  - by rewrite Z.add_0_r.
  - cbn [Nat.add nthTick]. rewrite tickControl_send by lia.
    rewrite IH by lia. do 2 f_equal. lia.
Qed.

Lemma nthTick_after_sends_now name kws max (k : nat) b :
  0 <= b -> b + Z.of_nat k <= max + 1 -> max < 2 ^ 62 ->
  nthTick name k (mkSearchTask kws b max)
  = (tickControl name (mkSearchTask kws (b + Z.of_nat k) max)).1.
Proof.
  intros Hb Hk Hmax.
  pose proof (nthTick_after_sends name kws max k 0 b Hb Hk Hmax) as H.
  by rewrite Nat.add_0_r in H.
Qed.

(** C2 (amended): with no budget given, the loop starts with the start
    budget and each tick sends a budget larger by one than the tick before,
    up to the maximal budget; the tick after that sends nothing and the
    next one ends the search. *)
Theorem search_budget_grows_by_one
  (FileSearchStartBudget FileSearchMaxBudget : Z) (gossiperName : string)
  (keywords : list string) (k : nat) :
  0 < FileSearchStartBudget ->
  FileSearchStartBudget + Z.of_nat k <= FileSearchMaxBudget ->
  FileSearchMaxBudget < 2 ^ 62 ->
  let task := startFileSearchingGoroutine FileSearchStartBudget
                FileSearchMaxBudget keywords 0 in
  let last := Z.to_nat (FileSearchMaxBudget - FileSearchStartBudget) in
  nthTick gossiperName k task
  = TickSend (mkSearchRequest gossiperName
                (FileSearchStartBudget + Z.of_nat k) keywords)
  /\ nthTick gossiperName (last + 1) task = TickLinger
  /\ nthTick gossiperName (last + 2) task = TickShutdown.
Proof.
  intros Hstart Hk Hmax. cbv zeta. unfold startFileSearchingGoroutine.
  destruct (decide (0 = 0)) as [_|]; [|done].
  set (last := Z.to_nat (FileSearchMaxBudget - FileSearchStartBudget)).
  assert (Hlast : FileSearchStartBudget + Z.of_nat (last + 1)
                  = FileSearchMaxBudget + 1) by lia.
  split; [|split].
  - rewrite nthTick_after_sends_now by lia.
    by rewrite tickControl_send by lia.
  - rewrite nthTick_after_sends_now by lia.
    rewrite Hlast. unfold tickControl.
    cbn [stBudget stMaxAllowedBudget]. rewrite int64_small by lia.
    case_decide; [|lia]. by case_decide; [lia|].
  - replace (last + 2)%nat with (last + 1 + 1)%nat by lia.
    rewrite nthTick_after_sends by lia.
    rewrite Hlast. cbn [nthTick]. unfold tickControl.
    cbn [stBudget stMaxAllowedBudget stKeywords]. rewrite !int64_small by lia.
    case_decide; [|lia]. case_decide; [lia|].
    cbn [stBudget stMaxAllowedBudget]. rewrite int64_small by lia.
    case_decide; [|lia]. by case_decide; [|lia].
Qed.

Lemma search_budget_grows_by_one_witness :
  0 < 2 /\ 2 + Z.of_nat 3 <= 32 /\ 32 < 2 ^ 62
  /\ nthTick "me" 3 (startFileSearchingGoroutine 2 32 ["a"%string] 0)
     = TickSend (mkSearchRequest "me" (2 + Z.of_nat 3) ["a"%string])
  /\ nthTick "me" (Z.to_nat (32 - 2) + 1)
       (startFileSearchingGoroutine 2 32 ["a"%string] 0) = TickLinger
  /\ nthTick "me" (Z.to_nat (32 - 2) + 2)
       (startFileSearchingGoroutine 2 32 ["a"%string] 0) = TickShutdown.
Proof.
  split; [lia|]. split; [simpl; lia|]. split; [lia|].
  apply (search_budget_grows_by_one 2 32 "me" ["a"%string] 3); simpl; lia.
Defined.

(** C2, as stated, fails: for the start budget 2 and the maximum 32, the
    second tick sends the budget 3, not 4. *)
Lemma second_tick_sends_three_not_four : ~ budget_doubles 2 32.
Proof.
  intros Hclaim. specialize (Hclaim "me"%string ["a"%string] 1%nat).
  vm_compute in Hclaim. specialize (Hclaim ltac:(discriminate)).
  discriminate Hclaim.
Qed.

Example budgets_of_the_first_ticks :
  map (fun k => nthTick "me" k (startFileSearchingGoroutine 2 32 ["a"%string] 0))
      [0; 1; 2]%nat
  = map (fun b => TickSend (mkSearchRequest "me" b ["a"%string])) [2; 3; 4].
Proof. reflexivity. Qed.

(** ** Forwarding a search request *)

Section forwarding.
Context {MessageStorage : Type}.
Implicit Types g : Gossiper MessageStorage.

Lemma forward_loop_sends g srqmsg B P rest residual :
  0 <= B < 2 ^ 63 -> 0 < P -> 0 <= residual <= B ->
  (residual > 0 -> 2 <= P) ->
  peerMessagesToSend (forward_loop g srqmsg B P rest residual)
  = peerMessagesToSend g
    ++ imap (fun i peer =>
               (peer, GpSearchRequest
                  (mkSearchRequest (SrqOrigin srqmsg)
                     (B / P + (if decide (Z.of_nat i < residual) then 1 else 0))
                     (Keywords srqmsg))))
            rest.
Proof.
  intros HB HP. revert g residual.
  induction rest as [|peer rest IH]; intros g residual Hres HP2.
  - by rewrite app_nil_r.
  - cbn [forward_loop]. rewrite Z.quot_div_nonneg by lia.
    assert (0 <= B / P) by (apply Z.div_pos; lia).
    assert (B / P <= B) by (apply Z.div_le_upper_bound; nia).
    rewrite imap_cons. destruct (decide (residual > 0)) as [Hpos|Hzero].
    + assert (B / P < 2 ^ 62).
      { apply Z.div_lt_upper_bound; [lia|]. specialize (HP2 Hpos). nia. }
      rewrite !int64_small, uint64_small by lia.
      rewrite IH by lia. cbn [send peerMessagesToSend].
      rewrite <- app_assoc. f_equal. cbn [app].
      rewrite decide_True by lia. f_equal.
      apply imap_ext. intros i x _. cbn [compose].
      destruct (decide (Z.of_nat i < residual - 1));
        destruct (decide (Z.of_nat (S i) < residual)); try lia; done.
    + rewrite uint64_small by lia.
      rewrite IH by lia. cbn [send peerMessagesToSend].
      rewrite <- app_assoc. f_equal. cbn [app].
      rewrite decide_False by lia. rewrite Z.add_0_r. f_equal.
      apply imap_ext. intros i x _. cbn [compose].
      destruct (decide (Z.of_nat i < residual));
        destruct (decide (Z.of_nat (S i) < residual)); try lia; done.
Qed.

Lemma forwardSearchRequest_sends g srqmsg B :
  0 < B < 2 ^ 63 -> peers g ≠ [] ->
  exists g', forwardSearchRequest g srqmsg B = Some g'
             /\ peerMessagesToSend g'
                = peerMessagesToSend g ++ forwarded_requests srqmsg B (peers g).
Proof.
  intros HB Hpeers. unfold forwardSearchRequest.
  assert (HP : 0 < len (peers g)).
  { unfold len. destruct (peers g); [done|]. simpl. lia. }
  rewrite decide_False by lia. eexists. split; [done|].
  rewrite Z.rem_mod_nonneg by lia.
  pose proof (Z.mod_pos_bound B (len (peers g)) HP).
  rewrite forward_loop_sends; [done|lia|lia| |].
  - split; [lia|]. apply Z.mod_le; lia.
  - intros Hres. destruct (decide (len (peers g) = 1)) as [Heq|]; [|lia].
    rewrite Heq, Z.mod_1_r in Hres. lia.
Qed.

Variables shared downloaded : list string -> list SearchResult.
Variable DefaultHopLimit : Z.

(** C3 (amended): when a search request is forwarded with a remaining
    budget [B] to [P] peers, every peer is sent a request, the [i]-th with
    the budget [B / P] plus one for the first [B mod P] peers; a peer whose
    share is 0 is sent a request as well. *)
Theorem search_budget_is_split_among_all_peers g (srqmsg : SearchRequest) :
  let B := if decide (SrqOrigin srqmsg ≠ name g)
           then Budget srqmsg - 1 else Budget srqmsg in
  0 <= Budget srqmsg < 2 ^ 63 -> 0 < B -> peers g ≠ [] ->
  exists g' replies,
    processSearchRequest shared downloaded DefaultHopLimit g srqmsg = Some g'
    /\ (forall m, m ∈ replies -> exists hop srp, m = (hop, GpSearchReply srp))
    /\ peerMessagesToSend g'
       = peerMessagesToSend g ++ replies
         ++ forwarded_requests srqmsg B (peers g)
    /\ length (forwarded_requests srqmsg B (peers g)) = length (peers g).
Proof.
  intros B Hbudget HB Hpeers. unfold processSearchRequest.
  rewrite (int64_small (Budget srqmsg)) by lia. subst B.
  assert (Hlength : forall b, length (forwarded_requests srqmsg b (peers g))
                              = length (peers g))
    by (intros b; apply length_imap).
  destruct (decide (SrqOrigin srqmsg ≠ name g)) as [Hother|Hself].
  - rewrite (int64_small (Budget srqmsg - 1)) by lia.
    rewrite (decide_False (P := Budget srqmsg - 1 <= 0)) by lia.
    set (srp := GpSearchReply _).
    set (g1 := if decide (len (shared (Keywords srqmsg)
                               ++ downloaded (Keywords srqmsg)) > 0)
               then sendPacketWithNextHop g (SrqOrigin srqmsg) srp else g).
    assert (Hg1 : peers g1 = peers g
                  /\ exists replies,
                       peerMessagesToSend g1 = peerMessagesToSend g ++ replies
                       /\ forall m, m ∈ replies ->
                                    exists hop srp, m = (hop, GpSearchReply srp)).
    { unfold g1, sendPacketWithNextHop. case_decide.
      - destruct (nextHop g !! SrqOrigin srqmsg) as [hop|].
        + split; [done|]. exists [(hop, srp)]. split; [done|].
          intros m ->%list_elem_of_singleton. by eexists _, _.
        + split; [done|]. exists []. split; [by rewrite app_nil_r|].
          intros m Hm. by apply elem_of_nil in Hm.
      - split; [done|]. exists []. split; [by rewrite app_nil_r|].
        intros m Hm. by apply elem_of_nil in Hm. }
    destruct Hg1 as (Hp1 & replies & Hsent & Hreplies).
    destruct (forwardSearchRequest_sends g1 srqmsg (Budget srqmsg - 1))
      as (g' & Hg' & Hsent'); [lia|by rewrite Hp1|].
    exists g', replies. split; [done|]. split; [done|].
    rewrite Hsent', Hsent, Hp1, <- app_assoc. done.
  - destruct (forwardSearchRequest_sends g srqmsg (Budget srqmsg))
      as (g' & Hg' & Hsent'); [lia|done|].
    exists g', []. split; [done|].
    split; [intros m Hm; by apply elem_of_nil in Hm|]. done.
Qed.

(** A request of the gossiper itself, with no peer known, divides by
    zero. *)
Lemma processSearchRequest_own_request_without_peers g (srqmsg : SearchRequest) :
  SrqOrigin srqmsg = name g -> peers g = [] ->
  processSearchRequest shared downloaded DefaultHopLimit g srqmsg = None.
Proof.
  intros Hself Hpeers. unfold processSearchRequest, forwardSearchRequest.
  rewrite decide_False by (intros H; by apply H).
  rewrite Hpeers. reflexivity.
Qed.

End forwarding.

Lemma search_budget_is_split_among_all_peers_witness :
  0 <= Budget request_X < 2 ^ 63 /\ 0 < 2 - 1 /\ peers two_peers ≠ []
  /\ exists g' replies,
       processSearchRequest no_files no_files 10 two_peers request_X = Some g'
       /\ (forall m, m ∈ replies -> exists hop srp, m = (hop, GpSearchReply srp))
       /\ peerMessagesToSend g'
          = peerMessagesToSend two_peers ++ replies
            ++ forwarded_requests request_X (2 - 1) (peers two_peers)
       /\ length (forwarded_requests request_X (2 - 1) (peers two_peers))
          = length (peers two_peers).
Proof.
  split; [by vm_compute|]. split; [lia|]. split; [done|].
  apply (search_budget_is_split_among_all_peers no_files no_files 10
           two_peers request_X); [by vm_compute|by vm_compute|done].
Defined.

(** C3, as stated, fails: a request of budget 2 from [X] leaves 1 to
    forward to two peers; the second peer's share is 0 and it is sent a
    request all the same. *)
Lemma zero_share_is_sent_all_the_same :
  ~ forwarding_skips_zero_shares no_files no_files 10 two_peers request_X.
Proof.
  intros Hclaim.
  assert (H : peerMessagesToSend
                <$> processSearchRequest no_files no_files 10 two_peers request_X
              = Some [("10.0.0.1:5000"%string,
                       GpSearchRequest (mkSearchRequest "X" 1 ["a"%string]));
                      ("10.0.0.2:5000"%string,
                       GpSearchRequest (mkSearchRequest "X" 0 ["a"%string]))])
    by reflexivity.
  destruct (processSearchRequest _ _ _ _ _) as [g'|] eqn:Hg'; [|done].
  injection H as H. specialize (Hclaim g' Hg').
  apply (Hclaim "10.0.0.2:5000"%string (mkSearchRequest "X" 0 ["a"%string]));
    [|done].
  rewrite H. apply list_elem_of_further, list_elem_of_here.
Qed.

(** C5: a client search on a gossiper without peers.  The request is
    accepted and the goroutine started; its first tick calls
    [processSearchRequest] with the gossiper's own name as origin, which
    computes [budget % len(g.peers)] with no peer: the division by zero
    panics. *)
Theorem client_search_without_peers_panics :
  exists g task,
    processClientSearchRequest 2 32 lonely ["a"%string] 0 = (g, Some task)
    /\ peers g = []
    /\ tickControl (name g) task
       = (TickSend (mkSearchRequest "me" 2 ["a"%string]),
          mkSearchTask ["a"%string] 3 32)
    /\ processSearchRequest no_files no_files 10 g
         (mkSearchRequest "me" 2 ["a"%string]) = None
    /\ onTick no_files no_files 10 g task = None.
Proof. eexists _, _. repeat split; reflexivity. Qed.

(** ** Mongering a new rumor *)

Section mongering.
Context {MessageStorage : Type}.
Implicit Types g : Gossiper MessageStorage.
Variable GetCurrentStatusPacket : MessageStorage -> StatusPacket.
Variable IsNewMessage : MessageStorage -> RumorMessage -> bool.
Variable AddRumorMessage : MessageStorage -> RumorMessage -> MessageStorage * bool.

Lemma int32_small x : - 2 ^ 31 <= x < 2 ^ 31 -> int32 x = x.
Proof. intros H. unfold int32. rewrite Z.mod_small; lia. Qed.

Lemma UpdatePeersIfNeeded_elem g peer : peer ∈ peers (UpdatePeersIfNeeded g peer).
Proof.
  unfold UpdatePeersIfNeeded.
  destruct (existsb _ _) eqn:Hex.
  - apply existsb_exists in Hex as (p & Hin & Hp).
    apply bool_decide_eq_true in Hp as ->. by apply list_elem_of_In.
  - cbn [peers]. apply elem_of_app. right. apply list_elem_of_here.
Qed.

Lemma UpdatePeersIfNeeded_other g peer :
  name (UpdatePeersIfNeeded g peer) = name g
  /\ messageStorage (UpdatePeersIfNeeded g peer) = messageStorage g
  /\ statusesChannels (UpdatePeersIfNeeded g peer) = statusesChannels g
  /\ mongeringThreads (UpdatePeersIfNeeded g peer) = mongeringThreads g.
Proof. unfold UpdatePeersIfNeeded. by destruct (existsb _ _). Qed.

Lemma updateNextHop_other g origin relay :
  peers (updateNextHop g origin relay) = peers g
  /\ messageStorage (updateNextHop g origin relay) = messageStorage g
  /\ statusesChannels (updateNextHop g origin relay) = statusesChannels g
  /\ mongeringThreads (updateNextHop g origin relay) = mongeringThreads g.
Proof.
  unfold updateNextHop. destruct (nextHop g !! origin); [|done].
  by case_decide.
Qed.

Lemma getRandomPeer_draws g rnd :
  0 < len (peers g) < 2 ^ 31 ->
  exists p, peers g !! Z.to_nat (rnd mod len (peers g)) = Some p
            /\ getRandomPeer g rnd = Some p.
Proof.
  intros Hlen. unfold getRandomPeer, Int31n. rewrite int32_small by lia.
  rewrite decide_False by lia. cbn [mbind option_bind].
  pose proof (Z.mod_pos_bound rnd (len (peers g)) ltac:(lia)) as Hr.
  destruct (lookup_lt_is_Some_2 (peers g) (Z.to_nat (rnd mod len (peers g))))
    as [p Hp]; [unfold len in *; lia|].
  by exists p.
Qed.

Lemma processRumorMessage_new g (rmsg : RumorMessage) (rnd : Z) :
  (AddRumorMessage (messageStorage g) rmsg).2 = true ->
  0 < len (peers g) < 2 ^ 31 ->
  exists p g',
    peers g !! Z.to_nat (rnd mod len (peers g)) = Some p
    /\ processRumorMessage AddRumorMessage g rmsg rnd = Some g'
    /\ mongeringThreads g'
       = (if decide (p ∈ statusesChannels g) then mongeringThreads g
          else mongeringThreads g ++ [(rmsg, p)]).
Proof.
  intros Hnew Hlen. unfold processRumorMessage.
  destruct (AddRumorMessage (messageStorage g) rmsg) as [ms isNew].
  simpl in Hnew. subst isNew.
  unfold arePeersEmpty. cbn [peers].
  rewrite bool_decide_eq_false_2 by lia.
  set (g1 := mkGossiper _ _ _ _ _ _ _ _).
  destruct (getRandomPeer_draws g1 rnd) as (p & Hp & Hdraw); [done|].
  exists p. unfold spreadTheRumor. rewrite Hdraw. cbn [mbind option_bind].
  cbn [g1 statusesChannels].
  destruct (decide (p ∈ statusesChannels g)); by eexists.
Qed.

(** C6 (amended): a rumor received from a peer and admitted as new is
    mongered to a peer drawn at random among all the known peers, of which
    the source is one: the session goes to the peer at the drawn index,
    unless a session with that peer is already in progress. *)
Theorem new_rumor_is_mongered_to_a_random_peer g (rmsg : RumorMessage)
  (address : string) (rnd : Z) :
  (AddRumorMessage (messageStorage g) rmsg).2 = true ->
  len (peers (UpdatePeersIfNeeded g address)) < 2 ^ 31 ->
  let known := peers (UpdatePeersIfNeeded g address) in
  address ∈ known
  /\ exists p g',
       known !! Z.to_nat (rnd mod len known) = Some p
       /\ processAddressedGossipPacket_Rumor GetCurrentStatusPacket IsNewMessage
            AddRumorMessage g rmsg address rnd = Some g'
       /\ mongeringThreads g'
          = (if decide (p ∈ statusesChannels g) then mongeringThreads g
             else mongeringThreads g ++ [(rmsg, p)]).
Proof.
  intros Hnew Hlen known. split; [apply UpdatePeersIfNeeded_elem|].
  unfold processAddressedGossipPacket_Rumor, processAddressedRumorMessage.
  destruct (UpdatePeersIfNeeded_other g address) as (_ & Hms & Hsc & Hmt).
  pose proof (UpdatePeersIfNeeded_elem g address) as Hin.
  fold known in Hin, Hlen.
  set (g1 := UpdatePeersIfNeeded g address) in *.
  set (g2 := send g1 address _).
  set (g3 := if IsNewMessage (messageStorage g2) rmsg
             then updateNextHop g2 (OriginalName rmsg) address else g2).
  assert (H3 : peers g3 = known /\ messageStorage g3 = messageStorage g
               /\ statusesChannels g3 = statusesChannels g
               /\ mongeringThreads g3 = mongeringThreads g).
  { unfold g3. destruct (IsNewMessage _ _).
    - destruct (updateNextHop_other g2 (OriginalName rmsg) address)
        as (-> & -> & -> & ->). done.
    - done. }
  destruct H3 as (Hp3 & Hms3 & Hsc3 & Hmt3).
  assert (Hpos : 0 < len known).
  { unfold len. destruct known; [by apply elem_of_nil in Hin|]. simpl. lia. }
  destruct (processRumorMessage_new g3 rmsg rnd) as (p & g' & Hp & Hg' & Hthreads).
  { by rewrite Hms3. }
  { rewrite Hp3. lia. }
  rewrite Hp3 in Hp. rewrite Hsc3, Hmt3 in Hthreads. by exists p, g'.
Qed.

End mongering.

Lemma new_rumor_is_mongered_to_a_random_peer_witness :
  let known := peers (UpdatePeersIfNeeded two_peers "10.0.0.1:5000") in
  (MessageStorage.AddRumorMessage (messageStorage two_peers) rumor_X1).2 = true
  /\ len known < 2 ^ 31
  /\ "10.0.0.1:5000"%string ∈ known
  /\ exists p g',
       known !! Z.to_nat (0 mod len known) = Some p
       /\ processAddressedGossipPacket_Rumor MessageStorage.GetCurrentStatusPacket
            MessageStorage.IsNewMessage MessageStorage.AddRumorMessage
            two_peers rumor_X1 "10.0.0.1:5000" 0 = Some g'
       /\ mongeringThreads g'
          = (if decide (p ∈ statusesChannels two_peers)
             then mongeringThreads two_peers
             else mongeringThreads two_peers ++ [(rumor_X1, p)]).
Proof.
  intros known. split; [reflexivity|]. split; [by vm_compute|].
  apply (new_rumor_is_mongered_to_a_random_peer
           MessageStorage.GetCurrentStatusPacket MessageStorage.IsNewMessage
           MessageStorage.AddRumorMessage two_peers rumor_X1
           "10.0.0.1:5000" 0); [reflexivity|by vm_compute].
Defined.

(** C6, as stated, fails: the gossiper knows two peers, the first sends a
    new rumor and the draw is 0; the session goes to the first peer, the
    source, although the second peer is there. *)
Lemma mongering_may_go_back_to_the_source :
  ~ mongering_avoids_source MessageStorage.GetCurrentStatusPacket
      MessageStorage.IsNewMessage MessageStorage.AddRumorMessage
      two_peers rumor_X1 "10.0.0.1:5000" 0.
Proof.
  intros Hclaim.
  destruct Hclaim as (g' & p & Hg' & Hp & Hthreads).
  - reflexivity.
  - exists "10.0.0.2:5000"%string. split; [|done].
    apply list_elem_of_further, list_elem_of_here.
  - assert (H : mongeringThreads
                  <$> processAddressedGossipPacket_Rumor
                        MessageStorage.GetCurrentStatusPacket
                        MessageStorage.IsNewMessage
                        MessageStorage.AddRumorMessage
                        two_peers rumor_X1 "10.0.0.1:5000" 0
                = Some [(rumor_X1, "10.0.0.1:5000"%string)]) by reflexivity.
    rewrite Hg' in H. injection H as H. rewrite Hthreads in H.
    injection H as H. by apply Hp.
Qed.

(** * Further properties of the sources *)

(** ** The blockchain manager: accepting blocks *)

Lemma ancestors_self n : n ∈ ancestors n.
Proof. destruct n; apply list_elem_of_here. Qed.

Lemma ancestors_genesis n : FakeBlockNode ∈ ancestors n.
Proof.
  induction n as [|b p IH d s]; [apply list_elem_of_here|].
  cbn [ancestors]. by apply list_elem_of_further.
Qed.

Lemma getLSA_common a b : getLSA a b ∈ ancestors a /\ getLSA a b ∈ ancestors b.
Proof.
  unfold getLSA.
  destruct (head (filter _ (ancestors a))) as [x|] eqn:Hx; simpl.
  - apply head_Some_elem_of, list_elem_of_filter in Hx. tauto.
  - split; apply ancestors_genesis.
Qed.

Lemma rollback_loop_branch cur lsa pending :
  lsa ∈ ancestors cur ->
  rollback_loop cur lsa pending = Some (pending ∪ txs_of (branch cur lsa)).
Proof.
  revert pending. induction cur as [|b p IH d s]; intros pending Hin;
    cbn [rollback_loop branch].
  - apply list_elem_of_singleton in Hin as ->.
    rewrite !decide_True by done. unfold txs_of. cbn.
    by rewrite (right_id_L ∅ (∪)).
  - destruct (decide (BlockNode b p d s = lsa)) as [Heq|Hne].
    + unfold txs_of. cbn. by rewrite (right_id_L ∅ (∪)).
    + cbn [ancestors] in Hin. apply elem_of_cons in Hin as [->|Hin]; [done|].
      rewrite IH by done. unfold TransactionsSet.union, txs_of.
      cbn [fmap list_fmap union_list txSet foldr].
      by rewrite (assoc_L (∪)).
Qed.

Lemma apply_loop_branch cur lsa pending :
  lsa ∈ ancestors cur ->
  apply_loop cur lsa pending = Some (pending ∖ txs_of (branch cur lsa)).
Proof.
  revert pending. induction cur as [|b p IH d s]; intros pending Hin;
    cbn [apply_loop branch].
  - apply list_elem_of_singleton in Hin as ->.
    rewrite !decide_True by done. unfold txs_of. cbn.
    f_equal. apply set_eq. intros x. rewrite elem_of_difference.
    split; [intros H; split; [done|apply not_elem_of_empty]|tauto].
  - destruct (decide (BlockNode b p d s = lsa)) as [Heq|Hne].
    + unfold txs_of. cbn. f_equal. apply set_eq. intros x.
      rewrite elem_of_difference.
      split; [intros H; split; [done|apply not_elem_of_empty]|tauto].
    + cbn [ancestors] in Hin. apply elem_of_cons in Hin as [->|Hin]; [done|].
      rewrite IH by done. unfold TransactionsSet.subtract, txs_of.
      cbn [fmap list_fmap union_list txSet foldr].
      f_equal. apply set_eq. intros x.
      rewrite !elem_of_difference, elem_of_union. tauto.
Qed.

Lemma IsGood_answers K b : K <= 32 -> is_Some (IsGood K b).
Proof.
  intros HK. unfold IsGood.
  destruct (IsGood_loop_spec (Block_Hash b) (Z.to_nat K) 0) as (v & Hv & _).
  - rewrite Block_Hash_spec. unfold spec_block_hash. rewrite Sum256_length. lia.
  - by exists v.
Qed.

(** The cases of [addBlock], once the three conditions hold. *)
Lemma addBlock_accepted K bm b parentNode :
  blocks bm !! Block_Hash b = None ->
  blocks bm !! PrevHash b = Some parentNode ->
  IsGood K b = Some true ->
  addBlock K bm b
  = Some
      (if decide (PrevHash b = node_block_Hash (tail bm)) then
         mkBlockchainManager (InitBlockNode (tail bm) b)
           (<[Block_Hash b := InitBlockNode (tail bm) b]> (blocks bm))
           (pendingTx bm ∖ TransactionsSet.ofSlice (Transactions b))
       else if decide (depth parentNode < depth (tail bm)) then
         mkBlockchainManager (tail bm)
           (<[Block_Hash b := InitBlockNode parentNode b]> (blocks bm))
           (pendingTx bm)
       else
         let lsa := getLSA (tail bm) parentNode in
         mkBlockchainManager (tail bm)
           (<[Block_Hash b := InitBlockNode parentNode b]> (blocks bm))
           ((pendingTx bm ∪ txs_of (branch (tail bm) lsa))
            ∖ txs_of (branch (InitBlockNode parentNode b) lsa)),
       true).
Proof.
  intros Hnew Hparent Hgood. unfold addBlock.
  rewrite decide_False by (rewrite Hnew; by intros [? ?]).
  rewrite Hparent, Hgood. cbn [mbind option_bind negb].
  destruct (decide (PrevHash b = node_block_Hash (tail bm))); [done|].
  destruct (decide (depth parentNode < depth (tail bm))); [done|].
  destruct (getLSA_common (tail bm) parentNode) as [Hold Hnew'].
  rewrite rollback_loop_branch by done. cbn [mbind option_bind].
  rewrite apply_loop_branch; [done|].
  unfold InitBlockNode. cbn [ancestors]. by apply list_elem_of_further.
Qed.

Lemma addBlock_rejected K bm b :
  K <= 32 -> ~ acceptable K bm b -> addBlock K bm b = Some (bm, false).
Proof.
  intros HK Hno. unfold addBlock.
  destruct (decide (is_Some (blocks bm !! Block_Hash b))) as [|Hnew]; [done|].
  destruct (blocks bm !! PrevHash b) as [parentNode|] eqn:Hparent; [|done].
  destruct (IsGood_answers K b HK) as [good Hgood]. rewrite Hgood.
  cbn [mbind option_bind]. destruct good; [|done].
  destruct Hno. split; [|by split].
  by apply eq_None_not_Some.
Qed.

Lemma acceptable_dec K bm b : acceptable K bm b \/ ~ acceptable K bm b.
Proof.
  unfold acceptable.
  destruct (blocks bm !! Block_Hash b); [right; by intros [? _]|].
  destruct (blocks bm !! PrevHash b); [|right; by intros (_ & [? ?] & _)].
  destruct (IsGood K b) as [[|]|]; [left; by split; [|split]| |];
    right; by intros (_ & _ & ?).
Qed.


Lemma chain_AB_takes_blockC :
  addBlock 2 chain_AB blockC = Some (chain_ABC, true).
Proof. vm_cast_no_check (eq_refl (Some (chain_ABC, true))). Qed.

Lemma chain_A_takes_blockB :
  addBlock 2 chain_A blockB = Some (chain_AB, true).
Proof. vm_cast_no_check (eq_refl (Some (chain_AB, true))). Qed.


Lemma addBlock_true_inv K bm b bm' :
  addBlock K bm b = Some (bm', true) ->
  blocks bm !! Block_Hash b = None
  /\ exists parentNode,
       blocks bm !! PrevHash b = Some parentNode /\ IsGood K b = Some true.
Proof.
  unfold addBlock. intros H.
  destruct (decide (is_Some (blocks bm !! Block_Hash b))) as [|Hnew]; [done|].
  split; [by apply eq_None_not_Some|].
  destruct (blocks bm !! PrevHash b) as [parentNode|]; [|done].
  exists parentNode. split; [done|].
  destruct (IsGood K b) as [[|]|]; done.
Qed.

Lemma addBlock_known_afterwards K bm b bm' :
  addBlock K bm b = Some (bm', true) -> is_Some (blocks bm' !! Block_Hash b).
Proof.
  intros H. pose proof (addBlock_true_inv _ _ _ _ H)
    as (Hnew & parentNode & Hparent & Hgood).
  rewrite (addBlock_accepted K bm b parentNode) in H by done.
  injection H as <-.
  repeat case_decide; cbn [blocks]; rewrite lookup_insert_eq; by eexists.
Qed.

Lemma addBlock_known K bm b :
  is_Some (blocks bm !! Block_Hash b) -> addBlock K bm b = Some (bm, false).
Proof. intros H. unfold addBlock. by rewrite decide_True. Qed.

(** X2: a block that [addBlock] has accepted is rejected when it is
    submitted again, and the manager stays as the first call left it. *)
Theorem addBlock_accepts_a_block_once
  (K : Z) (bm bm' : BlockchainManager) (b : Block) :
  addBlock K bm b = Some (bm', true) ->
  addBlock K bm' b = Some (bm', false).
Proof.
  intros H. by apply addBlock_known, (addBlock_known_afterwards K bm).
Qed.

Lemma addBlock_accepts_a_block_once_witness :
  addBlock 2 chain_AB blockC = Some (chain_ABC, true)
  /\ addBlock 2 chain_ABC blockC = Some (chain_ABC, false).
Proof.
  split; [exact chain_AB_takes_blockC|].
  exact (addBlock_accepts_a_block_once 2 chain_AB chain_ABC blockC
           chain_AB_takes_blockC).
Defined.


Lemma chain_A_pending_takes_blockD :
  addBlock 2 chain_A_pending blockD = Some (chain_AD, true).
Proof. vm_cast_no_check (eq_refl (Some (chain_AD, true))). Qed.

Lemma blockD_is_on_the_tail :
  PrevHash blockD = node_block_Hash (tail chain_A_pending).
Proof. exact_no_check (eq_refl (Block_Hash blockA)). Qed.


(** X4: an accepted block whose parent is not the tail and lies below the
    depth of the tail is attached to the tree; the tail and pending stay
    what they were. *)
Theorem addBlock_on_a_short_chain
  (K : Z) (bm bm' : BlockchainManager) (b : Block) (parentNode : blockNode) :
  addBlock K bm b = Some (bm', true) ->
  blocks bm !! PrevHash b = Some parentNode ->
  PrevHash b ≠ node_block_Hash (tail bm) ->
  depth parentNode < depth (tail bm) ->
  tail bm' = tail bm
  /\ pendingTx bm' = pendingTx bm
  /\ blocks bm' = <[Block_Hash b := InitBlockNode parentNode b]> (blocks bm).
Proof.
  intros H Hparent Hprev Hdepth. pose proof (addBlock_true_inv _ _ _ _ H)
    as (Hnew & parentNode' & Hparent' & Hgood).
  rewrite (addBlock_accepted K bm b parentNode) in H by done.
  rewrite decide_False, decide_True in H by done. by injection H as <-.
Qed.

Lemma addBlock_on_a_short_chain_witness :
  addBlock 2 chain_A blockB = Some (chain_AB, true)
  /\ blocks chain_A !! PrevHash blockB = Some FakeBlockNode
  /\ PrevHash blockB ≠ node_block_Hash (tail chain_A)
  /\ depth FakeBlockNode < depth (tail chain_A)
  /\ tail chain_AB = tail chain_A
  /\ pendingTx chain_AB = pendingTx chain_A
  /\ blocks chain_AB
     = <[Block_Hash blockB := InitBlockNode FakeBlockNode blockB]> (blocks chain_A).
Proof.
  assert (H1 : blocks chain_A !! PrevHash blockB = Some FakeBlockNode)
    by (vm_compute; reflexivity).
  assert (H2 : PrevHash blockB ≠ node_block_Hash (tail chain_A))
    by (vm_compute; discriminate).
  assert (H3 : depth FakeBlockNode < depth (tail chain_A))
    by (vm_compute; reflexivity).
  split; [exact chain_A_takes_blockB|]. split; [exact H1|].
  split; [exact H2|]. split; [exact H3|].
  exact (addBlock_on_a_short_chain 2 chain_A chain_AB blockB FakeBlockNode
           chain_A_takes_blockB H1 H2 H3).
Defined.

(** X5: an accepted block whose parent is not the tail and is not below
    the depth of the tail makes pending what the switch of branches asks
    for: the transactions of the branch of the old tail, down to the lowest
    common ancestor, are added, and then those of the branch of the new
    node are taken away. *)
Theorem addBlock_winning_fork_rewrites_pending
  (K : Z) (bm bm' : BlockchainManager) (b : Block) (parentNode : blockNode) :
  addBlock K bm b = Some (bm', true) ->
  blocks bm !! PrevHash b = Some parentNode ->
  PrevHash b ≠ node_block_Hash (tail bm) ->
  ~ depth parentNode < depth (tail bm) ->
  let lsa := getLSA (tail bm) parentNode in
  lsa ∈ ancestors (tail bm) /\ lsa ∈ ancestors parentNode
  /\ pendingTx bm'
     = (pendingTx bm ∪ txs_of (branch (tail bm) lsa))
       ∖ txs_of (branch (InitBlockNode parentNode b) lsa)
  /\ blocks bm' = <[Block_Hash b := InitBlockNode parentNode b]> (blocks bm).
Proof.
  intros H Hparent Hprev Hdepth lsa.
  pose proof (addBlock_true_inv _ _ _ _ H)
    as (Hnew & parentNode' & Hparent' & Hgood).
  rewrite (addBlock_accepted K bm b parentNode) in H by done.
  rewrite !decide_False in H by done. injection H as <-.
  destruct (getLSA_common (tail bm) parentNode). by repeat split.
Qed.

Lemma addBlock_winning_fork_rewrites_pending_witness :
  let lsa := getLSA (tail chain_AB) nodeB in
  addBlock 2 chain_AB blockC = Some (chain_ABC, true)
  /\ blocks chain_AB !! PrevHash blockC = Some nodeB
  /\ PrevHash blockC ≠ node_block_Hash (tail chain_AB)
  /\ ~ depth nodeB < depth (tail chain_AB)
  /\ lsa ∈ ancestors (tail chain_AB) /\ lsa ∈ ancestors nodeB
  /\ pendingTx chain_ABC
     = (pendingTx chain_AB ∪ txs_of (branch (tail chain_AB) lsa))
       ∖ txs_of (branch (InitBlockNode nodeB blockC) lsa)
  /\ blocks chain_ABC
     = <[Block_Hash blockC := InitBlockNode nodeB blockC]> (blocks chain_AB).
Proof.
  intros lsa.
  assert (H1 : blocks chain_AB !! PrevHash blockC = Some nodeB)
    by (vm_compute; reflexivity).
  assert (H2 : PrevHash blockC ≠ node_block_Hash (tail chain_AB))
    by (vm_compute; discriminate).
  assert (H3 : ~ depth nodeB < depth (tail chain_AB))
    by (vm_compute; discriminate).
  split; [exact chain_AB_takes_blockC|]. split; [exact H1|].
  split; [exact H2|]. split; [exact H3|].
  exact (addBlock_winning_fork_rewrites_pending 2 chain_AB chain_ABC blockC
           nodeB chain_AB_takes_blockC H1 H2 H3).
Defined.

Lemma addBlock_false_inv K bm b bm' :
  addBlock K bm b = Some (bm', false) -> bm' = bm.
Proof.
  intros H.
  destruct (blocks bm !! Block_Hash b) as [n|] eqn:Hnew.
  { unfold addBlock in H. rewrite Hnew, decide_True in H by by eexists.
    by injection H as <-. }
  destruct (blocks bm !! PrevHash b) as [parentNode|] eqn:Hparent.
  2:{ unfold addBlock in H. rewrite Hnew, Hparent, decide_False in H
        by by intros [? ?]. by injection H as <-. }
  destruct (IsGood K b) as [[|]|] eqn:Hgood.
  - by rewrite (addBlock_accepted K bm b parentNode) in H by done.
  - unfold addBlock in H. rewrite Hnew, Hparent, Hgood, decide_False in H
      by by intros [? ?]. by injection H as <-.
  - unfold addBlock in H. rewrite Hnew, Hparent, Hgood, decide_False in H
      by by intros [? ?]. done.
Qed.

Lemma tree_ok_init K : tree_ok K InitBlockchainManager.
Proof.
  split; [apply lookup_singleton_eq|].
  intros h n Hn. cbn [InitBlockchainManager blocks] in Hn.
  apply lookup_singleton_Some in Hn as [_ <-]. exact I.
Qed.

Lemma stored_ok_insert (K : Z) (blocks : gmap bytes blockNode) (hb : bytes)
  (node : blockNode) (h : bytes) (n : blockNode) :
  blocks !! hb = None ->
  stored_ok K blocks h n -> stored_ok K (<[hb := node]> blocks) h n.
Proof.
  intros Hnew. destruct n as [|b p d s]; [done|].
  intros (Hh & Hgood & Hparent & Hd & Hs). repeat split; try done.
  rewrite lookup_insert_ne; [done|]. intros ->. congruence.
Qed.

(** X6: [addBlock] keeps the tree well formed: the tail is stored under
    the hash of its block, and every stored block has a valid proof of
    work, is stored under its own hash, has its parent in the tree one
    level above it, and carries the transactions of its block. *)
Theorem addBlock_keeps_the_tree_well_formed
  (K : Z) (bm bm' : BlockchainManager) (b : Block) (ok : bool) :
  tree_ok K bm ->
  addBlock K bm b = Some (bm', ok) ->
  tree_ok K bm'.
Proof.
  intros [Htail Hall] H. destruct ok.
  2:{ apply addBlock_false_inv in H as ->. by split. }
  pose proof (addBlock_true_inv _ _ _ _ H)
    as (Hnew & parentNode & Hparent & Hgood).
  rewrite (addBlock_accepted K bm b parentNode) in H by done.
  assert (Hkey : forall h n, blocks bm !! h = Some n -> h ≠ Block_Hash b)
    by (intros h n Hn ->; congruence).
  assert (Hnode : forall p, blocks bm !! PrevHash b = Some p ->
            stored_ok K (<[Block_Hash b := InitBlockNode p b]> (blocks bm))
                      (Block_Hash b) (InitBlockNode p b)).
  { intros p Hp. repeat split; try done.
    rewrite lookup_insert_ne; [done|]. intros Heq. by apply (Hkey _ _ Hp). }
  assert (Hrest : forall node h n,
            <[Block_Hash b := node]> (blocks bm) !! h = Some n ->
            stored_ok K (<[Block_Hash b := node]> (blocks bm)) (Block_Hash b) node ->
            stored_ok K (<[Block_Hash b := node]> (blocks bm)) h n).
  { intros node h n Hn Hnode'. destruct (decide (h = Block_Hash b)) as [->|Hne].
    - rewrite lookup_insert_eq in Hn. by injection Hn as <-.
    - rewrite lookup_insert_ne in Hn by done.
      apply stored_ok_insert; [done|]. by apply Hall. }
  destruct (decide (PrevHash b = node_block_Hash (tail bm))) as [Hprev|Hprev].
  - injection H as <-. cbn [tail blocks].
    assert (parentNode = tail bm) as -> by (rewrite Hprev in Hparent; congruence).
    split; [apply lookup_insert_eq|].
    intros h n Hn. apply Hrest; [done|]. by apply Hnode.
  - assert (Hkeep : forall node,
              <[Block_Hash b := node]> (blocks bm) !! node_block_Hash (tail bm)
              = Some (tail bm)).
    { intros node. rewrite lookup_insert_ne; [done|].
      intros Heq. by apply (Hkey _ _ Htail). }
    destruct (decide (depth parentNode < depth (tail bm))) as [Hd|Hd];
      injection H as <-; cbn [tail blocks]; (split; [apply Hkeep|]);
      intros h n Hn; (apply Hrest; [done|]); by apply Hnode.
Qed.

Lemma addBlock_keeps_the_tree_well_formed_witness :
  tree_ok 2 InitBlockchainManager
  /\ addBlock 2 InitBlockchainManager blockA = Some (chain_A, true)
  /\ tree_ok 2 chain_A.
Proof.
  split; [exact (tree_ok_init 2)|].
  split; [exact chain_A_from_the_initial_manager|].
  exact (addBlock_keeps_the_tree_well_formed 2 InitBlockchainManager chain_A
           blockA true (tree_ok_init 2) chain_A_from_the_initial_manager).
Defined.

(** ** The blockchain manager: accepting transactions *)

Lemma addTransaction_accepted bm tx :
  (addTransaction bm tx).2 = true ->
  addTransaction bm tx
  = (mkBlockchainManager (tail bm) (blocks bm)
       ({[ TxFile tx ]} ∪ pendingTx bm), true)
  /\ TransactionsSet.contains (pendingTx bm) tx = false
  /\ TransactionsSet.containsFilename (pendingTx bm) (Name (TxFile tx)) = false
  /\ history_rejects (tail bm) tx = false.
Proof.
  unfold addTransaction.
  destruct (TransactionsSet.contains _ _); [done|].
  destruct (TransactionsSet.containsFilename _ _); [done|].
  by destruct (history_rejects _ _).
Qed.

Lemma addTransaction_rejected bm tx :
  (addTransaction bm tx).2 = false -> addTransaction bm tx = (bm, false).
Proof.
  unfold addTransaction.
  destruct (TransactionsSet.contains _ _); [done|].
  destruct (TransactionsSet.containsFilename _ _); [done|].
  by destruct (history_rejects _ _).
Qed.

Lemma name_taken_rejects bm tx' :
  reserves (pendingTx bm) (Name (TxFile tx'))
  \/ (exists n, n ∈ main_chain (tail bm)
                /\ reserves (txSet n) (Name (TxFile tx'))) ->
  addTransaction bm tx' = (bm, false).
Proof.
  intros H. unfold addTransaction.
  destruct (TransactionsSet.contains _ _); [done|].
  destruct (TransactionsSet.containsFilename _ _) eqn:Hf; [done|].
  destruct (history_rejects _ _) eqn:Hh; [done|].
  destruct H as [H|(n & Hn & H)].
  - apply containsFilename_spec in H. congruence.
  - assert (history_rejects (tail bm) tx' = true); [|congruence].
    apply history_rejects_spec. eauto.
Qed.

Lemma name_taken_after bm tx :
  name_taken (addTransaction bm tx).1 (Name (TxFile tx)).
Proof.
  destruct (addTransaction bm tx).2 eqn:Hok.
  - apply addTransaction_accepted in Hok as (-> & _). cbn [fst].
    left. exists (TxFile tx). cbn [pendingTx].
    split; [|done]. apply elem_of_union_l, elem_of_singleton. done.
  - pose proof (addTransaction_rejected _ _ Hok) as Hrej. rewrite Hrej. cbn [fst].
    unfold addTransaction in Hok.
    destruct (TransactionsSet.contains (pendingTx bm) tx) eqn:Hc.
    { left. apply contains_spec in Hc. by exists (TxFile tx). }
    destruct (TransactionsSet.containsFilename _ _) eqn:Hf.
    { left. by apply containsFilename_spec. }
    destruct (history_rejects (tail bm) tx) eqn:Hh; [|done].
    right. apply history_rejects_spec in Hh as (n & Hn & [H|H]).
    + exists n. split; [done|]. by exists (TxFile tx).
    + by exists n.
Qed.

Lemma name_taken_addTransaction bm t name :
  name_taken bm name -> name_taken (addTransaction bm t).1 name.
Proof.
  intros Htaken. destruct (addTransaction bm t).2 eqn:Hok.
  - apply addTransaction_accepted in Hok as (-> & _). cbn [fst].
    destruct Htaken as [(f & Hf & Hname)|Hchain]; [|by right].
    left. exists f. split; [|done]. cbn [pendingTx]. by apply elem_of_union_r.
  - by rewrite (addTransaction_rejected _ _ Hok).
Qed.

Lemma name_taken_addBlock K bm b bm' ok name :
  addBlock K bm b = Some (bm', ok) -> ~ wins_fork bm b ->
  name_taken bm name -> name_taken bm' name.
Proof.
  intros H Hquiet Htaken. destruct ok.
  2:{ by rewrite (addBlock_false_inv _ _ _ _ H). }
  pose proof (addBlock_true_inv _ _ _ _ H)
    as (Hnew & parentNode & Hparent & Hgood).
  rewrite (addBlock_accepted K bm b parentNode) in H by done.
  injection H as <-.
  destruct (decide (PrevHash b = node_block_Hash (tail bm))) as [Htail|Hother].
  - destruct Htaken as [(f & Hf & Hname)|(n & Hn & Hres)].
    + destruct (decide (f ∈ TransactionsSet.ofSlice (Transactions b)))
        as [Hin|Hout].
      * right. exists (InitBlockNode (tail bm) b). cbn [tail].
        split; [apply list_elem_of_here|]. by exists f.
      * left. exists f. split; [|done]. cbn [pendingTx].
        by apply elem_of_difference.
    + right. exists n. split; [|done]. cbn [tail InitBlockNode main_chain].
      by apply list_elem_of_further.
  - destruct (decide (depth parentNode < depth (tail bm))) as [Hshort|Hlong].
    + done.
    + destruct Hquiet. by exists parentNode.
Qed.

Lemma name_taken_quiet K bm bm' name :
  rtc (quiet_step K) bm bm' -> name_taken bm name -> name_taken bm' name.
Proof.
  induction 1 as [bm|bm bm1 bm2 Hstep _ IH]; [done|].
  intros Htaken. apply IH. destruct Hstep as [bm t|bm b bm' ok Hadd Hquiet].
  - by apply name_taken_addTransaction.
  - by apply (name_taken_addBlock K bm b bm' ok).
Qed.


(** From [chain_A]: [tx_d] and [tx_b] are submitted, then [blockD], which
    carries [tx_d], prolongs the tail. *)
Lemma chain_A_pending_is_reached :
  (addTransaction (addTransaction chain_A tx_d).1 tx_b).1 = chain_A_pending.
Proof. vm_cast_no_check (eq_refl chain_A_pending). Qed.

Lemma quiet_steps_to_chain_AD :
  rtc (quiet_step 2) (addTransaction chain_A tx_d).1 chain_AD.
Proof.
  eapply rtc_l; [apply (quiet_transaction 2 _ tx_b)|].
  rewrite chain_A_pending_is_reached.
  eapply rtc_l; [|apply rtc_refl].
  apply (quiet_block 2 _ blockD _ true chain_A_pending_takes_blockD).
  intros (parentNode & _ & Hne & _). apply Hne, blockD_is_on_the_tail.
Qed.


(** After a block has won a fork, a filename that was taken can be accepted
    again: [tx_c] is accepted on [chain_AB], [blockC], which carries it, wins
    the fork, and [tx_c] is accepted a second time. *)
Example winning_fork_frees_a_filename :
  exists bm1 bm2,
    addTransaction chain_AB tx_c = (bm1, true)
    /\ addBlock 2 bm1 blockC = Some (bm2, true)
    /\ wins_fork bm1 blockC
    /\ (addTransaction bm2 tx_c).2 = true.
Proof.
  exists (mkBlockchainManager nodeA (blocks chain_AB) {[ TxFile tx_c ]}),
         chain_ABC.
  split; [vm_cast_no_check
            (eq_refl (mkBlockchainManager nodeA (blocks chain_AB)
                        {[ TxFile tx_c ]}, true))|].
  split; [vm_cast_no_check (eq_refl (Some (chain_ABC, true)))|].
  split; [|vm_cast_no_check (eq_refl true)].
  exists nodeB. cbn [blocks tail].
  split; [vm_cast_no_check (eq_refl (Some nodeB))|].
  split; [vm_compute; discriminate|]. cbn. lia.
Qed.

(** X8: [addTransaction] keeps pending consistent: when the filenames of
    pending are unique and none of them is reserved by a block of the main
    chain, this is so after the call as well, whether the transaction is
    accepted or not. *)
Theorem addTransaction_keeps_pending_consistent
  (bm : BlockchainManager) (tx : TxPublish) :
  pending_ok bm -> pending_ok (addTransaction bm tx).1.
Proof.
  intros [Huniq Hfree]. destruct (addTransaction bm tx).2 eqn:Hok.
  2:{ rewrite (addTransaction_rejected _ _ Hok). by split. }
  apply addTransaction_accepted in Hok as (-> & _ & Hf & Hh). cbn [fst].
  assert (Hfresh : forall f, f ∈ pendingTx bm -> Name f ≠ Name (TxFile tx)).
  { intros f Hin Heq.
    assert (TransactionsSet.containsFilename (pendingTx bm) (Name (TxFile tx)) = true);
      [|congruence].
    apply containsFilename_spec. by exists f. }
  split; cbn [pendingTx tail].
  - intros f1 f2 H1 H2 Heq.
    apply elem_of_union in H1 as [H1%elem_of_singleton|H1];
      apply elem_of_union in H2 as [H2%elem_of_singleton|H2]; subst.
    + done.
    + symmetry in Heq. by apply Hfresh in Heq.
    + by apply Hfresh in Heq.
    + by apply Huniq.
  - intros f n Hin Hn. apply elem_of_union in Hin as [->%elem_of_singleton|Hin].
    + intros Hres.
      assert (history_rejects (tail bm) tx = true); [|congruence].
      apply history_rejects_spec. eauto.
    + by apply Hfree.
Qed.

Lemma pending_ok_init : pending_ok InitBlockchainManager.
Proof.
  split.
  - intros f1 f2 H1. by apply not_elem_of_empty in H1.
  - intros f n H1. by apply not_elem_of_empty in H1.
Qed.

Lemma pending_ok_chain_A : pending_ok chain_A.
Proof.
  split.
  - intros f1 f2 H1. by apply not_elem_of_empty in H1.
  - intros f n H1. by apply not_elem_of_empty in H1.
Qed.

(** On a chain that holds [a.txt] with [d.txt] and [b.txt] pending, a
    transaction that would repeat a pending name and one that would repeat a
    name of the chain are both turned down, and pending stays consistent. *)
Lemma addTransaction_keeps_pending_consistent_witness :
  pending_ok chain_A_pending
  /\ pending_ok
       (addTransaction chain_A_pending
          (mkTxPublish (mkFile "d.txt" 9 (replicate 32 5)) 3)).1
  /\ pending_ok
       (addTransaction chain_A_pending
          (mkTxPublish (mkFile "a.txt" 9 (replicate 32 5)) 3)).1
  /\ pending_ok (addTransaction chain_A_pending tx_c).1
  /\ (addTransaction chain_A_pending
        (mkTxPublish (mkFile "d.txt" 9 (replicate 32 5)) 3)).2 = false
  /\ (addTransaction chain_A_pending
        (mkTxPublish (mkFile "a.txt" 9 (replicate 32 5)) 3)).2 = false
  /\ pendingTx (addTransaction chain_A_pending tx_c).1
     = {[ TxFile tx_c ]} ∪ pendingTx chain_A_pending.
Proof.
  assert (H : pending_ok chain_A_pending).
  { rewrite <- chain_A_pending_is_reached.
    apply addTransaction_keeps_pending_consistent.
    apply addTransaction_keeps_pending_consistent.
    exact pending_ok_chain_A. }
  split; [exact H|].
  split; [exact (addTransaction_keeps_pending_consistent chain_A_pending _ H)|].
  split; [exact (addTransaction_keeps_pending_consistent chain_A_pending _ H)|].
  split; [exact (addTransaction_keeps_pending_consistent chain_A_pending _ H)|].
  split; [vm_cast_no_check (eq_refl false)|].
  split; [vm_cast_no_check (eq_refl false)|].
  vm_cast_no_check (eq_refl ({[ TxFile tx_c ]} ∪ pendingTx chain_A_pending)).
Defined.

(** ** Hashes do not cover the size and the hop limit *)

Lemma spec_tx_hash_same t1 t2 :
  same_name_and_metafile t1 t2 -> spec_tx_hash t1 = spec_tx_hash t2.
Proof. intros [Hn Hm]. unfold spec_tx_hash. by rewrite Hn, Hm. Qed.

(** X9: the hash of a transaction covers its filename and its metafile
    hash only, so that two blocks with the same previous hash and nonce
    whose transactions agree on these have the same hash, whatever the
    sizes and hop limits; proof of work cannot tell them apart either. *)
Theorem block_hash_ignores_sizes_and_hop_limits (b1 b2 : Block) :
  PrevHash b1 = PrevHash b2 ->
  Nonce b1 = Nonce b2 ->
  Forall2 same_name_and_metafile (Transactions b1) (Transactions b2) ->
  Forall2 (fun t1 t2 => TxPublish_Hash t1 = TxPublish_Hash t2)
          (Transactions b1) (Transactions b2)
  /\ Block_Hash b1 = Block_Hash b2
  /\ forall K, IsGood K b1 = IsGood K b2.
Proof.
  intros Hprev Hnonce Htxs.
  assert (Hhash : Block_Hash b1 = Block_Hash b2).
  { rewrite !Block_Hash_spec. unfold spec_block_hash, len.
    rewrite Hprev, Hnonce, (Forall2_length _ _ _ Htxs).
    do 4 f_equal. induction Htxs as [|t1 t2 l1 l2 Ht _ IH]; [done|].
    cbn [map concat]. by rewrite IH, (spec_tx_hash_same t1 t2). }
  split; [|split; [done|]].
  - eapply Forall2_impl; [exact Htxs|]. intros t1 t2 Ht.
    rewrite !TxPublish_Hash_spec. by apply spec_tx_hash_same.
  - intros K. unfold IsGood. by rewrite Hhash.
Qed.

Lemma block_hash_ignores_sizes_and_hop_limits_witness :
  PrevHash blockA_resized = PrevHash blockA
  /\ Nonce blockA_resized = Nonce blockA
  /\ Forall2 same_name_and_metafile (Transactions blockA_resized)
             (Transactions blockA)
  /\ Forall2 (fun t1 t2 => TxPublish_Hash t1 = TxPublish_Hash t2)
             (Transactions blockA_resized) (Transactions blockA)
  /\ Block_Hash blockA_resized = Block_Hash blockA
  /\ forall K, IsGood K blockA_resized = IsGood K blockA.
Proof.
  assert (H : Forall2 same_name_and_metafile (Transactions blockA_resized)
                      (Transactions blockA))
    by (repeat constructor).
  split; [reflexivity|]. split; [reflexivity|]. split; [exact H|].
  exact (block_hash_ignores_sizes_and_hop_limits blockA_resized blockA
           eq_refl eq_refl H).
Defined.

(** ** Publishing transactions and blocks *)

Lemma known_block_stays K bm bm' h :
  rtc (manager_step K) bm bm' ->
  is_Some (blocks bm !! h) -> is_Some (blocks bm' !! h).
Proof.
  induction 1 as [bm|bm bm1 bm2 Hstep _ IH]; [done|].
  intros Hknown. apply IH. destruct Hstep as [bm t|bm b bm' ok Hadd].
  - destruct (addTransaction bm t).2 eqn:Hok.
    + by apply addTransaction_accepted in Hok as (-> & _).
    + by rewrite (addTransaction_rejected _ _ Hok).
  - destruct ok; [|by rewrite (addBlock_false_inv _ _ _ _ Hadd)].
    pose proof (addBlock_true_inv _ _ _ _ Hadd)
      as (Hnew & parentNode & Hparent & Hgood).
    rewrite (addBlock_accepted K bm b parentNode) in Hadd by done.
    injection Hadd as <-.
    repeat case_decide; cbn [blocks]; apply lookup_insert_is_Some';
      by right.
Qed.

Section publishing.
Context {MessageStorage : Type}.
Implicit Types g : Gossiper MessageStorage.

Lemma processTxPublish_spec g (bm : BlockchainManager) (tx : TxPublish) :
  processTxPublish g bm tx
  = ((addTransaction bm tx).1,
     if (addTransaction bm tx).2 && bool_decide (0 < TxHopLimit tx)
     then map (fun p => (p, mkTxPublish (TxFile tx)
                              (uint32 (TxHopLimit tx - 1))))
              (peers g)
     else []).
Proof.
  unfold processTxPublish.
  destruct (addTransaction bm tx) as [bm1 [|]]; [|done]. cbn [fst snd andb].
  case_decide.
  - by rewrite bool_decide_eq_false_2 by lia.
  - by rewrite bool_decide_eq_true_2 by lia.
Qed.


Lemma addBlock_answers K bm b :
  K <= 32 -> exists bm1 ok, addBlock K bm b = Some (bm1, ok).
Proof.
  intros HK. destruct (acceptable_dec K bm b) as [(Hnew & [p Hp] & Hgood)|Hno].
  - rewrite (addBlock_accepted K bm b p) by done. by eexists _, _.
  - rewrite addBlock_rejected by done. by eexists _, _.
Qed.


End publishing.

Lemma quiet_steps_after_tx_d :
  rtc (quiet_step 2) (processTxPublish two_peers chain_A tx_d).1 chain_AD.
Proof. rewrite processTxPublish_spec. exact quiet_steps_to_chain_AD. Qed.

Lemma tx_d_is_accepted_on_chain_A :
  (addTransaction chain_A tx_d).2 && bool_decide (0 < TxHopLimit tx_d) = true.
Proof. vm_cast_no_check (eq_refl true). Qed.


Lemma chain_AB_publishes_blockC :
  processBlockPublish 2 two_peers chain_AB (mkBlockPublish blockC 5)
  = Some (chain_ABC,
          map (fun p => (p, mkBlockPublish blockC 4)) (peers two_peers)).
Proof.
  unfold processBlockPublish. cbn [BpBlock BpHopLimit].
  rewrite chain_AB_takes_blockC. reflexivity.
Qed.


(** ** Search requests answered recently *)

Section recent.
Context {MessageStorage : Type}.
Implicit Types g : Gossiper MessageStorage.
Variables shared downloaded : list string -> list SearchResult.
Variable DefaultHopLimit : Z.
Variable GetRecentSearchRequestSetKey : string -> list string -> string.

(** X12: once [processAddressedSearchRequest] has gone through a search
    request, a request with the same origin and keywords is ignored
    entirely, whatever its budget, as long as the key is in the set of the
    recent requests: nothing is answered or forwarded and no state changes.
    When the timeout has removed the key, the request is processed
    again. *)
Theorem repeated_search_request_is_ignored
  (recent recent1 : gset string) g g1 (srqmsg : SearchRequest) (budget : Z) :
  processAddressedSearchRequest shared downloaded DefaultHopLimit
    GetRecentSearchRequestSetKey recent g srqmsg = Some (recent1, g1) ->
  let setkey := GetRecentSearchRequestSetKey (SrqOrigin srqmsg) (Keywords srqmsg) in
  let again := mkSearchRequest (SrqOrigin srqmsg) budget (Keywords srqmsg) in
  setkey ∈ recent1
  /\ processAddressedSearchRequest shared downloaded DefaultHopLimit
       GetRecentSearchRequestSetKey recent1 g1 again = Some (recent1, g1)
  /\ processAddressedSearchRequest shared downloaded DefaultHopLimit
       GetRecentSearchRequestSetKey (searchRequestTimeout recent1 setkey) g1 again
     = (g2 ← processSearchRequest shared downloaded DefaultHopLimit g1 again;
        Some (recent1, g2)).
Proof.
  intros H setkey again.
  assert (Hin : setkey ∈ recent1).
  { unfold processAddressedSearchRequest in H. fold setkey in H.
    destruct (decide (setkey ∈ recent)); [by injection H as <- <-|].
    destruct (processSearchRequest _ _ _ _ _); [|done].
    injection H as <- <-. apply elem_of_union_l, elem_of_singleton. done. }
  split; [done|]. split.
  - unfold processAddressedSearchRequest. cbn [SrqOrigin Keywords again].
    fold setkey. by rewrite decide_True.
  - unfold processAddressedSearchRequest, searchRequestTimeout.
    cbn [SrqOrigin Keywords again]. fold setkey.
    rewrite decide_False by (rewrite elem_of_difference, elem_of_singleton; tauto).
    destruct (processSearchRequest _ _ _ _ _); [|done]. cbn. do 2 f_equal.
    apply set_eq. intros x.
    rewrite elem_of_union, elem_of_difference, elem_of_singleton.
    split; [intros [->|[? _]]; done|].
    intros Hx. destruct (decide (x = setkey)); [by left|by right].
Qed.

End recent.

Lemma two_peers_answer_request_X :
  processAddressedSearchRequest no_files no_files 10 comma_key ∅ two_peers
    request_X
  = Some ({[ "X,a"%string ]},
          two_peers_asked).
Proof. vm_compute. reflexivity. Qed.

Lemma repeated_search_request_is_ignored_witness :
  processAddressedSearchRequest no_files no_files 10 comma_key ∅ two_peers
    request_X
  = Some ({[ "X,a"%string ]},
          two_peers_asked)
  /\ comma_key (SrqOrigin request_X) (Keywords request_X)
     ∈ ({[ "X,a"%string ]} : gset string)
  /\ processAddressedSearchRequest no_files no_files 10 comma_key
       {[ "X,a"%string ]}
       two_peers_asked
       (mkSearchRequest (SrqOrigin request_X) 7 (Keywords request_X))
     = Some ({[ "X,a"%string ]},
             two_peers_asked)
  /\ processAddressedSearchRequest no_files no_files 10 comma_key
       (searchRequestTimeout {[ "X,a"%string ]}
          (comma_key (SrqOrigin request_X) (Keywords request_X)))
       two_peers_asked
       (mkSearchRequest (SrqOrigin request_X) 7 (Keywords request_X))
     = (g2 ← processSearchRequest no_files no_files 10
               two_peers_asked
               (mkSearchRequest (SrqOrigin request_X) 7 (Keywords request_X));
        Some ({[ "X,a"%string ]}, g2)).
Proof.
  split; [exact two_peers_answer_request_X|].
  exact (repeated_search_request_is_ignored no_files no_files 10 comma_key
           ∅ _ two_peers _ request_X 7 two_peers_answer_request_X).
Defined.

(** ** Sharing: the chunks and the metafile *)

Lemma mod_succ_zero (i c : Z) :
  0 < c -> 0 <= i -> (i + 1) mod c = 0 -> i mod c + 1 = c.
Proof.
  intros Hc Hi H. pose proof (Z.mod_pos_bound i c Hc) as Hr.
  rewrite <- Zplus_mod_idemp_l in H.
  destruct (decide (i mod c + 1 < c)); [|lia].
  rewrite Z.mod_small in H by lia. lia.
Qed.

Lemma mod_succ_nonzero (i c : Z) :
  0 < c -> 0 <= i -> (i + 1) mod c <> 0 -> (i + 1) mod c = i mod c + 1.
Proof.
  intros Hc Hi H. pose proof (Z.mod_pos_bound i c Hc) as Hr.
  rewrite <- Zplus_mod_idemp_l in H |- *.
  destruct (decide (i mod c + 1 < c)); [by rewrite Z.mod_small by lia|].
  replace (i mod c + 1) with c in H by lia. by rewrite Z_mod_same_full in H.
Qed.

Lemma split_loop_spec (c total : Z) (rest : bytes) :
  forall (i : Z) (chunks : list bytes) (cur : bytes),
  0 < c -> 0 <= i -> total = i + len rest ->
  (rest = [] -> cur = []) ->
  (rest <> [] -> len cur = i mod c) ->
  exists new,
    split_loop c total rest i chunks cur = chunks ++ new
    /\ concat new = cur ++ rest
    /\ Forall (fun ch => 0 < len ch <= c) new
    /\ (forall k ch, new !! k = Some ch -> (S k < length new)%nat -> len ch = c).
Proof.
  induction rest as [|b rest IH]; intros i chunks cur Hc Hi Htotal Hnil Hcur.
  - exists []. rewrite Hnil by done. simpl. rewrite app_nil_r.
    repeat split; [constructor|]. intros k ch Hk. by rewrite lookup_nil in Hk.
  - specialize (Hcur ltac:(done)).
    assert (Hr : 0 <= i mod c < c) by (apply Z.mod_pos_bound; lia).
    assert (Hlen : len (cur ++ [b]) = i mod c + 1).
    { unfold len in *. rewrite length_app. simpl. lia. }
    assert (Hrem : Z.rem (i + 1) c = (i + 1) mod c)
      by (apply Z.rem_mod_nonneg; lia).
    cbn [split_loop]. unfold len in Htotal. cbn [length] in Htotal.
    case_decide as Hflush.
    + destruct (IH (i + 1) (chunks ++ [cur ++ [b]]) []) as (new & Heq & Hcat & Hall & Hfull);
        [lia|lia|unfold len; lia|done| |].
      { intros Hrest. destruct Hflush as [Hflush|Hflush].
        - rewrite Hrem in Hflush. by rewrite Hflush.
        - destruct rest; [done|]. cbn [length] in Htotal. lia. }
      exists ((cur ++ [b]) :: new). rewrite Heq, <- app_assoc. split; [done|].
      split; [simpl; rewrite Hcat, <- app_assoc; done|].
      split; [constructor; [lia|done]|].
      intros [|k] ch Hk Hlast; cbn in Hk, Hlast.
      * injection Hk as <-. rewrite Hlen.
        destruct Hflush as [Hflush|Hflush].
        -- rewrite Hrem in Hflush. by apply mod_succ_zero.
        -- destruct rest as [|b' rest].
           { simpl in Hcat. destruct new as [|ch new]; [simpl in Hlast; lia|].
             apply Forall_cons in Hall as [Hch _]. simpl in Hcat.
             destruct ch; [unfold len in Hch; simpl in Hch; lia|done]. }
           cbn [length] in Htotal. lia.
      * apply (Hfull k); [done|lia].
    + assert (Hmod : (i + 1) mod c <> 0)
        by (intros H0; apply Hflush; left; by rewrite Hrem).
      assert (Hend : i + 1 <> total) by (intros H0; apply Hflush; by right).
      destruct (IH (i + 1) chunks (cur ++ [b])) as (new & Heq & Hcat & Hall & Hfull);
        [lia|lia|unfold len; lia| | |].
      { intros ->. simpl in Htotal. lia. }
      { intros _. rewrite Hlen. symmetry. by apply mod_succ_nonzero. }
      exists new. split; [done|]. split; [by rewrite Hcat, <- app_assoc|done].
Qed.

Lemma chunks_count (c : Z) (chunks : list bytes) :
  0 < c ->
  Forall (fun ch => 0 < len ch <= c) chunks ->
  (forall k ch, chunks !! k = Some ch -> (S k < length chunks)%nat -> len ch = c) ->
  len chunks = (len (concat chunks) + c - 1) / c.
Proof.
  intros Hc. induction chunks as [|ch chunks IH]; intros Hall Hfull.
  - unfold len. cbn [concat length]. symmetry. apply Z.div_small. lia.
  - apply Forall_cons in Hall as [Hch Hall].
    destruct chunks as [|ch' chunks].
    + cbn [concat]. rewrite app_nil_r. unfold len at 1. cbn [length].
      change (Z.of_nat 1) with 1.
      apply (Z.div_unique _ _ 1 (len ch - 1)); lia.
    + assert (Hlen : len ch = c) by (apply (Hfull 0%nat); [done|simpl; lia]).
      assert (Hcat : len (concat (ch :: ch' :: chunks))
                     = len (concat (ch' :: chunks)) + 1 * c).
      { cbn [concat]. unfold len in *. rewrite length_app. lia. }
      rewrite Hcat.
      replace (len (concat (ch' :: chunks)) + 1 * c + c - 1)
        with (len (concat (ch' :: chunks)) + c - 1 + 1 * c) by lia.
      rewrite Z.div_add by lia. rewrite <- IH; [unfold len; cbn [length]; lia|done|].
      intros k x Hk Hlast. apply (Hfull (S k)); [done|simpl in *; lia].
Qed.

(** X13: for a positive chunk size, the chunks that [shareFile] cuts put
    together give the file again; no chunk is empty or larger than the chunk
    size, every chunk but the last one has exactly the chunk size, and
    there are ceil(len / size) of them (none for an empty file). *)
Theorem split_chunks_cuts_the_file (FileChunkSize : Z) (fileBytes : bytes) :
  0 < FileChunkSize ->
  cuts_in_chunks FileChunkSize fileBytes (split_chunks FileChunkSize fileBytes)
  /\ (fileBytes = [] -> split_chunks FileChunkSize fileBytes = []).
Proof.
  intros Hc. split; [|by intros ->]. unfold split_chunks.
  destruct (split_loop_spec FileChunkSize (len fileBytes) fileBytes 0 [] [])
    as (new & Heq & Hcat & Hall & Hfull); [done|lia|lia|done| |].
  { intros _. by rewrite Z.mod_0_l by lia. }
  rewrite Heq. cbn [app] in *. unfold cuts_in_chunks.
  split; [done|]. split; [done|]. split; [done|].
  rewrite <- Hcat. by apply chunks_count.
Qed.

Lemma split_chunks_cuts_the_file_witness :
  0 < 4
  /\ cuts_in_chunks 4 twin_file (split_chunks 4 twin_file)
  /\ (twin_file = [] -> split_chunks 4 twin_file = []).
Proof.
  split; [lia|]. exact (split_chunks_cuts_the_file 4 twin_file eq_refl).
Defined.

Lemma hash_chunks_MetaSlice chunks sf :
  MetaSlice (hash_chunks chunks sf)
  = MetaSlice sf ++ concat (map SHA256.Sum256 chunks).
Proof.
  unfold hash_chunks. revert sf.
  induction chunks as [|c chunks IH]; intros sf; simpl.
  - by rewrite app_nil_r.
  - rewrite IH. cbn [MetaSlice]. by rewrite <- app_assoc.
Qed.

Lemma hash_chunks_SfSize chunks sf :
  SfSize (hash_chunks chunks sf) = SfSize sf.
Proof.
  unfold hash_chunks. revert sf.
  induction chunks as [|c chunks IH]; intros sf; simpl; [done|].
  by rewrite IH.
Qed.

Lemma shareFile_Some (c M : Z) (name : string) (fileBytes : bytes) :
  len fileBytes <= M ->
  shareFile c M name fileBytes
  = Some (mkSharedFile name (len fileBytes)
            (SHA256.Sum256 (concat (map SHA256.Sum256 (split_chunks c fileBytes))))
            (concat (map SHA256.Sum256 (split_chunks c fileBytes)))
            (list_to_set (map SHA256.Sum256 (split_chunks c fileBytes)))).
Proof.
  intros HM. unfold shareFile. cbn [SfSize].
  rewrite decide_False by lia. cbv zeta.
  rewrite hash_chunks_names, hash_chunks_SfSize, hash_chunks_MetaSlice,
    hash_chunks_MetaSet.
  cbn [SfName SfSize MetaSlice MetaSet app]. by rewrite (right_id_L ∅ (∪)).
Qed.

Lemma len_concat_hashes (chunks : list bytes) :
  len (concat (map SHA256.Sum256 chunks)) = 32 * len chunks.
Proof.
  unfold len. induction chunks as [|c chunks IH]; [done|].
  cbn [map concat length]. rewrite length_app, Sum256_length. lia.
Qed.

(** X14: [shareFile] refuses exactly the files larger than [MaxFileSize].
    For another file it keeps the name and the size; the metafile is the
    concatenation of the SHA-256 hashes of the chunks in the order of the
    file, 32 bytes a chunk, and the metahash is its SHA-256;
    [chunkBelongsToFile] holds of the hashes of the chunks and of nothing
    else. *)
Theorem shareFile_builds_the_metafile (FileChunkSize MaxFileSize : Z)
  (name : string) (fileBytes : bytes) :
  (shareFile FileChunkSize MaxFileSize name fileBytes = None
   <-> len fileBytes > MaxFileSize)
  /\ forall sf, shareFile FileChunkSize MaxFileSize name fileBytes = Some sf ->
       let chunks := split_chunks FileChunkSize fileBytes in
       SfName sf = name /\ SfSize sf = len fileBytes
       /\ MetaSlice sf = concat (map SHA256.Sum256 chunks)
       /\ len (MetaSlice sf) = 32 * len chunks
       /\ MetaHash sf = SHA256.Sum256 (MetaSlice sf)
       /\ forall h, chunkBelongsToFile sf h = true
                    <-> exists chunk, chunk ∈ chunks /\ h = SHA256.Sum256 chunk.
Proof.
  destruct (decide (len fileBytes > MaxFileSize)) as [Hbig|Hok].
  - assert (Hnone : shareFile FileChunkSize MaxFileSize name fileBytes = None).
    { unfold shareFile. cbn [SfSize]. by rewrite decide_True. }
    rewrite Hnone. split; [done|]. by intros sf.
  - rewrite shareFile_Some by lia. split; [split; [done|lia]|].
    intros sf [= <-] chunks. cbn [SfName SfSize MetaSlice MetaHash].
    repeat split; [apply len_concat_hashes| |].
    + unfold chunkBelongsToFile. cbn [MetaSet].
      rewrite bool_decide_eq_true, elem_of_list_to_set, list_elem_of_fmap.
      intros (chunk & -> & Hin). by exists chunk.
    + unfold chunkBelongsToFile. cbn [MetaSet].
      rewrite bool_decide_eq_true, elem_of_list_to_set, list_elem_of_fmap.
      intros (chunk & Hin & ->). by exists chunk.
Qed.

(** ** Downloading: the metafile *)

Lemma nat_mod_succ_zero (i : nat) :
  ((i + 1) mod 32 = 0 -> i mod 32 = 31)%nat.
Proof.
  intros H. apply Nat2Z.inj. apply (f_equal Z.of_nat) in H.
  rewrite Nat2Z.inj_mod in *. rewrite Nat2Z.inj_add in H.
  pose proof (mod_succ_zero (Z.of_nat i) 32). cbn in *. lia.
Qed.

Lemma nat_mod_succ_nonzero (i : nat) :
  ((i + 1) mod 32 <> 0 -> S i mod 32 = S (i mod 32))%nat.
Proof.
  intros H. apply Nat2Z.inj. rewrite Nat2Z.inj_succ, !Nat2Z.inj_mod, Nat2Z.inj_succ.
  pose proof (mod_succ_nonzero (Z.of_nat i) 32) as Hz.
  assert (Hne : (Z.of_nat i + 1) mod 32 <> 0).
  { intros H0. apply H. apply Nat2Z.inj.
    rewrite Nat2Z.inj_mod, Nat2Z.inj_add. exact H0. }
  cbn in *. unfold Z.succ. lia.
Qed.

Lemma parse_metafile_spec (rest : bytes) :
  forall (i : nat) (cur : bytes) (df : DownloadingFile) (pre : bytes),
  length cur = 32%nat ->
  (i mod 32)%nat = length pre ->
  take (length pre) cur = pre ->
  ((length pre + length rest) mod 32)%nat = 0%nat ->
  exists hs,
    concat hs = pre ++ rest
    /\ Forall (fun h => length h = 32%nat) hs
    /\ parse_metafile rest i cur df
       = mkDownloadingFile (DfName df) (DfMetaHash df) (Metafile df)
           (ChunksHashesSlice df ++ hs)
           (list_to_set hs ∪ ChunksHashesSet df)
           (list_to_set hs ∪ ChunksToDownload df).
Proof.
  induction rest as [|b rest IH]; intros i cur df pre Hcur Hi Htake Hlen.
  - assert (Hpre : pre = []).
    { pose proof (Nat.mod_upper_bound i 32 ltac:(lia)) as Hlt.
      rewrite Nat.add_0_r, Nat.mod_small in Hlen by lia.
      by destruct pre. }
    subst pre. exists []. split; [done|]. split; [constructor|].
    destruct df. cbn. by rewrite app_nil_r, !(left_id_L ∅ (∪)).
  - pose proof (Nat.mod_upper_bound i 32 ltac:(lia)) as Hlt.
    assert (Hins : take (S (length pre)) (<[(i mod 32)%nat := b]> cur) = pre ++ [b]).
    { rewrite Hi. erewrite take_S_r; [|apply list_lookup_insert_eq; lia].
      rewrite take_insert_ge by lia. by rewrite Htake. }
    cbn [parse_metafile]. case_decide as Hfull.
    + apply nat_mod_succ_zero in Hfull as H31.
      assert (Hchunk : <[(i mod 32)%nat := b]> cur = pre ++ [b]).
      { rewrite <- Hins. symmetry. apply take_ge.
        rewrite length_insert. lia. }
      rewrite Hchunk.
      destruct (IH (S i) (pre ++ [b])
                  (mkDownloadingFile (DfName df) (DfMetaHash df) (Metafile df)
                     (ChunksHashesSlice df ++ [pre ++ [b]])
                     ({[ pre ++ [b] ]} ∪ ChunksHashesSet df)
                     ({[ pre ++ [b] ]} ∪ ChunksToDownload df)) [])
        as (hs & Hcat & Hall & Heq).
      { rewrite length_app. simpl. lia. }
      { replace (S i) with (i + 1)%nat by lia. by rewrite Hfull. }
      { done. }
      { cbn [length] in *.
        replace (length pre + S (length rest))%nat
          with (length rest + 1 * 32)%nat in Hlen by lia.
        by rewrite Nat.Div0.mod_add in Hlen. }
      exists ((pre ++ [b]) :: hs). split; [simpl; by rewrite Hcat, <- app_assoc|].
      split; [constructor; [rewrite length_app; simpl; lia|done]|].
      rewrite Heq. cbn. f_equal.
      * by rewrite <- app_assoc.
      * apply set_eq. intros x. rewrite !elem_of_union. tauto.
      * apply set_eq. intros x. rewrite !elem_of_union. tauto.
    + apply nat_mod_succ_nonzero in Hfull as Hsucc.
      destruct (IH (S i) (<[(i mod 32)%nat := b]> cur) df (pre ++ [b]))
        as (hs & Hcat & Hall & Heq).
      { by rewrite length_insert. }
      { rewrite Hsucc, Hi, length_app. simpl. lia. }
      { rewrite length_app. simpl. rewrite Nat.add_1_r. exact Hins. }
      { rewrite length_app. cbn [length] in *.
        replace (length pre + 1 + length rest)%nat
          with (length pre + S (length rest))%nat by lia.
        exact Hlen. }
      exists hs. split; [by rewrite Hcat, <- app_assoc|done].
Qed.

Lemma rem_32_nat (l : bytes) :
  Z.rem (len l) 32 = 0 -> (length l mod 32)%nat = 0%nat.
Proof.
  intros H. apply Nat2Z.inj. rewrite Nat2Z.inj_mod.
  rewrite Z.rem_mod_nonneg in H by (unfold len; lia). exact H.
Qed.

Lemma gotMetafile_spec (df : DownloadingFile) (hashValue metafile : bytes) :
  Z.rem (len metafile) 32 = 0 -> hashValue = DfMetaHash df ->
  exists hs,
    concat hs = metafile
    /\ Forall (fun h => length h = 32%nat) hs
    /\ gotMetafile df hashValue metafile
       = mkDownloadingFile (DfName df) (DfMetaHash df) (Some metafile) hs
           (list_to_set hs) (list_to_set hs).
Proof.
  intros Hrem Hhash. unfold gotMetafile.
  rewrite decide_False by (intros [?|?]; done).
  destruct (parse_metafile_spec metafile 0 (replicate 32 0)
              (mkDownloadingFile (DfName df) (DfMetaHash df) (Some metafile) [] ∅ ∅) [])
    as (hs & Hcat & Hall & Heq); [done|done|done|by apply rem_32_nat|].
  exists hs. split; [done|]. split; [done|].
  rewrite Heq. cbn. by rewrite !(right_id_L ∅ (∪)).
Qed.

Lemma concat_32_inj (hs1 hs2 : list bytes) :
  Forall (fun h => length h = 32%nat) hs1 ->
  Forall (fun h => length h = 32%nat) hs2 ->
  concat hs1 = concat hs2 -> hs1 = hs2.
Proof.
  intros H1. revert hs2. induction H1 as [|h1 hs1 Hh1 _ IH]; intros hs2 H2 Heq.
  - destruct H2 as [|h2 hs2 Hh2 _]; [done|].
    cbn in Heq. destruct h2; [done|discriminate].
  - destruct H2 as [|h2 hs2 Hh2 H2].
    { cbn in Heq. destruct h1; [done|discriminate]. }
    cbn [concat] in Heq. apply app_inj_1 in Heq as [-> Heq]; [|congruence].
    f_equal. by apply IH.
Qed.

(** X15: when [gotMetafile] is given the metahash of the download and a
    metafile whose length is a multiple of 32, it keeps the metafile and
    cuts it in hashes of 32 bytes: the slice of the hashes put together is
    the metafile again, and both sets hold the hashes of the slice.  A
    metafile that is the concatenation of 32-byte hashes gives back these
    hashes, in their order. *)
Theorem gotMetafile_parses_the_metafile (df : DownloadingFile)
  (hashValue metafile : bytes) :
  Z.rem (len metafile) 32 = 0 -> hashValue = DfMetaHash df ->
  let df' := gotMetafile df hashValue metafile in
  DfName df' = DfName df /\ DfMetaHash df' = DfMetaHash df
  /\ Metafile df' = Some metafile
  /\ concat (ChunksHashesSlice df') = metafile
  /\ Forall (fun h => length h = 32%nat) (ChunksHashesSlice df')
  /\ ChunksHashesSet df' = list_to_set (ChunksHashesSlice df')
  /\ ChunksToDownload df' = list_to_set (ChunksHashesSlice df')
  /\ forall hs, Forall (fun h => length h = 32%nat) hs -> metafile = concat hs ->
                ChunksHashesSlice df' = hs.
Proof.
  intros Hrem Hhash df'.
  destruct (gotMetafile_spec df hashValue metafile Hrem Hhash)
    as (hs & Hcat & Hall & Heq).
  unfold df'. rewrite Heq. cbn. repeat split; try done.
  intros hs' Hall' ->. by apply concat_32_inj.
Qed.

Lemma gotMetafile_parses_the_metafile_witness :
  Z.rem (len (replicate 32 1 ++ replicate 32 2)) 32 = 0
  /\ replicate 32 7 = DfMetaHash waiting_download
  /\ ChunksHashesSlice
       (gotMetafile waiting_download (replicate 32 7)
          (replicate 32 1 ++ replicate 32 2))
     = [replicate 32 1; replicate 32 2].
Proof.
  split; [reflexivity|]. split; [reflexivity|].
  apply (gotMetafile_parses_the_metafile waiting_download (replicate 32 7)
           (replicate 32 1 ++ replicate 32 2) eq_refl eq_refl).
  - repeat constructor.
  - cbn [concat]. by rewrite app_nil_r.
Defined.

(** ** Downloading: from the shared file to the download *)

Lemma typed_hash_of_Sum256 (data : bytes) :
  GetTypeStrictHash (SHA256.Sum256 data) = Some (SHA256.Sum256 data).
Proof. unfold GetTypeStrictHash. by rewrite decide_True by apply Sum256_length. Qed.

Lemma ProcessDataReply_valid (df : DownloadingFile) (r : DataReply) :
  SHA256.Sum256 (Data r) = HashValue r ->
  ProcessDataReply df r
  = match Metafile df with
    | None => (gotMetafile df (HashValue r) (Data r), Some false)
    | Some _ =>
        if decide (HashValue r ∉ ChunksToDownload df) then (df, None)
        else
          let df := mkDownloadingFile (DfName df) (DfMetaHash df)
                      (Metafile df) (ChunksHashesSlice df)
                      (ChunksHashesSet df)
                      (ChunksToDownload df ∖ {[ HashValue r ]}) in
          if decide (size (ChunksToDownload df) = 0%nat) then (df, Some true)
          else (df, Some false)
    end.
Proof.
  intros Hhash. unfold ProcessDataReply.
  rewrite <- Hhash, typed_hash_of_Sum256.
  by rewrite decide_False by (intros H; by apply H).
Qed.

Lemma Forall_Sum256_length (chunks : list bytes) :
  Forall (fun h => length h = 32%nat) (map SHA256.Sum256 chunks).
Proof. apply Forall_map, Forall_forall. intros x _. apply Sum256_length. Qed.

Lemma rem_32_concat_hashes (chunks : list bytes) :
  Z.rem (len (concat (map SHA256.Sum256 chunks))) 32 = 0.
Proof.
  rewrite len_concat_hashes, Z.mul_comm. apply Z.rem_mul. lia.
Qed.

(** X16: the metafile of a shared file starts its download.  When
    [shareFile] has made [sf] from a file, a download started for the
    metahash of [sf] takes the reply that carries the metafile of [sf]
    (result: not finished), and then knows the hashes of the chunks of the
    file, in the order of the file, and waits for each of them. *)
Theorem shared_metafile_starts_the_download (FileChunkSize MaxFileSize : Z)
  (name name' origin destination : string) (hopLimit : Z)
  (fileBytes : bytes) (sf : sharedFile) :
  shareFile FileChunkSize MaxFileSize name fileBytes = Some sf ->
  let chunks := split_chunks FileChunkSize fileBytes in
  exists df,
    ProcessDataReply (InitDownloadingFile name' (MetaHash sf))
      (mkDataReply origin destination hopLimit (MetaHash sf) (MetaSlice sf))
    = (df, Some false)
    /\ DfName df = name' /\ DfMetaHash df = MetaHash sf
    /\ Metafile df = Some (MetaSlice sf)
    /\ ChunksHashesSlice df = map SHA256.Sum256 chunks
    /\ ChunksHashesSet df = MetaSet sf
    /\ ChunksToDownload df = MetaSet sf
    /\ forall chunk, chunk ∈ chunks -> SHA256.Sum256 chunk ∈ ChunksToDownload df.
Proof.
  intros Hsf chunks.
  assert (HM : len fileBytes <= MaxFileSize).
  { unfold shareFile in Hsf. cbn [SfSize] in Hsf.
    destruct (decide (len fileBytes > MaxFileSize)); [done|lia]. }
  rewrite shareFile_Some in Hsf by done. injection Hsf as <-.
  cbn [MetaHash MetaSlice MetaSet]. fold chunks.
  rewrite ProcessDataReply_valid by done. unfold InitDownloadingFile.
  cbn [Metafile HashValue Data].
  destruct (gotMetafile_spec
              (mkDownloadingFile name'
                 (SHA256.Sum256 (concat (map SHA256.Sum256 chunks))) None [] ∅ ∅)
              (SHA256.Sum256 (concat (map SHA256.Sum256 chunks)))
              (concat (map SHA256.Sum256 chunks)))
    as (hs & Hcat & Hall & Heq); [apply rem_32_concat_hashes|done|].
  apply concat_32_inj in Hcat; [|done|apply Forall_Sum256_length]. subst hs.
  eexists. split; [by rewrite Heq|]. cbn.
  repeat split; try done.
  intros chunk Hin. apply elem_of_list_to_set, list_elem_of_fmap. by exists chunk.
Qed.

Lemma shared_metafile_starts_the_download_witness :
  shareFile 4 100 "abc.txt" twin_file = Some twin_shared
  /\ exists df,
       ProcessDataReply (InitDownloadingFile "copy.txt" (MetaHash twin_shared))
         (mkDataReply "X" "me" 10 (MetaHash twin_shared) (MetaSlice twin_shared))
       = (df, Some false)
       /\ DfName df = "copy.txt"%string /\ DfMetaHash df = MetaHash twin_shared
       /\ Metafile df = Some (MetaSlice twin_shared)
       /\ ChunksHashesSlice df = map SHA256.Sum256 (split_chunks 4 twin_file)
       /\ ChunksHashesSet df = MetaSet twin_shared
       /\ ChunksToDownload df = MetaSet twin_shared
       /\ forall chunk, chunk ∈ split_chunks 4 twin_file ->
                        SHA256.Sum256 chunk ∈ ChunksToDownload df.
Proof.
  assert (H : shareFile 4 100 "abc.txt" twin_file = Some twin_shared)
    by (vm_cast_no_check (eq_refl (Some twin_shared))).
  split; [exact H|].
  exact (shared_metafile_starts_the_download 4 100 "abc.txt" "copy.txt" "X" "me"
           10 twin_file twin_shared H).
Defined.

(** What the examples are, computed once. *)
Lemma twin_download_metafile :
  Metafile twin_download = Some (MetaSlice twin_shared).
Proof. vm_cast_no_check (eq_refl (Some (MetaSlice twin_shared))). Qed.

Lemma twin_chunk_reply_hash :
  SHA256.Sum256 (Data twin_chunk_reply) = HashValue twin_chunk_reply.
Proof. exact_no_check (eq_refl (SHA256.Sum256 [1; 2; 3; 4])). Qed.

Lemma stray_reply_hash :
  SHA256.Sum256 (Data stray_reply) = HashValue stray_reply.
Proof. exact_no_check (eq_refl (SHA256.Sum256 [1; 2; 3])). Qed.

Lemma twin_download_waits :
  ChunksToDownload twin_download = {[ HashValue twin_chunk_reply ]}.
Proof.
  vm_cast_no_check (eq_refl ({[ HashValue twin_chunk_reply ]} : gset bytes)).
Qed.

Lemma twin_download_hashes :
  ChunksHashesSet twin_download = {[ HashValue twin_chunk_reply ]}.
Proof.
  vm_cast_no_check (eq_refl ({[ HashValue twin_chunk_reply ]} : gset bytes)).
Qed.

Lemma twin_chunk_is_not_the_metafile :
  HashValue twin_chunk_reply <> DfMetaHash twin_download.
Proof. vm_compute. discriminate. Qed.

(** ** Downloading: the chunks *)

(** X17: a reply that carries a chunk the download still waits for is
    taken: its hash leaves the hashes to download and nothing else changes;
    the result is true exactly when it was the last one.  The same chunk
    coming a second time is an error ([nil]) and changes nothing. *)
Theorem ProcessDataReply_takes_a_missing_chunk_once (df : DownloadingFile)
  (r : DataReply) (metafile : bytes) :
  Metafile df = Some metafile ->
  SHA256.Sum256 (Data r) = HashValue r ->
  HashValue r ∈ ChunksToDownload df ->
  let after := mkDownloadingFile (DfName df) (DfMetaHash df) (Metafile df)
                 (ChunksHashesSlice df) (ChunksHashesSet df)
                 (ChunksToDownload df ∖ {[ HashValue r ]}) in
  ProcessDataReply df r
  = (after, Some (bool_decide (ChunksToDownload df = {[ HashValue r ]})))
  /\ forall r', HashValue r' = HashValue r ->
                ProcessDataReply after r' = (after, None).
Proof.
  intros Hmeta Hhash Hin after. split.
  - rewrite ProcessDataReply_valid by done. rewrite Hmeta.
    rewrite decide_False by (intros H; by apply H).
    cbv zeta. cbn [ChunksToDownload]. rewrite <- Hmeta. fold after.
    case_decide as Hsize.
    + apply size_empty_inv in Hsize. rewrite bool_decide_eq_true_2; [done|].
      apply set_eq. intros x. rewrite elem_of_singleton. split.
      * intros Hx. destruct (decide (x = HashValue r)); [done|].
        exfalso. apply (not_elem_of_empty (C := gset bytes) x).
        rewrite <- Hsize. apply elem_of_difference.
        by rewrite elem_of_singleton.
      * by intros ->.
    + rewrite bool_decide_eq_false_2; [done|]. intros Heq. apply Hsize.
      rewrite Heq. by rewrite difference_diag_L, size_empty.
  - intros r' Hr'.
    destruct (decide (SHA256.Sum256 (Data r') = HashValue r')) as [Hok|Hbad].
    + rewrite ProcessDataReply_valid by done. subst after.
      cbn [Metafile ChunksToDownload]. rewrite Hmeta.
      rewrite decide_True; [done|].
      rewrite Hr', elem_of_difference, elem_of_singleton. tauto.
    + unfold ProcessDataReply.
      destruct (GetTypeStrictHash (HashValue r')) as [h|] eqn:Hh; [|done].
      unfold GetTypeStrictHash in Hh. case_decide; [|done].
      injection Hh as <-. by rewrite decide_True.
Qed.

Lemma ProcessDataReply_takes_a_missing_chunk_once_witness :
  Metafile twin_download = Some (MetaSlice twin_shared)
  /\ SHA256.Sum256 (Data twin_chunk_reply) = HashValue twin_chunk_reply
  /\ HashValue twin_chunk_reply ∈ ChunksToDownload twin_download
  /\ ProcessDataReply twin_download twin_chunk_reply
     = (mkDownloadingFile (DfName twin_download) (DfMetaHash twin_download)
          (Metafile twin_download) (ChunksHashesSlice twin_download)
          (ChunksHashesSet twin_download)
          (ChunksToDownload twin_download ∖ {[ HashValue twin_chunk_reply ]}),
        Some (bool_decide (ChunksToDownload twin_download
                           = {[ HashValue twin_chunk_reply ]})))
  /\ bool_decide (ChunksToDownload twin_download
                  = {[ HashValue twin_chunk_reply ]}) = true.
Proof.
  assert (H3 : HashValue twin_chunk_reply ∈ ChunksToDownload twin_download).
  { rewrite twin_download_waits. by apply elem_of_singleton. }
  split; [exact twin_download_metafile|].
  split; [exact twin_chunk_reply_hash|]. split; [exact H3|].
  split.
  - exact (proj1 (ProcessDataReply_takes_a_missing_chunk_once twin_download
                    twin_chunk_reply _ twin_download_metafile
                    twin_chunk_reply_hash H3)).
  - apply bool_decide_eq_true_2, twin_download_waits.
Defined.

Lemma getDataRequest_None (pick : nat) (df : DownloadingFile) :
  getDataRequest pick df = None <-> ChunksToDownload df = ∅.
Proof.
  unfold getDataRequest. split.
  - intros H. apply leibniz_equiv, elements_empty_inv.
    destruct (elements (ChunksToDownload df)) as [|h keys] eqn:Hkeys; [done|].
    apply lookup_ge_None in H.
    pose proof (Nat.mod_upper_bound pick (length (h :: keys)) ltac:(done)).
    lia.
  - intros ->. by rewrite elements_empty.
Qed.

Lemma no_missing_chunk_rejects_all (df : DownloadingFile) (metafile : bytes)
  (r : DataReply) :
  Metafile df = Some metafile -> ChunksToDownload df = ∅ ->
  ProcessDataReply df r = (df, None).
Proof.
  intros Hmeta Hempty. unfold ProcessDataReply.
  destruct (GetTypeStrictHash (HashValue r)) as [h|]; [|done].
  case_decide; [done|]. rewrite Hmeta, Hempty.
  by rewrite decide_True by apply not_elem_of_empty.
Qed.

(** X18: while the metafile is awaited, a reply whose data hashes to its
    hash value but which is not the metafile of the download (another hash
    than the metahash, or a length that is no multiple of 32) is not
    reported as an error: the result is false, not [nil], the record stays
    as it was, and there is still no chunk to request. *)
Theorem ProcessDataReply_wrong_metafile_is_not_an_error (df : DownloadingFile)
  (r : DataReply) :
  Metafile df = None -> ChunksToDownload df = ∅ ->
  SHA256.Sum256 (Data r) = HashValue r ->
  HashValue r <> DfMetaHash df \/ Z.rem (len (Data r)) 32 <> 0 ->
  ProcessDataReply df r = (df, Some false)
  /\ forall pick, getDataRequest pick df = None.
Proof.
  intros Hmeta Hempty Hhash Hwrong. split.
  - rewrite ProcessDataReply_valid by done. rewrite Hmeta.
    unfold gotMetafile. by rewrite decide_True by tauto.
  - intros pick. by apply getDataRequest_None.
Qed.

Lemma ProcessDataReply_wrong_metafile_is_not_an_error_witness :
  Metafile waiting_download = None
  /\ ChunksToDownload waiting_download = ∅
  /\ SHA256.Sum256 (Data stray_reply) = HashValue stray_reply
  /\ (HashValue stray_reply <> DfMetaHash waiting_download
      \/ Z.rem (len (Data stray_reply)) 32 <> 0)
  /\ ProcessDataReply waiting_download stray_reply
     = (waiting_download, Some false)
  /\ forall pick, getDataRequest pick waiting_download = None.
Proof.
  assert (H : HashValue stray_reply <> DfMetaHash waiting_download
              \/ Z.rem (len (Data stray_reply)) 32 <> 0)
    by (right; vm_compute; discriminate).
  split; [reflexivity|]. split; [reflexivity|].
  split; [exact stray_reply_hash|]. split; [exact H|].
  exact (ProcessDataReply_wrong_metafile_is_not_an_error waiting_download
           stray_reply eq_refl eq_refl stray_reply_hash H).
Defined.

(** X19: an empty file can be shared, and its download never finishes.
    [shareFile] makes a shared file with an empty metafile; the download
    takes this metafile (result: not finished) and then has no chunk to
    request, and every later reply is an error that changes nothing: no
    reply ever gives the result true. *)
Theorem download_of_an_empty_file_never_finishes (FileChunkSize MaxFileSize : Z)
  (name name' origin destination : string) (hopLimit : Z) :
  0 <= MaxFileSize ->
  exists sf df,
    shareFile FileChunkSize MaxFileSize name [] = Some sf
    /\ MetaSlice sf = []
    /\ ProcessDataReply (InitDownloadingFile name' (MetaHash sf))
         (mkDataReply origin destination hopLimit (MetaHash sf) (MetaSlice sf))
       = (df, Some false)
    /\ Metafile df = Some []
    /\ (forall pick, getDataRequest pick df = None)
    /\ forall r, ProcessDataReply df r = (df, None).
Proof.
  intros HM.
  exists (mkSharedFile name 0 (SHA256.Sum256 []) [] ∅),
         (mkDownloadingFile name' (SHA256.Sum256 []) (Some []) [] ∅ ∅).
  split; [by rewrite shareFile_Some by (unfold len; simpl; lia)|].
  split; [done|]. cbn [MetaHash MetaSlice].
  split.
  { rewrite ProcessDataReply_valid by (cbn [Data HashValue]; reflexivity).
    unfold InitDownloadingFile. cbn [Metafile HashValue Data].
    destruct (gotMetafile_spec
                (mkDownloadingFile name' (SHA256.Sum256 []) None [] ∅ ∅)
                (SHA256.Sum256 []) [])
      as (hs & Hcat & Hall & Heq);
      [reflexivity|cbn [DfMetaHash]; reflexivity|].
    rewrite Heq. cbn [DfName DfMetaHash].
    destruct hs as [|h hs]; [done|].
    apply Forall_cons in Hall as [Hh _].
    destruct h; [discriminate Hh|discriminate Hcat]. }
  split; [done|]. split.
  - intros pick. by apply getDataRequest_None.
  - intros r. by apply (no_missing_chunk_rejects_all _ []).
Qed.

Lemma download_of_an_empty_file_never_finishes_witness :
  0 <= 100
  /\ exists sf df,
       shareFile 4 100 "empty.txt" [] = Some sf
       /\ MetaSlice sf = []
       /\ ProcessDataReply (InitDownloadingFile "copy.txt" (MetaHash sf))
            (mkDataReply "X" "me" 10 (MetaHash sf) (MetaSlice sf))
          = (df, Some false)
       /\ Metafile df = Some []
       /\ (forall pick, getDataRequest pick df = None)
       /\ forall r, ProcessDataReply df r = (df, None).
Proof.
  split; [lia|].
  apply (download_of_an_empty_file_never_finishes 4 100 "empty.txt" "copy.txt"
           "X" "me" 10).
  lia.
Defined.

(** X20: a chunk of a download is served to others from the moment its
    reply has been taken, not before.  For a hash the download still waits
    for, [getChunkOrMetafile] answers [nil] whatever is on disk; once
    [ProcessDataReply] has taken the reply with this chunk, it answers with
    the chunk file; the metafile is served before and after. *)
Theorem chunk_is_served_once_it_is_downloaded
  (readChunk : bytes -> option bytes) (df : DownloadingFile) (r : DataReply)
  (metafile : bytes) :
  Metafile df = Some metafile ->
  SHA256.Sum256 (Data r) = HashValue r ->
  HashValue r ∈ ChunksToDownload df ->
  HashValue r ∈ ChunksHashesSet df ->
  HashValue r <> DfMetaHash df ->
  getChunkOrMetafile readChunk df (HashValue r) = None
  /\ getChunkOrMetafile readChunk (ProcessDataReply df r).1 (HashValue r)
     = readChunk (HashValue r)
  /\ getChunkOrMetafile readChunk df (DfMetaHash df) = Some metafile
  /\ getChunkOrMetafile readChunk (ProcessDataReply df r).1 (DfMetaHash df)
     = Some metafile.
Proof.
  intros Hmeta Hhash Htodo Hset Hne.
  assert (Hafter : (ProcessDataReply df r).1
                   = mkDownloadingFile (DfName df) (DfMetaHash df) (Metafile df)
                       (ChunksHashesSlice df) (ChunksHashesSet df)
                       (ChunksToDownload df ∖ {[ HashValue r ]})).
  { rewrite ProcessDataReply_valid by done. rewrite Hmeta.
    rewrite decide_False by (intros H; by apply H). cbv zeta.
    by case_decide. }
  rewrite Hafter. unfold getChunkOrMetafile, fileHasDownloadedChunk.
  cbn [DfMetaHash Metafile ChunksHashesSet ChunksToDownload]. rewrite Hmeta.
  rewrite !(decide_False (P := HashValue r = DfMetaHash df)) by done.
  rewrite !(decide_True (P := DfMetaHash df = DfMetaHash df)) by done.
  rewrite (bool_decide_eq_false_2 (DfMetaHash df = HashValue r)) by congruence.
  rewrite (bool_decide_eq_true_2 (HashValue r ∈ ChunksHashesSet df)) by done.
  rewrite (bool_decide_eq_true_2 (HashValue r ∈ ChunksToDownload df)) by done.
  rewrite (bool_decide_eq_false_2
             (HashValue r ∈ ChunksToDownload df ∖ {[ HashValue r ]}))
    by (rewrite elem_of_difference, elem_of_singleton; tauto).
  done.
Qed.

Lemma chunk_is_served_once_it_is_downloaded_witness :
  Metafile twin_download = Some (MetaSlice twin_shared)
  /\ SHA256.Sum256 (Data twin_chunk_reply) = HashValue twin_chunk_reply
  /\ HashValue twin_chunk_reply ∈ ChunksToDownload twin_download
  /\ HashValue twin_chunk_reply ∈ ChunksHashesSet twin_download
  /\ HashValue twin_chunk_reply <> DfMetaHash twin_download
  /\ getChunkOrMetafile no_chunk_files twin_download (HashValue twin_chunk_reply)
     = None
  /\ getChunkOrMetafile no_chunk_files
       (ProcessDataReply twin_download twin_chunk_reply).1
       (HashValue twin_chunk_reply)
     = no_chunk_files (HashValue twin_chunk_reply)
  /\ getChunkOrMetafile no_chunk_files twin_download (DfMetaHash twin_download)
     = Some (MetaSlice twin_shared)
  /\ getChunkOrMetafile no_chunk_files
       (ProcessDataReply twin_download twin_chunk_reply).1
       (DfMetaHash twin_download)
     = Some (MetaSlice twin_shared).
Proof.
  assert (H3 : HashValue twin_chunk_reply ∈ ChunksToDownload twin_download).
  { rewrite twin_download_waits. by apply elem_of_singleton. }
  assert (H4 : HashValue twin_chunk_reply ∈ ChunksHashesSet twin_download).
  { rewrite twin_download_hashes. by apply elem_of_singleton. }
  split; [exact twin_download_metafile|].
  split; [exact twin_chunk_reply_hash|]. split; [exact H3|].
  split; [exact H4|]. split; [exact twin_chunk_is_not_the_metafile|].
  exact (chunk_is_served_once_it_is_downloaded no_chunk_files twin_download
           twin_chunk_reply _ twin_download_metafile twin_chunk_reply_hash
           H3 H4 twin_chunk_is_not_the_metafile).
Defined.

(** X21: [getDataRequest] answers [nil] exactly when no chunk is left to
    download, whatever the order of the map; a hash it names is one the
    download waits for, so that, once the metafile is there, the reply
    that carries the data of this hash is taken without error. *)
Theorem getDataRequest_names_a_missing_chunk (pick : nat) (df : DownloadingFile) :
  (getDataRequest pick df = None <-> ChunksToDownload df = ∅)
  /\ forall h, getDataRequest pick df = Some h ->
       h ∈ ChunksToDownload df
       /\ forall r, is_Some (Metafile df) -> HashValue r = h ->
                    SHA256.Sum256 (Data r) = h ->
                    is_Some (ProcessDataReply df r).2.
Proof.
  split; [apply getDataRequest_None|].
  intros h Hget.
  assert (Hin : h ∈ ChunksToDownload df).
  { unfold getDataRequest in Hget. apply list_elem_of_lookup_2 in Hget.
    by apply elem_of_elements in Hget. }
  split; [done|]. intros r [m Hmeta] Hr Hhash. subst h.
  rewrite ProcessDataReply_valid by done. rewrite Hmeta.
  rewrite decide_False by (intros H; by apply H). cbv zeta.
  by case_decide.
Qed.

(** ** Downloading: the record stays consistent *)

(** X22: the record of a download is consistent when it is made, and
    [ProcessDataReply] keeps it so, whatever the reply: without a metafile
    no chunk hash is known; with one, the hashes of the slice put together
    are the metafile, each is 32 bytes long, the set holds the hashes of the
    slice, and the hashes to download are among them. *)
Theorem ProcessDataReply_keeps_the_download_consistent (df : DownloadingFile)
  (r : DataReply) :
  download_ok df ->
  download_ok (ProcessDataReply df r).1
  /\ forall name metahash, download_ok (InitDownloadingFile name metahash).
Proof.
  intros Hok. split; [|done].
  unfold ProcessDataReply.
  destruct (GetTypeStrictHash (HashValue r)) as [h|]; [|done].
  case_decide as Hhash; [done|].
  destruct (Metafile df) as [m|] eqn:Hmeta.
  - case_decide; [done|]. cbv zeta. unfold download_ok in Hok. rewrite Hmeta in Hok.
    destruct Hok as (Hcat & Hall & Hset & Hsub).
    assert (Hgoal : download_ok
                      (mkDownloadingFile (DfName df) (DfMetaHash df) (Some m)
                         (ChunksHashesSlice df) (ChunksHashesSet df)
                         (ChunksToDownload df ∖ {[ h ]}))).
    { unfold download_ok. cbn. repeat split; try done.
      intros x Hx. apply Hsub. apply elem_of_difference in Hx. tauto. }
    by case_decide.
  - cbn [fst]. unfold gotMetafile. case_decide as Hwrong; [done|].
    destruct (gotMetafile_spec df h (Data r)) as (hs & Hcat & Hall & Heq).
    { destruct (decide (Z.rem (len (Data r)) 32 = 0)); [done|].
      exfalso. apply Hwrong. by left. }
    { destruct (decide (h = DfMetaHash df)); [done|].
      exfalso. apply Hwrong. by right. }
    unfold gotMetafile in Heq. rewrite decide_False in Heq by done.
    rewrite Heq. unfold download_ok. cbn. done.
Qed.

Lemma ProcessDataReply_keeps_the_download_consistent_witness :
  download_ok (InitDownloadingFile "copy.txt" (MetaHash twin_shared))
  /\ download_ok twin_download.
Proof.
  assert (H : download_ok (InitDownloadingFile "copy.txt" (MetaHash twin_shared)))
    by done.
  split; [exact H|].
  exact (proj1 (ProcessDataReply_keeps_the_download_consistent
                  (InitDownloadingFile "copy.txt" (MetaHash twin_shared))
                  (mkDataReply "X" "me" 10 (MetaHash twin_shared)
                     (MetaSlice twin_shared)) H)).
Defined.

(** ** The full matches of a search *)

Lemma AddFullMatch_spec (csr : CurrentSearchRequest) (m : FullSearchMatch) :
  AddFullMatch csr m
  = if decide (match_key m ∈ map match_key (fullMatches csr)) then csr
    else mkCurrentSearchRequest (fullMatches csr ++ [m]) (isAlive csr).
Proof.
  unfold AddFullMatch.
  destruct (existsb _ (fullMatches csr)) eqn:Hex.
  - apply existsb_exists in Hex as (other & Hin & Hkey).
    apply bool_decide_eq_true in Hkey as [Ho Hh].
    rewrite decide_True; [done|].
    apply list_elem_of_fmap. exists other.
    split; [unfold match_key; congruence|by apply list_elem_of_In].
  - rewrite decide_False; [done|].
    intros (other & Hkey & Hin)%list_elem_of_fmap.
    apply not_true_iff_false in Hex. apply Hex, existsb_exists.
    exists other. split; [by apply list_elem_of_In|].
    apply bool_decide_eq_true. unfold match_key in Hkey.
    by injection Hkey as -> ->.
Qed.

Lemma AddFullMatch_distinct (csr : CurrentSearchRequest) (m : FullSearchMatch) :
  distinct_matches csr -> distinct_matches (AddFullMatch csr m).
Proof.
  intros Hd. rewrite AddFullMatch_spec. case_decide as Hin; [done|].
  unfold distinct_matches. cbn [fullMatches]. rewrite map_app.
  apply NoDup_app. split; [done|]. split; [|apply NoDup_singleton].
  intros k Hk ->%list_elem_of_singleton. done.
Qed.

(** X23: [AddFullMatch] keeps the full matches of a search distinct by
    origin and metafile hash.  After it the match is known under its
    origin and hash, a match with the same origin and hash (whatever its
    filename) changes nothing, the number of matches has grown by one at
    most, and the search is alive as before. *)
Theorem AddFullMatch_keeps_matches_distinct (csr : CurrentSearchRequest)
  (m : FullSearchMatch) :
  distinct_matches csr ->
  let csr' := AddFullMatch csr m in
  distinct_matches csr'
  /\ match_key m ∈ map match_key (fullMatches csr')
  /\ (forall m', match_key m' = match_key m -> AddFullMatch csr' m' = csr')
  /\ GetFullMatchesNumber csr <= GetFullMatchesNumber csr'
     <= GetFullMatchesNumber csr + 1
  /\ isAlive csr' = isAlive csr.
Proof.
  intros Hd csr'.
  assert (Hknown : match_key m ∈ map match_key (fullMatches csr')).
  { unfold csr'. rewrite AddFullMatch_spec. case_decide; [done|].
    cbn [fullMatches]. rewrite map_app. apply elem_of_app. right.
    apply list_elem_of_here. }
  split; [by apply AddFullMatch_distinct|]. split; [done|]. split.
  - intros m' Hkey. rewrite AddFullMatch_spec, Hkey. by rewrite decide_True.
  - unfold csr', GetFullMatchesNumber, len. rewrite AddFullMatch_spec.
    case_decide; [split; [lia|done]|]. cbn [fullMatches isAlive].
    rewrite length_app. simpl. split; [lia|done].
Qed.

Lemma AddFullMatch_keeps_matches_distinct_witness :
  distinct_matches InitCurrentSearchRequest
  /\ forall m', match_key m' = ("X"%string, replicate 32 1) ->
       AddFullMatch
         (AddFullMatch InitCurrentSearchRequest
            (mkFullSearchMatch "X" "full.txt" (replicate 32 1))) m'
       = AddFullMatch InitCurrentSearchRequest
           (mkFullSearchMatch "X" "full.txt" (replicate 32 1)).
Proof.
  assert (H : distinct_matches InitCurrentSearchRequest) by constructor.
  split; [exact H|].
  apply (AddFullMatch_keeps_matches_distinct InitCurrentSearchRequest
           (mkFullSearchMatch "X" "full.txt" (replicate 32 1)) H).
Defined.

(** X24: the loop over the results of a search reply only appends to the
    full matches of the search.  Each match it appends stands for a result
    of the reply that has all its chunks and a metafile hash of 32 bytes,
    under the origin of the reply; every such result is known afterwards
    under its origin and hash; partial matches and results with another
    hash length add nothing; distinct matches stay distinct and the search
    stays alive or not as it was. *)
Theorem addFullMatches_counts_full_matches_only (csr : CurrentSearchRequest)
  (origin : string) (results : list SearchResult) :
  exists new,
    addFullMatches csr origin results
    = mkCurrentSearchRequest (fullMatches csr ++ new) (isAlive csr)
    /\ (forall m, m ∈ new ->
          exists res, res ∈ results /\ counted_as origin res m)
    /\ (forall res m, res ∈ results -> counted_as origin res m ->
          match_key m ∈ map match_key (fullMatches csr ++ new))
    /\ (distinct_matches csr ->
        distinct_matches (addFullMatches csr origin results)).
Proof.
  revert csr. induction results as [|res results IH]; intros csr.
  - exists []. rewrite app_nil_r. split; [by destruct csr|].
    split; [intros m Hm; by apply elem_of_nil in Hm|].
    split; [intros res m Hres; by apply elem_of_nil in Hres|done].
  - cbn [addFullMatches].
    assert (Hskip : (isFullMatch res = false
                     \/ GetTypeStrictHash (SrMetafileHash res) = None) ->
                    forall m, ~ counted_as origin res m).
    { intros Hno m (Hfull & Hlen & _). destruct Hno as [Hno|Hno]; [congruence|].
      unfold GetTypeStrictHash in Hno. by rewrite decide_True in Hno. }
    assert (Hrest : (forall m, ~ counted_as origin res m) ->
              exists new,
                addFullMatches csr origin results
                = mkCurrentSearchRequest (fullMatches csr ++ new) (isAlive csr)
                /\ (forall m, m ∈ new -> exists res0,
                       res0 ∈ res :: results /\ counted_as origin res0 m)
                /\ (forall res0 m, res0 ∈ res :: results ->
                       counted_as origin res0 m ->
                       match_key m ∈ map match_key (fullMatches csr ++ new))
                /\ (distinct_matches csr ->
                    distinct_matches (addFullMatches csr origin results))).
    { intros Hno. destruct (IH csr) as (new & Heq & Hnew & Hall & Hd).
      exists new. split; [done|]. split.
      - intros m Hm. destruct (Hnew m Hm) as (res0 & Hin & Hc).
        exists res0. split; [by apply list_elem_of_further|done].
      - split; [|done]. intros res0 m [->|Hin]%elem_of_cons Hc.
        + by destruct (Hno m).
        + by apply (Hall res0). }
    destruct (isFullMatch res) eqn:Hfull; [|apply Hrest, Hskip; by left].
    destruct (GetTypeStrictHash (SrMetafileHash res)) as [metahash|] eqn:Hhash;
      [|apply Hrest, Hskip; by right].
    assert (Hlen : length (SrMetafileHash res) = 32%nat /\ metahash = SrMetafileHash res).
    { unfold GetTypeStrictHash in Hhash. case_decide; [|done].
      by injection Hhash as <-. }
    destruct Hlen as [Hlen ->].
    set (m0 := mkFullSearchMatch origin (FileName res) (SrMetafileHash res)) in *.
    destruct (IH (AddFullMatch csr m0)) as (new & Heq & Hnew & Hall & Hd).
    destruct (decide (match_key m0 ∈ map match_key (fullMatches csr))) as [Hin|Hin].
    + rewrite AddFullMatch_spec, decide_True in Hall by done.
      exists new. split.
      { rewrite Heq, AddFullMatch_spec. by rewrite decide_True. }
      split.
      * intros m Hm. destruct (Hnew m Hm) as (res0 & Hin0 & Hc).
        exists res0. split; [by apply list_elem_of_further|done].
      * split; [|intros Hdist; by apply Hd, AddFullMatch_distinct].
        intros res0 m [->|Hin0]%elem_of_cons Hc.
        -- destruct Hc as (_ & _ & ->). fold m0. rewrite map_app.
           apply elem_of_app. by left.
        -- by apply (Hall res0).
    + rewrite AddFullMatch_spec, decide_False in Hall by done.
      cbn [fullMatches isAlive] in Hall. rewrite <- app_assoc in Hall.
      exists (m0 :: new). split.
      { rewrite Heq, AddFullMatch_spec. rewrite decide_False by done.
        cbn [fullMatches isAlive]. by rewrite <- app_assoc. }
      split.
      * intros m [->|Hm]%elem_of_cons.
        -- exists res. split; [apply list_elem_of_here|done].
        -- destruct (Hnew m Hm) as (res0 & Hin0 & Hc).
           exists res0. split; [by apply list_elem_of_further|done].
      * split; [|intros Hdist; by apply Hd, AddFullMatch_distinct].
        intros res0 m [->|Hin0]%elem_of_cons Hc.
        -- destruct Hc as (_ & _ & ->). fold m0. rewrite map_app.
           apply elem_of_app. right. apply list_elem_of_here.
        -- by apply (Hall res0).
Qed.

(** ** The end of a search *)

Section search_end.
Context {MessageStorage : Type}.
Implicit Types g : Gossiper MessageStorage.

Lemma addFullMatches_isAlive (csr : CurrentSearchRequest) (origin : string)
  (results : list SearchResult) :
  isAlive (addFullMatches csr origin results) = isAlive csr.
Proof.
  revert csr. induction results as [|res results IH]; intros csr; [done|].
  cbn [addFullMatches]. destruct (isFullMatch res); [|apply IH].
  destruct (GetTypeStrictHash (SrMetafileHash res)); [|apply IH].
  rewrite IH, AddFullMatch_spec. by case_decide.
Qed.

Lemma onReply_spec (threshold : Z) g (t : SearchTask) (srp : SearchReply)
  (csr : CurrentSearchRequest) :
  currentSearchRequest g = Some csr ->
  let csr' := addFullMatches csr (SrpOrigin srp) (Results srp) in
  onReply threshold g t srp
  = if decide (GetFullMatchesNumber csr' >= threshold)
    then Some (mkGossiper (name g) (peers g) (nextHop g) (messageStorage g)
                 (Some (Shutdown csr')) (statusesChannels g)
                 (peerMessagesToSend g) (mongeringThreads g), None)
    else Some (mkGossiper (name g) (peers g) (nextHop g) (messageStorage g)
                 (Some csr') (statusesChannels g)
                 (peerMessagesToSend g) (mongeringThreads g), Some t).
Proof.
  intros Hcsr csr'. unfold onReply, withCurrentSearchRequest.
  rewrite Hcsr. cbn [mbind option_bind currentSearchRequest]. fold csr'.
  by case_decide.
Qed.


End search_end.


(** ** The peers of the gossiper *)

Section peers.
Context {MessageStorage : Type}.
Implicit Types g : Gossiper MessageStorage.

Lemma UpdatePeersIfNeeded_spec g (peer : string) :
  UpdatePeersIfNeeded g peer
  = if decide (peer ∈ peers g) then g
    else mkGossiper (name g) (peers g ++ [peer]) (nextHop g) (messageStorage g)
           (currentSearchRequest g) (statusesChannels g)
           (peerMessagesToSend g) (mongeringThreads g).
Proof.
  unfold UpdatePeersIfNeeded. destruct (existsb _ (peers g)) eqn:Hex.
  - apply existsb_exists in Hex as (p & Hin & Hp).
    apply bool_decide_eq_true in Hp as ->.
    by rewrite decide_True by (by apply list_elem_of_In).
  - rewrite decide_False; [done|]. intros Hin.
    apply not_true_iff_false in Hex. apply Hex, existsb_exists.
    exists peer. split; [by apply list_elem_of_In|by apply bool_decide_eq_true].
Qed.

(** X26: [UpdatePeersIfNeeded] only ever appends to the peers, and keeps
    them free of duplicates: the peer is known afterwards, the peers known
    before stay where they were, nothing but the peer is added, and a
    second call for the same peer changes nothing. *)
Theorem UpdatePeersIfNeeded_keeps_peers_distinct g (peer : string) :
  NoDup (peers g) ->
  let g' := UpdatePeersIfNeeded g peer in
  NoDup (peers g')
  /\ peer ∈ peers g'
  /\ peers g `prefix_of` peers g'
  /\ (forall p, p ∈ peers g' -> p = peer \/ p ∈ peers g)
  /\ UpdatePeersIfNeeded g' peer = g'.
Proof.
  intros Hnd g'. unfold g'. rewrite UpdatePeersIfNeeded_spec.
  case_decide as Hin.
  - split; [done|]. split; [done|]. split; [done|].
    split; [by right|]. rewrite UpdatePeersIfNeeded_spec. by rewrite decide_True.
  - cbn [peers]. split.
    { apply NoDup_app. split; [done|]. split; [|apply NoDup_singleton].
      intros p Hp ->%list_elem_of_singleton. done. }
    split; [apply elem_of_app; right; apply list_elem_of_here|].
    split; [by apply prefix_app_r|]. split.
    + intros p [Hp| ->%list_elem_of_singleton]%elem_of_app; [by right|by left].
    + rewrite UpdatePeersIfNeeded_spec. cbn [peers].
      rewrite decide_True; [done|]. apply elem_of_app. right.
      apply list_elem_of_here.
Qed.

End peers.

Lemma UpdatePeersIfNeeded_keeps_peers_distinct_witness :
  NoDup (peers two_peers)
  /\ NoDup (peers (UpdatePeersIfNeeded two_peers "10.0.0.3:5000"))
  /\ UpdatePeersIfNeeded (UpdatePeersIfNeeded two_peers "10.0.0.3:5000")
       "10.0.0.3:5000"
     = UpdatePeersIfNeeded two_peers "10.0.0.3:5000".
Proof.
  assert (H : NoDup (peers two_peers)).
  { apply (bool_decide_unpack _). reflexivity. }
  split; [exact H|].
  destruct (UpdatePeersIfNeeded_keeps_peers_distinct two_peers "10.0.0.3:5000" H)
    as (H1 & _ & _ & _ & H2).
  split; [exact H1|exact H2].
Defined.

(** ** Mongering sessions *)

Section sessions.
Context {MessageStorage : Type}.
Implicit Types g : Gossiper MessageStorage.
Variable Diff : MessageStorage -> StatusPacket -> option RumorMessage * bool.
Variable GetCurrentStatusPacket : MessageStorage -> StatusPacket.

(** X27: there is one mongering session for a peer at a time.
    [spreadTheRumor] for a peer without a session sends the rumor to the
    peer, starts one goroutine and opens the session; while it is open,
    another rumor spread to the same peer is dropped without a trace; the
    next status packet of the peer goes to the goroutine and closes the
    session, as does the timeout, and the sessions are then what they were
    at the start. *)
Theorem one_mongering_session_for_a_peer g (rmsg rmsg' : RumorMessage)
  (peer : string) (sp : StatusPacket) (rnd rnd' rnd'' coin : Z) :
  peer ∉ statusesChannels g ->
  exists g1,
    spreadTheRumor g rmsg (Some peer) rnd = Some g1
    /\ peerMessagesToSend g1 = peerMessagesToSend g ++ [(peer, GpRumor rmsg)]
    /\ mongeringThreads g1 = mongeringThreads g ++ [(rmsg, peer)]
    /\ statusesChannels g1 = {[ peer ]} ∪ statusesChannels g
    /\ spreadTheRumor g1 rmsg' (Some peer) rnd' = Some g1
    /\ processAddressedStatusPacket Diff GetCurrentStatusPacket g1 sp peer rnd''
       = Some (deleteStatusesChannel g1 peer, Some sp)
    /\ (Z.rem coin 2 <> 0 ->
        mongeringTimeout g1 rmsg peer coin rnd''
        = Some (deleteStatusesChannel g1 peer))
    /\ statusesChannels (deleteStatusesChannel g1 peer) = statusesChannels g
    /\ peerMessagesToSend (deleteStatusesChannel g1 peer)
       = peerMessagesToSend g1.
Proof.
  intros Hfree. eexists. split.
  { unfold spreadTheRumor. cbn [mbind option_bind].
    by rewrite decide_False by done. }
  cbn [peerMessagesToSend mongeringThreads statusesChannels send name peers
         nextHop messageStorage currentSearchRequest].
  split; [done|]. split; [done|]. split; [done|]. split.
  { unfold spreadTheRumor. cbn [mbind option_bind statusesChannels].
    rewrite decide_True; [done|]. apply elem_of_union_l. by apply elem_of_singleton. }
  split.
  { unfold processAddressedStatusPacket. cbn [statusesChannels].
    rewrite decide_True; [done|]. apply elem_of_union_l. by apply elem_of_singleton. }
  split.
  { intros Hcoin. unfold mongeringTimeout, flipRumorMongeringCoin.
    by rewrite decide_False by done. }
  split; [|done].
  unfold deleteStatusesChannel. cbn [statusesChannels].
  apply set_eq. intros x.
  rewrite elem_of_difference, elem_of_union, elem_of_singleton.
  split; [tauto|]. intros Hx. split; [by right|]. by intros ->.
Qed.

End sessions.

Lemma one_mongering_session_for_a_peer_witness :
  (first_peer ∉ statusesChannels two_peers)
  /\ exists g1,
       spreadTheRumor two_peers rumor_X1 (Some first_peer) 0 = Some g1
       /\ peerMessagesToSend g1
          = peerMessagesToSend two_peers ++ [(first_peer, GpRumor rumor_X1)]
       /\ spreadTheRumor g1 rumor_X1 (Some first_peer) 0 = Some g1.
Proof.
  assert (H : first_peer ∉ statusesChannels two_peers)
    by apply not_elem_of_empty.
  split; [exact H|].
  destruct (one_mongering_session_for_a_peer
              (fun _ _ => (None, false)) MessageStorage.GetCurrentStatusPacket
              two_peers rumor_X1 rumor_X1 first_peer (mkStatusPacket [])
              0 0 0 1 H)
    as (g1 & H1 & H2 & _ & _ & H3 & _).
  exists g1. split; [exact H1|]. split; [exact H2|exact H3].
Defined.

(** ** A search with an explicit budget *)

(** X28: a search started with an explicit budget sends its request
    once, unless the counter overflows.  The budget is the [int] that the
    code makes of the budget of the client; for every such budget other
    than 0 and the two largest values, the first tick sends a request with
    this budget, the second one sends nothing and waits, the third one ends
    the search, and the search stays ended.  For the two largest values
    [budget++] wraps around and a later tick sends a request again, with
    the budget 2^63. *)
Theorem explicit_budget_sends_one_request
  (FileSearchStartBudget FileSearchMaxBudget : Z) (gossiperName : string)
  (keywords : list string) (budget : Z) :
  budget <> 0 ->
  - 2 ^ 63 <= budget < 2 ^ 63 ->
  let task := startFileSearchingGoroutine FileSearchStartBudget
                FileSearchMaxBudget keywords budget in
  nthTick gossiperName 0 task
  = TickSend (mkSearchRequest gossiperName (uint64 budget) keywords)
  /\ (budget <= 2 ^ 63 - 3 ->
      nthTick gossiperName 1 task = TickLinger
      /\ forall k, nthTick gossiperName (2 + k) task = TickShutdown)
  /\ (2 ^ 63 - 3 < budget ->
      exists k, (0 < k)%nat
        /\ nthTick gossiperName k task
           = TickSend (mkSearchRequest gossiperName (2 ^ 63) keywords)).
Proof.
  intros Hnz Hb task. unfold task, startFileSearchingGoroutine.
  rewrite decide_False by lia.
  assert (H0 : tickControl gossiperName (mkSearchTask keywords budget budget)
               = (TickSend (mkSearchRequest gossiperName (uint64 budget) keywords),
                  mkSearchTask keywords (int64 (budget + 1)) budget)).
  { unfold tickControl. cbn [stBudget stMaxAllowedBudget stKeywords].
    by rewrite decide_False by lia. }
  split; [cbn [nthTick]; by rewrite H0|]. split.
  - intros Hsmall.
    assert (H1 : tickControl gossiperName
                   (mkSearchTask keywords (int64 (budget + 1)) budget)
                 = (TickLinger, mkSearchTask keywords (budget + 2) budget)).
    { unfold tickControl. cbn [stBudget stMaxAllowedBudget stKeywords].
      rewrite !int64_small by lia. rewrite decide_True by lia.
      rewrite decide_False by lia. do 2 f_equal. lia. }
    assert (H2 : tickControl gossiperName (mkSearchTask keywords (budget + 2) budget)
                 = (TickShutdown, mkSearchTask keywords (budget + 2) budget)).
    { unfold tickControl. cbn [stBudget stMaxAllowedBudget stKeywords].
      rewrite !int64_small by lia. rewrite decide_True by lia.
      by rewrite decide_True by lia. }
    split; [cbn [nthTick]; by rewrite H0, H1|].
    intros k. cbn [Nat.add nthTick]. rewrite H0, H1.
    destruct k; cbn [nthTick]; by rewrite H2.
  - intros Hlarge.
    assert (Hwrap : int64 (2 ^ 63) = - 2 ^ 63) by reflexivity.
    assert (Hsend : tickControl gossiperName
                      (mkSearchTask keywords (- 2 ^ 63) budget)
                    = (TickSend (mkSearchRequest gossiperName (2 ^ 63) keywords),
                       mkSearchTask keywords (int64 (- 2 ^ 63 + 1)) budget)).
    { unfold tickControl. cbn [stBudget stMaxAllowedBudget stKeywords].
      by rewrite decide_False by lia. }
    destruct (decide (budget = 2 ^ 63 - 1)) as [->|Hne].
    + exists 1%nat. split; [lia|]. cbn [nthTick]. rewrite H0.
      replace (2 ^ 63 - 1 + 1) with (2 ^ 63) by lia. rewrite Hwrap.
      by rewrite Hsend.
    + assert (budget = 2 ^ 63 - 2) as -> by lia.
      exists 2%nat. split; [lia|]. cbn [nthTick]. rewrite H0.
      replace (2 ^ 63 - 2 + 1) with (2 ^ 63 - 1) by lia.
      rewrite (int64_small (2 ^ 63 - 1)) by lia.
      assert (H1 : tickControl gossiperName
                     (mkSearchTask keywords (2 ^ 63 - 1) (2 ^ 63 - 2))
                   = (TickLinger,
                      mkSearchTask keywords (- 2 ^ 63) (2 ^ 63 - 2))).
      { unfold tickControl. cbn [stBudget stMaxAllowedBudget stKeywords].
        rewrite decide_True by lia.
        replace (2 ^ 63 - 2 + 1) with (2 ^ 63 - 1) by lia.
        rewrite (int64_small (2 ^ 63 - 1)) by lia.
        rewrite decide_False by lia.
        replace (2 ^ 63 - 1 + 1) with (2 ^ 63) by lia. by rewrite Hwrap. }
      rewrite H1. by rewrite Hsend.
Qed.

Lemma explicit_budget_sends_one_request_witness :
  5 <> 0 /\ - 2 ^ 63 <= 5 < 2 ^ 63
  /\ nthTick "me" 0 (startFileSearchingGoroutine 2 32 ["a"%string] 5)
     = TickSend (mkSearchRequest "me" (uint64 5) ["a"%string])
  /\ nthTick "me" 1 (startFileSearchingGoroutine 2 32 ["a"%string] 5)
     = TickLinger
  /\ forall k, nthTick "me" (2 + k) (startFileSearchingGoroutine 2 32 ["a"%string] 5)
               = TickShutdown.
Proof.
  split; [lia|]. split; [lia|].
  destruct (explicit_budget_sends_one_request 2 32 "me" ["a"%string] 5
              ltac:(lia) ltac:(lia)) as (H0 & H1 & _).
  split; [exact H0|]. apply H1. lia.
Defined.

(** ** The budget of a forwarded search request *)

Lemma total_budget_app (l1 l2 : list (string * GossipPacket)) :
  total_budget (l1 ++ l2) = total_budget l1 + total_budget l2.
Proof.
  unfold total_budget. induction l1 as [|[p [r|s|q|y]] l1 IH]; cbn in *; lia.
Qed.

Lemma total_budget_shares (origin : string) (keywords : list string)
  (q r : Z) (rest : list string) :
  forall k : nat,
  0 <= r ->
  total_budget
    (imap (fun i peer =>
             (peer, GpSearchRequest
                      (mkSearchRequest origin
                         (q + (if decide (Z.of_nat (k + i) < r) then 1 else 0))
                         keywords)))
          rest)
  = len rest * q + Z.max 0 (Z.min (r - Z.of_nat k) (len rest)).
Proof.
  induction rest as [|peer rest IH]; intros k Hr.
  - unfold len. cbn. lia.
  - cbn [imap]. unfold total_budget at 1. cbn [foldr snd Budget].
    fold (total_budget
            (imap ((fun i peer0 =>
                      (peer0, GpSearchRequest
                                (mkSearchRequest origin
                                   (q + (if decide (Z.of_nat (k + i) < r)
                                         then 1 else 0)) keywords))) ∘ S) rest)).
    rewrite (imap_ext _ (fun i peer0 =>
               (peer0, GpSearchRequest
                         (mkSearchRequest origin
                            (q + (if decide (Z.of_nat (S k + i) < r)
                                  then 1 else 0)) keywords)))).
    2:{ intros i x _. cbn. do 5 f_equal. apply decide_ext. lia. }
    rewrite IH by done. unfold len. cbn [length].
    rewrite Nat.add_0_r. case_decide; lia.
Qed.

Lemma total_budget_forwarded (srqmsg : SearchRequest) (B : Z)
  (peers : list string) :
  0 <= B -> peers <> [] ->
  total_budget (forwarded_requests srqmsg B peers) = B.
Proof.
  intros HB Hpeers. unfold forwarded_requests, share.
  assert (HP : 0 < len peers).
  { unfold len. destruct peers; [done|]. simpl. lia. }
  pose proof (Z.mod_pos_bound B (len peers) HP) as Hr.
  rewrite (total_budget_shares _ _ _ (B mod len peers) peers 0) by lia.
  pose proof (Z.div_mod B (len peers) ltac:(lia)). lia.
Qed.

Section budget.
Context {MessageStorage : Type}.
Implicit Types g : Gossiper MessageStorage.
Variables shared downloaded : list string -> list SearchResult.
Variable DefaultHopLimit : Z.

(** What [processSearchRequest] does before it forwards the request: the
    reply to the origin, if there is one to send. *)
Lemma processSearchRequest_reply g (srqmsg : SearchRequest) :
  let sent :=
    if decide (len (shared (Keywords srqmsg) ++ downloaded (Keywords srqmsg)) > 0)
    then match nextHop g !! SrqOrigin srqmsg with
         | Some hop =>
             [(hop, GpSearchReply
                      (mkSearchReply (name g) (SrqOrigin srqmsg) DefaultHopLimit
                         (shared (Keywords srqmsg) ++ downloaded (Keywords srqmsg))))]
         | None => []
         end
    else [] in
  let g1 := mkGossiper (name g) (peers g) (nextHop g) (messageStorage g)
              (currentSearchRequest g) (statusesChannels g)
              (peerMessagesToSend g ++ sent) (mongeringThreads g) in
  SrqOrigin srqmsg <> name g ->
  processSearchRequest shared downloaded DefaultHopLimit g srqmsg
  = if decide (int64 (int64 (Budget srqmsg) - 1) <= 0) then Some g1
    else forwardSearchRequest g1 srqmsg (int64 (int64 (Budget srqmsg) - 1)).
Proof.
  intros sent g1 Hother. unfold processSearchRequest.
  rewrite decide_True by done. cbv zeta.
  assert (Hg1 : (if decide (len (shared (Keywords srqmsg)
                                 ++ downloaded (Keywords srqmsg)) > 0)
                 then sendPacketWithNextHop g (SrqOrigin srqmsg)
                        (GpSearchReply
                           (mkSearchReply (name g) (SrqOrigin srqmsg)
                              DefaultHopLimit
                              (shared (Keywords srqmsg)
                               ++ downloaded (Keywords srqmsg))))
                 else g) = g1).
  { unfold g1, sent, sendPacketWithNextHop. case_decide.
    - destruct (nextHop g !! SrqOrigin srqmsg); [done|].
      rewrite app_nil_r. by destruct g.
    - rewrite app_nil_r. by destruct g. }
  by rewrite Hg1.
Qed.

(** X29: forwarding conserves the budget.  When a search request is
    forwarded with a remaining budget [B] (the budget of a request of the
    gossiper itself, one less for a request of another origin), the budgets
    of the requests that are sent on add up to [B]. *)
Theorem forwarding_conserves_the_budget g (srqmsg : SearchRequest) :
  let B := if decide (SrqOrigin srqmsg ≠ name g)
           then Budget srqmsg - 1 else Budget srqmsg in
  0 <= Budget srqmsg < 2 ^ 63 -> 0 < B -> peers g ≠ [] ->
  exists g',
    processSearchRequest shared downloaded DefaultHopLimit g srqmsg = Some g'
    /\ total_budget (peerMessagesToSend g')
       = total_budget (peerMessagesToSend g) + B.
Proof.
  intros B Hbudget HB Hpeers. subst B.
  destruct (decide (SrqOrigin srqmsg ≠ name g)) as [Hother|Hself].
  - rewrite processSearchRequest_reply by done.
    rewrite (int64_small (Budget srqmsg)) by lia.
    rewrite (int64_small (Budget srqmsg - 1)) by lia.
    rewrite decide_False by lia.
    set (g1 := mkGossiper _ _ _ _ _ _ _ _).
    destruct (forwardSearchRequest_sends g1 srqmsg (Budget srqmsg - 1))
      as (g' & Hg' & Hsent); [lia|done|].
    exists g'. split; [done|]. rewrite Hsent. unfold g1.
    cbn [peerMessagesToSend peers]. rewrite !total_budget_app.
    rewrite total_budget_forwarded by (done || lia).
    assert (Hreply : forall l : list (string * GossipPacket),
               (forall m, m ∈ l -> exists srp, m.2 = GpSearchReply srp) ->
               total_budget l = 0).
    { induction l as [|m l IH]; intros Hl; [done|].
      unfold total_budget. cbn [foldr].
      destruct (Hl m ltac:(apply list_elem_of_here)) as [srp ->].
      apply IH. intros m' Hm'. apply Hl. by apply list_elem_of_further. }
    match goal with
    | |- context [total_budget (if ?c then ?a else ?b)] =>
        rewrite (Hreply (if c then a else b))
    end; [lia|]. intros m Hm. case_decide.
    + destruct (nextHop g !! SrqOrigin srqmsg).
      * apply list_elem_of_singleton in Hm as ->. by eexists.
      * by apply elem_of_nil in Hm.
    + by apply elem_of_nil in Hm.
  - unfold processSearchRequest. rewrite decide_False by done.
    rewrite (int64_small (Budget srqmsg)) by lia.
    destruct (forwardSearchRequest_sends g srqmsg (Budget srqmsg))
      as (g' & Hg' & Hsent); [lia|done|].
    exists g'. split; [done|]. rewrite Hsent, total_budget_app.
    by rewrite total_budget_forwarded by (done || lia).
Qed.

(** X30: a search request of another origin whose budget is 0 or 1 is
    answered but not forwarded, and it cannot make the gossiper panic,
    whether peers are known or not: the only packet sent is the reply to
    the origin, when a file matches and a route to the origin is known. *)
Theorem search_request_without_budget_is_not_forwarded g
  (srqmsg : SearchRequest) :
  SrqOrigin srqmsg <> name g ->
  0 <= Budget srqmsg <= 1 ->
  let matchedFiles := shared (Keywords srqmsg) ++ downloaded (Keywords srqmsg) in
  let sent :=
    if decide (len matchedFiles > 0)
    then match nextHop g !! SrqOrigin srqmsg with
         | Some hop =>
             [(hop, GpSearchReply
                      (mkSearchReply (name g) (SrqOrigin srqmsg) DefaultHopLimit
                         matchedFiles))]
         | None => []
         end
    else [] in
  processSearchRequest shared downloaded DefaultHopLimit g srqmsg
  = Some (mkGossiper (name g) (peers g) (nextHop g) (messageStorage g)
            (currentSearchRequest g) (statusesChannels g)
            (peerMessagesToSend g ++ sent) (mongeringThreads g))
  /\ total_budget sent = 0.
Proof.
  intros Hother Hbudget matchedFiles sent.
  rewrite processSearchRequest_reply by done.
  rewrite (int64_small (Budget srqmsg)) by lia.
  rewrite (int64_small (Budget srqmsg - 1)) by lia.
  rewrite decide_True by lia. split; [done|].
  unfold sent. case_decide; [|done].
  by destruct (nextHop g !! SrqOrigin srqmsg).
Qed.

End budget.

Lemma forwarding_conserves_the_budget_witness :
  0 <= Budget request_X < 2 ^ 63 /\ 0 < 2 - 1 /\ peers two_peers ≠ []
  /\ exists g',
       processSearchRequest no_files no_files 10 two_peers request_X = Some g'
       /\ total_budget (peerMessagesToSend g')
          = total_budget (peerMessagesToSend two_peers) + (2 - 1).
Proof.
  split; [simpl; lia|]. split; [lia|]. split; [discriminate|].
  apply (forwarding_conserves_the_budget no_files no_files 10 two_peers request_X).
  - simpl; lia.
  - simpl; lia.
  - discriminate.
Defined.

Lemma search_request_without_budget_is_not_forwarded_witness :
  SrqOrigin (mkSearchRequest "X" 1 ["a"%string]) <> name lonely
  /\ 0 <= Budget (mkSearchRequest "X" 1 ["a"%string]) <= 1
  /\ processSearchRequest no_files no_files 10 lonely
       (mkSearchRequest "X" 1 ["a"%string])
     = Some (mkGossiper (name lonely) (peers lonely) (nextHop lonely)
               (messageStorage lonely) (currentSearchRequest lonely)
               (statusesChannels lonely) (peerMessagesToSend lonely ++ [])
               (mongeringThreads lonely)).
Proof.
  assert (H : SrqOrigin (mkSearchRequest "X" 1 ["a"%string]) <> name lonely)
    by discriminate.
  split; [exact H|]. split; [simpl; lia|].
  apply (search_request_without_budget_is_not_forwarded no_files no_files 10
           lonely (mkSearchRequest "X" 1 ["a"%string]) H).
  simpl; lia.
Defined.
